(** * Roarm: joint-command translation, velocity limiting and mirroring loop

    A shallow embedding of the unit conversion in [Roarm.send_action] and
    [RoarmTeleoperator.get_action], of the velocity limiter
    [RoarmActionSafety.forward], of the adapter reads and writes of
    [Roarm] and [RoarmTeleoperator], of the teleoperation loop
    [RoarmTeleop._control_loop] and of [RoarmConfig.__post_init__].

    Numbers.  The Python code computes on binary64 floats (and on ints
    that are promoted by the true division).  Joint values are modelled
    as exact rationals [Q]: every formula below is the source's formula
    read in exact arithmetic, and equalities between values are stated
    with [==].  The two concrete scenarios are evaluated on binary64
    as well, with the definitions of [Module Binary64].

    Dictionaries ([action], [obs_dict], [last_positions],
    [joint_limits_deg]) are [gmap string _]. *)

From Stdlib Require Import QArith Qabs Qminmax Lqa Lia ZArith List.
From Stdlib Require Import PrimFloat.
From stdpp Require Import gmap strings list fin_maps.
Import ListNotations.

(** * Part I: the program *)

(** ** Numeric helpers (numpy) *)

Module Np.
Local Open Scope Q_scope.

(** [np.clip(a, a_min, a_max)] is [minimum(a_max, maximum(a, a_min))]. *)
Definition clip (a a_min a_max : Q) : Q := Qmin a_max (Qmax a a_min).

(** [np.sign]: -1, 0 or 1. *)
Definition sign (x : Q) : Q :=
  match x ?= 0 with
  | Lt => -1
  | Eq => 0
  | Gt => 1
  end.

(** [np.deg2rad(x)] is [x * pi / 180], [np.rad2deg(x)] is [x * 180 / pi];
    [pi] is the rational that stands for numpy's constant. *)
Definition deg2rad (pi x : Q) : Q := x * pi / 180.
Definition rad2deg (pi x : Q) : Q := x * 180 / pi.
End Np.

(** Python's [needle in hay] on strings. *)
Fixpoint contains (needle hay : string) : bool :=
  if String.prefix needle hay then true
  else match hay with
       | EmptyString => false
       | String _ hay' => contains needle hay'
       end.

(** The f-string [f"{joint_name}.pos"]. *)
Definition pos_key (joint_name : string) : string := joint_name +:+ ".pos".

(** ** Exceptions and results *)

Inductive exn : Type :=
| ConnectionError
| RuntimeError (msg : string)
| ValueError (msg : string)
| KeyError (key : string)
| IndexError
| SdkError.

Inductive result (A : Type) : Type :=
| Return (a : A)
| Raise (e : exn).
Arguments Return {A} a.
Arguments Raise {A} e.

(** A computation on a mutable object [S] that returns or raises; the
    state survives a raise, as the effects of a Python method do. *)
Definition M (S A : Type) : Type := S -> result A * S.

Definition ret {S A} (a : A) : M S A := fun s => (Return a, s).
Definition raise {S A} (e : exn) : M S A := fun s => (Raise e, s).
Definition bind {S A B} (m : M S A) (k : A -> M S B) : M S B :=
  fun s => match m s with
           | (Return a, s') => k a s'
           | (Raise e, s') => (Raise e, s')
           end.
Definition get {S} : M S S := fun s => (Return s, s).

(** [try: m  except Exception: handler]. *)
Definition try_except {S A} (m : M S A) (handler : M S A) : M S A :=
  fun s => match m s with
           | (Return a, s') => (Return a, s')
           | (Raise _, s') => handler s'
           end.

Notation "'let!' x ':=' m 'in' k" := (bind m (fun x => k))
  (at level 10, x name, m at level 100, k at level 200).
Notation "'do!' m 'in' k" := (bind m (fun _ => k))
  (at level 10, m at level 100, k at level 200).

(** ** Unit conversion *)

Module UnitConverter.
Local Open Scope Q_scope.

(** [Roarm.send_action], the branch [joint_name in joint_limits_deg]:
    clamp the percentage, then map [-100, 100] onto [min_deg, max_deg]. *)
Definition angle_deg (min_deg max_deg value : Q) : Q :=
  let percentage := Np.clip value (-100) 100 in
  min_deg + (percentage + 100) * (max_deg - min_deg) / 200.

(** [Roarm.send_action], the fallback branch: degrees, clamped. *)
Definition angle_deg_fallback (value : Q) : Q := Np.clip value (-180) 180.

(** [Roarm.send_action], the gripper command: radians to degrees,
    clamped to [0, 90]. *)
Definition gripper_deg (pi gripper_rad : Q) : Q :=
  Np.clip (Np.rad2deg pi gripper_rad) 0 90.

(** [RoarmTeleoperator.get_action]: map [min_deg, max_deg] onto
    [-100, 100], then clamp. *)
Definition percentage (min_deg max_deg angle_deg : Q) : Q :=
  let percentage := ((angle_deg - min_deg) / (max_deg - min_deg)) * 200 - 100 in
  Np.clip percentage (-100) 100.
End UnitConverter.

(** ** Configuration *)

Module RoarmConfig.
Local Open Scope Q_scope.

(** The dataclass [RoarmConfig]; its [cameras] field belongs to the
    camera framework and is not part of this model. *)
Record t : Type := {
  roarm_type : string;
  port : option string;
  baudrate : Z;
  host : option string;
  joint_names : list string;
  joint_limits_deg : gmap string (Q * Q);
  default_speed : Z;
  default_acc : Z;
  has_gripper : bool;
  gripper_name : string;
  max_joint_velocity : Q;
  max_gripper_velocity : Q;
  ee_bounds_min : list Q;
  ee_bounds_max : list Q;
  max_ee_step_m : Q;
  id : option string
}.

Definition default_joint_names : list string :=
  ["shoulder_pan"; "shoulder_lift"; "elbow_flex"; "wrist_flex"; "wrist_roll";
   "gripper"]%string.

Definition default_joint_limits_deg : gmap string (Q * Q) :=
  list_to_map
    [("shoulder_pan", (-190, 190)); ("shoulder_lift", (-110, 110));
     ("elbow_flex", (-70, 190)); ("wrist_flex", (-110, 110));
     ("wrist_roll", (-190, 190)); ("gripper", (-10, 100))]%string.

(** The field defaults, for the given connection parameters. *)
Definition defaults (port host : option string) : t := {|
  roarm_type := "roarm_m3";
  port := port;
  baudrate := 115200;
  host := host;
  joint_names := default_joint_names;
  joint_limits_deg := default_joint_limits_deg;
  default_speed := 1000;
  default_acc := 50;
  has_gripper := true;
  gripper_name := "gripper";
  max_joint_velocity := 3;
  max_gripper_velocity := 2;
  ee_bounds_min := [-(4#10); -(4#10); 0];
  ee_bounds_max := [4#10; 4#10; 5#10];
  max_ee_step_m := 5#100;
  id := None
|}.

(** [__post_init__]; [super_post_init] is [RobotConfig.__post_init__]
    of the framework. *)
Definition __post_init__ (super_post_init : t -> result unit) (self : t)
  : result unit :=
  match super_post_init self with
  | Raise e => Raise e
  | Return _ =>
      match port self, host self with
      | None, None =>
          Raise (ValueError "Either 'port' (serial) or 'host' (WiFi) must be specified")
      | Some _, Some _ =>
          Raise (ValueError
                   "Cannot specify both 'port' and 'host'. Choose one connection method.")
      | _, _ => Return tt
      end
  end.

(** Constructing the dataclass: the fields are stored, then
    [__post_init__] runs; the object exists only if it returns. *)
Definition construct (super_post_init : t -> result unit) (fields : t) : result t :=
  match __post_init__ super_post_init fields with
  | Return _ => Return fields
  | Raise e => Raise e
  end.
End RoarmConfig.

(** ** The SDK boundary *)

(** One call on the [roarm_sdk] object, as the adapters issue them. *)
Inductive call : Type :=
| JointsAngleGet
| GripperAngleGet
| JointsAngleCtrl (angles : list Q) (speed acc : Z)
| GripperAngleCtrl (angle : Q) (speed acc : Z)
| TorqueSet (cmd : Z).

(** The capability interface of the external SDK over a device state
    [hw]: each call returns or raises and may change the device.  A read
    that yields nothing ([None] or an empty list, both falsy) is the
    empty list. *)
Class RoarmSDK (hw : Type) : Type := {
  joints_angle_get : hw -> result (list Q) * hw;
  gripper_angle_get : hw -> result (option Q) * hw;
  joints_angle_ctrl : list Q -> Z -> Z -> hw -> result unit * hw;
  gripper_angle_ctrl : Q -> Z -> Z -> hw -> result unit * hw;
  torque_set : Z -> hw -> result unit * hw
}.

Definition is_write (c : call) : bool :=
  match c with
  | JointsAngleCtrl _ _ _ | GripperAngleCtrl _ _ _ => true
  | _ => false
  end.

(** ** The follower adapter: class [Roarm] *)

Module Roarm.
Section WithSDK.
Context {hw : Type} `{RoarmSDK hw}.
(** numpy's constant pi. *)
Variable pi : Q.

(** The object: its configuration, the SDK handle [self.robot], the
    connection flag, and the calls issued on the SDK so far (oldest
    first).  Cameras are outside the model, so [is_connected] is the
    flag alone. *)
Record t : Type := {
  config : RoarmConfig.t;
  robot : hw;
  _is_connected : bool;
  calls : list call
}.

Definition is_connected (self : t) : bool := _is_connected self.

(** [self.robot.<method>(...)]: run the SDK call on the device and
    record it. *)
Definition sdk {A : Type} (c : call) (f : hw -> result A * hw) : M t A :=
  fun self =>
    let '(r, robot') := f (robot self) in
    (r, {| config := config self; robot := robot';
           _is_connected := _is_connected self;
           calls := calls self ++ [c] |}).

(** [for i, joint_name in enumerate(joint_names):
       obs_dict[f"{joint_name}.pos"] = float(np.deg2rad(angles[i]))];
    [angles[i]] raises IndexError past the end, and the entries
    written before it stay in [obs_dict]. *)
Fixpoint store_angles (joint_names : list string) (angles : list Q)
    (obs_dict : gmap string Q) : result unit * gmap string Q :=
  match joint_names with
  | [] => (Return tt, obs_dict)
  | joint_name :: joint_names' =>
      match angles with
      | [] => (Raise IndexError, obs_dict)
      | angle :: angles' =>
          store_angles joint_names' angles'
            (<[pos_key joint_name := Np.deg2rad pi angle]> obs_dict)
      end
  end.

(** [for joint_name in joint_names: obs_dict[f"{joint_name}.pos"] = 0.0]. *)
Definition store_zeros (joint_names : list string) (obs_dict : gmap string Q)
  : gmap string Q :=
  foldl (fun d joint_name => <[pos_key joint_name := 0%Q]> d) obs_dict joint_names.

(** The joint part of [get_observation] (lines 241-252). *)
Definition read_joints (obs_dict : gmap string Q) : M t (gmap string Q) :=
  fun self =>
    let joint_names := RoarmConfig.joint_names (config self) in
    match sdk JointsAngleGet joints_angle_get self with
    | (Return angles, self') =>
        match angles with
        | [] => (Return obs_dict, self')
        | _ :: _ =>
            match store_angles joint_names angles obs_dict with
            | (Return _, obs_dict') => (Return obs_dict', self')
            | (Raise _, obs_dict') => (Return (store_zeros joint_names obs_dict'), self')
            end
        end
    | (Raise _, self') => (Return (store_zeros joint_names obs_dict), self')
    end.

(** The gripper part of [get_observation] (lines 255-262). *)
Definition read_gripper (obs_dict : gmap string Q) : M t (gmap string Q) :=
  fun self =>
    if RoarmConfig.has_gripper (config self) then
      let gripper_key := pos_key (RoarmConfig.gripper_name (config self)) in
      match sdk GripperAngleGet gripper_angle_get self with
      | (Return gripper_angle, self') =>
          let gripper_rad :=
            match gripper_angle with
            | Some a => Np.deg2rad pi a
            | None => 0%Q
            end in
          (Return (<[gripper_key := gripper_rad]> obs_dict), self')
      | (Raise _, self') => (Return (<[gripper_key := 0%Q]> obs_dict), self')
      end
    else (Return obs_dict, self).

(** [Roarm.get_observation], the motor entries. *)
Definition get_observation : M t (gmap string Q) :=
  let! self := get in
  if negb (is_connected self) then raise ConnectionError
  else
    let! obs_dict := read_joints ∅ in
    let! obs_dict := read_gripper obs_dict in
    ret obs_dict.

(** One turn of the loop of [send_action] (lines 287-307): the
    angle appended for [joint_name]. *)
Definition joint_angle (joint_name : string) (action : gmap string Q) : M t Q :=
  let key := pos_key joint_name in
  match action !! key with
  | Some value =>
      let! self := get in
      match RoarmConfig.joint_limits_deg (config self) !! joint_name with
      | Some (min_deg, max_deg) =>
          ret (UnitConverter.angle_deg min_deg max_deg value)
      | None => ret (UnitConverter.angle_deg_fallback value)
      end
  | None =>
      let! current_obs := get_observation in
      match current_obs !! key with
      | Some v => ret (Np.rad2deg pi v)
      | None => raise (KeyError key)
      end
  end.

(** The loop of [send_action] that builds [angles_deg]
    (lines 285-307). *)
Fixpoint build_angles_deg (joint_names : list string) (action : gmap string Q)
  : M t (list Q) :=
  match joint_names with
  | [] => ret []
  | joint_name :: joint_names' =>
      let! angle := joint_angle joint_name action in
      let! angles_deg := build_angles_deg joint_names' action in
      ret (angle :: angles_deg)
  end.

(** The joint command (lines 310-317): a failed write is logged, not
    raised. *)
Definition send_joints (angles_deg : list Q) : M t unit :=
  let! self := get in
  let speed := RoarmConfig.default_speed (config self) in
  let acc := RoarmConfig.default_acc (config self) in
  try_except
    (sdk (JointsAngleCtrl angles_deg speed acc) (joints_angle_ctrl angles_deg speed acc))
    (ret tt).

(** The gripper command (lines 320-334). *)
Definition send_gripper (action : gmap string Q) : M t unit :=
  let! self := get in
  if RoarmConfig.has_gripper (config self) then
    let gripper_key := pos_key (RoarmConfig.gripper_name (config self)) in
    match action !! gripper_key with
    | Some gripper_rad =>
        let gripper_deg := UnitConverter.gripper_deg pi gripper_rad in
        let speed := RoarmConfig.default_speed (config self) in
        let acc := RoarmConfig.default_acc (config self) in
        try_except
          (sdk (GripperAngleCtrl gripper_deg speed acc)
               (gripper_angle_ctrl gripper_deg speed acc))
          (ret tt)
    | None => ret tt
    end
  else ret tt.

(** [Roarm.send_action]. *)
Definition send_action (action : gmap string Q) : M t (gmap string Q) :=
  let! self := get in
  if negb (is_connected self) then raise ConnectionError
  else
    let! angles_deg := build_angles_deg (RoarmConfig.joint_names (config self)) action in
    do! send_joints angles_deg in
    do! send_gripper action in
    ret action.

(** The write calls among the calls an adapter has issued. *)
Definition writes (self : t) : list call := List.filter is_write (calls self).
End WithSDK.
Arguments t hw : clear implicits.
End Roarm.

(** ** The leader adapter: class [RoarmTeleoperator] *)

Module RoarmTeleoperator.
Section WithSDK.
Context {hw : Type} `{RoarmSDK hw}.

Record t : Type := {
  roarm : hw;
  _connected : bool;
  calls : list call
}.

Definition sdk {A : Type} (c : call) (f : hw -> result A * hw) : M t A :=
  fun self =>
    let '(r, roarm') := f (roarm self) in
    (r, {| roarm := roarm'; _connected := _connected self;
           calls := calls self ++ [c] |}).

(** The tables local to [get_action]. *)
Definition joint_limits : gmap string (Q * Q) :=
  list_to_map
    [("shoulder_pan", (-190, 190)); ("shoulder_lift", (-110, 110));
     ("elbow_flex", (-70, 190)); ("wrist_flex", (-110, 110));
     ("wrist_roll", (-190, 190)); ("gripper", (-10, 100))]%string%Q.

Definition joint_names : list string :=
  ["shoulder_pan"; "shoulder_lift"; "elbow_flex"; "wrist_flex"; "wrist_roll";
   "gripper"]%string.

(** The loop of [get_action] (lines 167-175). *)
Fixpoint fill_action (joint_names : list string) (angles : list Q)
    (action_dict : gmap string Q) : result (gmap string Q) :=
  match joint_names with
  | [] => Return action_dict
  | joint_name :: joint_names' =>
      match angles with
      | [] => Raise IndexError
      | angle_deg :: angles' =>
          match joint_limits !! joint_name with
          | None => Raise (KeyError joint_name)
          | Some (min_deg, max_deg) =>
              fill_action joint_names' angles'
                (<[pos_key joint_name :=
                     UnitConverter.percentage min_deg max_deg angle_deg]> action_dict)
          end
      end
  end.

(** [RoarmTeleoperator.get_action]: an exception of the SDK call is
    not caught, and a read that yields nothing, or fewer than six
    angles, raises RuntimeError. *)
Definition get_action : M t (gmap string Q) :=
  let! self := get in
  if negb (_connected self) then raise (RuntimeError "Roarm teleoperator not connected")
  else
    let! angles := sdk JointsAngleGet joints_angle_get in
    if (length angles <? 6)%nat
    then raise (RuntimeError "Failed to read joint angles from teleoperator")
    else fun self' => (fill_action joint_names angles ∅, self').
End WithSDK.
Arguments t hw : clear implicits.
End RoarmTeleoperator.

(** ** The velocity limiter: class [RoarmActionSafety] *)

Module RoarmActionSafety.
Local Open Scope Q_scope.

Record t : Type := {
  joint_names : list string;
  max_joint_velocity : Q;
  max_gripper_velocity : Q;
  gripper_name : string;
  dt : Q;
  last_positions : gmap string Q
}.

(** [__init__] with its defaults; [last_positions] starts empty. *)
Definition init (joint_names : list string) : t := {|
  joint_names := joint_names;
  max_joint_velocity := 3;
  max_gripper_velocity := 2;
  gripper_name := "gripper";
  dt := 1 # 10;
  last_positions := ∅
|}.

(** The body both loops of [forward] share, for one key: the pair is
    ([self.last_positions], [transition.action]). *)
Definition limit (max_velocity dt : Q) (key : string)
    (st : gmap string Q * gmap string Q) : gmap string Q * gmap string Q :=
  let '(last_positions, action) := st in
  match action !! key with
  | None => st
  | Some target_pos =>
      match last_positions !! key with
      | None => (<[key := target_pos]> last_positions, action)
      | Some last_pos =>
          let max_delta := max_velocity * dt in
          let delta := target_pos - last_pos in
          if Qlt_le_dec max_delta (Qabs delta) then
            let delta := Np.sign delta * max_delta in
            let target_pos := last_pos + delta in
            (<[key := target_pos]> last_positions, <[key := target_pos]> action)
          else (<[key := target_pos]> last_positions, action)
      end
  end.

(** [RoarmActionSafety.forward]: the joints in order, then the
    gripper key; returns the updated object and the transition's
    action. *)
Definition forward (self : t) (action : gmap string Q) : t * gmap string Q :=
  let st :=
    foldl (fun st joint_name =>
             limit (max_joint_velocity self) (dt self) (pos_key joint_name) st)
          (last_positions self, action) (joint_names self) in
  let '(last_positions', action') :=
    limit (max_gripper_velocity self) (dt self) (pos_key (gripper_name self)) st in
  ({| joint_names := joint_names self;
      max_joint_velocity := max_joint_velocity self;
      max_gripper_velocity := max_gripper_velocity self;
      gripper_name := gripper_name self;
      dt := dt self;
      last_positions := last_positions' |}, action').

(** Feeding a sequence of targets for one key, one [forward] call per
    target, and collecting what each call leaves under the key. *)
Fixpoint feed (self : t) (key : string) (targets : list Q) : list (option Q) :=
  match targets with
  | [] => []
  | target :: targets' =>
      let '(self', action') := forward self {[ key := target ]} in
      (action' !! key) :: feed self' key targets'
  end.

(** The keys [forward] limits. *)
Definition limited (self : t) (key : string) : Prop :=
  key ∈ map pos_key (joint_names self) \/ key = pos_key (gripper_name self).

(** The largest step [forward] allows on a key: the joint loop
    handles a key first when it is a joint key. *)
Definition max_step (self : t) (key : string) : Q :=
  if decide (key ∈ map pos_key (joint_names self))
  then max_joint_velocity self * dt self
  else max_gripper_velocity self * dt self.
End RoarmActionSafety.

(** ** The teleoperation loop: class [RoarmTeleop] *)

Module RoarmTeleop.
Section WithSDK.
Context {hw : Type} `{RoarmSDK hw}.
Variable pi : Q.

(** The two adapters the loop owns. *)
Record robots : Type := {
  leader : Roarm.t hw;
  follower : Roarm.t hw
}.

(** [".pos" in key and "cam" not in key]. *)
Definition is_joint_key (key : string) : bool :=
  contains ".pos" key && negb (contains "cam" key).

(** The dictionary [action] built from [leader_obs] (lines 89-92). *)
Definition extract_action (leader_obs : gmap string Q) : gmap string Q :=
  filter (fun kv => is_joint_key kv.1 = true) leader_obs.

(** The [try] block of one tick (lines 84-98): any exception ends
    the block and is printed. *)
Definition tick (w : robots) : robots :=
  match Roarm.get_observation pi (leader w) with
  | (Raise _, leader') => {| leader := leader'; follower := follower w |}
  | (Return leader_obs, leader') =>
      let action := extract_action leader_obs in
      let '(_, follower') := Roarm.send_action pi action (follower w) in
      {| leader := leader'; follower := follower' |}
  end.
End WithSDK.
Arguments robots hw : clear implicits.

(** *** The loop thread and the caller of [stop]

    [_control_loop] runs on its own thread; [stop] runs on the
    caller's.  The only variable both touch is [self.running], so the
    model keeps the control points of the two threads and that flag,
    and interleaves their steps.  The body of a tick neither reads nor
    writes the flag and is one step here. *)

Inductive loop_pc : Type :=
| AtWhile      (* about to evaluate [while self.running] *)
| InTick       (* lines 82-98 *)
| Pacing       (* lines 101-104 *)
| Exited.      (* [_control_loop] has returned; the thread has ended *)

Inductive caller_pc : Type :=
| Active                      (* after [start], before [stop] *)
| Joining                     (* in [self.thread.join(timeout=2.0)] *)
| Disconnecting (joined : bool) (* lines 73-74; [joined]: the thread had ended *)
| Returned (joined : bool).   (* [stop] has returned to the caller *)

Record control : Type := {
  running : bool;
  loop : loop_pc;
  ticks : nat;                (* ticks begun so far *)
  caller : caller_pc
}.

(** The state [start] leaves (lines 55-57). *)
Definition started : control :=
  {| running := true; loop := AtWhile; ticks := 0; caller := Active |}.

Inductive event : Type :=
| LoopStep       (* the loop thread takes its next step *)
| Stop           (* the caller runs line 67 *)
| JoinReturns    (* [join] returns because the thread has ended *)
| JoinTimesOut   (* [join] returns because 2.0 s have passed *)
| Disconnect.    (* the caller runs lines 73-75 *)

(** One step of one of the two threads; [None] when the event is not
    enabled in the state. *)
Definition step (e : event) (s : control) : option control :=
  match e with
  | LoopStep =>
      match loop s with
      | AtWhile =>
          if running s
          then Some {| running := running s; loop := InTick;
                       ticks := S (ticks s); caller := caller s |}
          else Some {| running := running s; loop := Exited;
                       ticks := ticks s; caller := caller s |}
      | InTick => Some {| running := running s; loop := Pacing;
                          ticks := ticks s; caller := caller s |}
      | Pacing => Some {| running := running s; loop := AtWhile;
                          ticks := ticks s; caller := caller s |}
      | Exited => None
      end
  | Stop =>
      match caller s with
      | Active => Some {| running := false; loop := loop s;
                          ticks := ticks s; caller := Joining |}
      | _ => None
      end
  | JoinReturns =>
      match caller s, loop s with
      | Joining, Exited => Some {| running := running s; loop := loop s;
                                   ticks := ticks s; caller := Disconnecting true |}
      | _, _ => None
      end
  | JoinTimesOut =>
      match caller s, loop s with
      | Joining, Exited => None
      | Joining, _ => Some {| running := running s; loop := loop s;
                              ticks := ticks s; caller := Disconnecting false |}
      | _, _ => None
      end
  | Disconnect =>
      match caller s with
      | Disconnecting joined =>
          Some {| running := running s; loop := loop s;
                  ticks := ticks s; caller := Returned joined |}
      | _ => None
      end
  end.

(** A schedule: the events in the order they happen. *)
Fixpoint run (schedule : list event) (s : control) : option control :=
  match schedule with
  | [] => Some s
  | e :: schedule' =>
      match step e s with
      | Some s' => run schedule' s'
      | None => None
      end
  end.

(** The steps the loop thread still takes once the flag is false. *)
Definition steps_to_exit (pc : loop_pc) : nat :=
  match pc with
  | InTick => 3
  | Pacing => 2
  | AtWhile => 1
  | Exited => 0
  end.

Definition in_tick (s : control) : Prop := loop s = InTick \/ loop s = Pacing.

(** The caller got past [join] because the thread had ended. *)
Definition joined (s : control) : Prop :=
  caller s = Disconnecting true \/ caller s = Returned true.

(** The schedule in which, after [stop], the loop thread runs to its
    end and the caller then joins it and disconnects. *)
Definition orderly_stop (s : control) : list event :=
  Stop :: repeat LoopStep (steps_to_exit (loop s)) ++ [JoinReturns; Disconnect].
End RoarmTeleop.

(** ** The two concrete scenarios on binary64 *)

Module Binary64.
Local Open Scope float_scope.

Definition clip (a a_min a_max : float) : float :=
  let m := if a <? a_min then a_min else a in
  if a_max <? m then a_max else m.

Definition sign (x : float) : float :=
  if x <? 0 then -1 else if 0 <? x then 1 else 0.

(** [angle_deg] of [Roarm.send_action]. *)
Definition angle_deg (min_deg max_deg value : float) : float :=
  let percentage := clip value (-100) 100 in
  min_deg + (percentage + 100) * (max_deg - min_deg) / 200.

(** One call of the limiter on a key whose stored value is [last_pos]. *)
Definition limit (max_velocity dt : float) (last_pos : option float)
    (target_pos : float) : float :=
  match last_pos with
  | None => target_pos
  | Some last_pos =>
      let max_delta := max_velocity * dt in
      let delta := target_pos - last_pos in
      if max_delta <? abs delta then last_pos + sign delta * max_delta
      else target_pos
  end.

Fixpoint feed (max_velocity dt : float) (last_pos : option float)
    (targets : list float) : list float :=
  match targets with
  | [] => []
  | target :: targets' =>
      let out := limit max_velocity dt last_pos target in
      out :: feed max_velocity dt (Some out) targets'
  end.
End Binary64.

(** ** Simulated devices

    A device whose reads and writes have fixed outcomes; used to run the
    adapters on concrete inputs. *)

Module Sim.
Record device : Type := {
  joints : result (list Q);
  gripper : result (option Q);
  write_fails : bool
}.

Definition write_outcome (d : device) : result unit * device :=
  (if write_fails d then Raise SdkError else Return tt, d).

#[global] Instance sdk : RoarmSDK device := {|
  joints_angle_get := fun d => (joints d, d);
  gripper_angle_get := fun d => (gripper d, d);
  joints_angle_ctrl := fun _ _ _ d => write_outcome d;
  gripper_angle_ctrl := fun _ _ _ d => write_outcome d;
  torque_set := fun _ d => write_outcome d
|}.

(** A device at rest at the given angles. *)
Definition at_angles (angles : list Q) (g : Q) : device :=
  {| joints := Return angles; gripper := Return (Some g); write_fails := false |}.

(** A device whose joint read raises. *)
Definition read_raises : device :=
  {| joints := Raise SdkError; gripper := Return (Some 0%Q); write_fails := false |}.

(** A device whose joint read yields nothing. *)
Definition read_empty : device :=
  {| joints := Return []; gripper := Return (Some 0%Q); write_fails := false |}.

(** A device that refuses every write. *)
Definition write_refused : device :=
  {| joints := Return [0; 0; 0; 0; 0; 0]%Q; gripper := Return (Some 0%Q);
     write_fails := true |}.

Definition serial_config : RoarmConfig.t :=
  RoarmConfig.defaults (Some "/dev/ttyUSB0"%string) None.

Definition connected (d : device) : Roarm.t device :=
  {| Roarm.config := serial_config; Roarm.robot := d;
     Roarm._is_connected := true; Roarm.calls := [] |}.

Definition disconnected (d : device) : Roarm.t device :=
  {| Roarm.config := serial_config; Roarm.robot := d;
     Roarm._is_connected := false; Roarm.calls := [] |}.

Definition teleoperator (d : device) : RoarmTeleoperator.t device :=
  {| RoarmTeleoperator.roarm := d; RoarmTeleoperator._connected := true;
     RoarmTeleoperator.calls := [] |}.

(** The rational used for numpy's pi when a run needs a number. *)
Definition pi : Q := 355 # 113.

Definition follower_at_rest : Roarm.t device :=
  connected (at_angles [10; 20; 30; 40; 50; 60]%Q 30%Q).

(** A loop whose leader's joint read raises. *)
Definition leader_read_raises : RoarmTeleop.robots device :=
  {| RoarmTeleop.leader := connected read_raises;
     RoarmTeleop.follower := follower_at_rest |}.

(** A loop whose leader is not connected. *)
Definition leader_disconnected : RoarmTeleop.robots device :=
  {| RoarmTeleop.leader := disconnected read_raises;
     RoarmTeleop.follower := follower_at_rest |}.

(** An action that carries every joint key. *)
Definition full_action : gmap string Q :=
  list_to_map
    [("shoulder_pan.pos", 0); ("shoulder_lift.pos", 150); ("elbow_flex.pos", 0);
     ("wrist_flex.pos", -250); ("wrist_roll.pos", 50); ("gripper.pos", 1)]%string%Q.
End Sim.

(** ** Vocabulary of the statements *)

(** The native value a percentage stands for: the affine map of
    [send_action] with no clamp. *)
Definition native_of (min_deg max_deg p : Q) : Q :=
  (min_deg + (p + 100) * (max_deg - min_deg) / 200)%Q.

(** What one call of the limiter returns for a key, from the value
    stored for it and its target. *)
Definition limit_value (max_delta : Q) (last_pos : option Q) (target_pos : Q) : Q :=
  match last_pos with
  | None => target_pos
  | Some last_pos =>
      if Qlt_le_dec max_delta (Qabs (target_pos - last_pos))
      then (last_pos + Np.sign (target_pos - last_pos) * max_delta)%Q
      else target_pos
  end.

(** The outputs of successive calls, each stored for the next. *)
Fixpoint limit_values (max_delta : Q) (last_pos : option Q) (targets : list Q) : list Q :=
  match targets with
  | [] => []
  | target :: targets' =>
      let out := limit_value max_delta last_pos target in
      out :: limit_values max_delta (Some out) targets'
  end.

(** Every output is within [max_delta] of the value stored before it. *)
Fixpoint steps_bounded (max_delta : Q) (stored : option Q) (outs : list Q) : Prop :=
  match outs with
  | [] => True
  | out :: outs' =>
      match stored with
      | None => True
      | Some last_pos => (Qabs (out - last_pos) <= max_delta)%Q
      end /\ steps_bounded max_delta (Some out) outs'
  end.

(** A key whose stored value and action value agree. *)
Definition settled (k : string) (r : Q) (st : gmap string Q * gmap string Q) : Prop :=
  st.1 !! k = Some r /\ st.2 !! k = Some r.

(** [self'] is [self] after the SDK calls [extra], and nothing else. *)
Definition extends {hw : Type} (self self' : Roarm.t hw) (extra : list call) : Prop :=
  Roarm.config self' = Roarm.config self
  /\ Roarm._is_connected self' = Roarm._is_connected self
  /\ Roarm.calls self' = Roarm.calls self ++ extra.

(** The SDK calls issued between two states of an adapter. *)
Definition issued {hw : Type} (self self' : Roarm.t hw) : list call :=
  drop (length (Roarm.calls self)) (Roarm.calls self').

(** What [send_action] dispatches for a joint whose key the action
    carries. *)
Definition joint_target (cfg : RoarmConfig.t) (joint_name : string) (value : Q) : Q :=
  match RoarmConfig.joint_limits_deg cfg !! joint_name with
  | Some (min_deg, max_deg) => UnitConverter.angle_deg min_deg max_deg value
  | None => UnitConverter.angle_deg_fallback value
  end.

(** The gripper calls of one [send_action]. *)
Definition gripper_calls (pi : Q) (cfg : RoarmConfig.t) (action : gmap string Q)
  : list call :=
  if RoarmConfig.has_gripper cfg then
    match action !! pos_key (RoarmConfig.gripper_name cfg) with
    | Some gripper_rad =>
        [GripperAngleCtrl (UnitConverter.gripper_deg pi gripper_rad)
           (RoarmConfig.default_speed cfg) (RoarmConfig.default_acc cfg)]
    | None => []
    end
  else [].


(** Exactly one of the serial port and the WiFi host is given. *)
Definition exactly_one_connection (c : RoarmConfig.t) : Prop :=
  (is_Some (RoarmConfig.port c) /\ RoarmConfig.host c = None)
  \/ (RoarmConfig.port c = None /\ is_Some (RoarmConfig.host c)).

(** * Part I, continued: the rest of the adapters, the normalizers and the session *)

(** ** [Roarm]: declared features *)

(** The value type of a feature dictionary; every motor feature is
    [float]. *)
Inductive py_type : Type :=
| py_float.

Module RoarmFeatures.

(** The property [_motors_ft]. *)
Definition _motors_ft (config : RoarmConfig.t) : gmap string py_type :=
  let features :=
    foldl (fun features joint_name => <[pos_key joint_name := py_float]> features)
          ∅ (RoarmConfig.joint_names config) in
  if RoarmConfig.has_gripper config
  then <[pos_key (RoarmConfig.gripper_name config) := py_float]> features
  else features.

(** The property [action_features]. *)
Definition action_features (config : RoarmConfig.t) : gmap string py_type :=
  _motors_ft config.

(** The property [observation_features], without the camera entries. *)
Definition observation_features (config : RoarmConfig.t) : gmap string py_type :=
  _motors_ft config.
End RoarmFeatures.

(** ** [Roarm]: connection, configuration and emergency stop *)

Module RoarmConnection.
Section WithSDK.
Context {hw : Type} `{RoarmSDK hw}.

(** The property [is_calibrated] and the method [calibrate] depend on
    the framework's calibration store and on the operator at the
    keyboard; they are parameters here. *)
Variable is_calibrated : Roarm.t hw -> bool.
Variable run_calibrate : M (Roarm.t hw) unit.

(** [self._is_connected = b]. *)
Definition set_connected (b : bool) : M (Roarm.t hw) unit :=
  fun self =>
    (Return tt, {| Roarm.config := Roarm.config self; Roarm.robot := Roarm.robot self;
                   Roarm._is_connected := b; Roarm.calls := Roarm.calls self |}).

(** [Roarm.configure]: torque on; a failure is logged. *)
Definition configure : M (Roarm.t hw) unit :=
  try_except (Roarm.sdk (TorqueSet 1) (torque_set 1)) (ret tt).

(** The probe of [connect] (lines 117-125): a read whose value is
    dropped; any exception becomes ConnectionError. *)
Definition probe : M (Roarm.t hw) unit :=
  try_except
    (let! angles := Roarm.sdk JointsAngleGet joints_angle_get in set_connected true)
    (raise ConnectionError).

(** [Roarm.connect(calibrate)], without the camera loop. *)
Definition connect (calibrate : bool) : M (Roarm.t hw) unit :=
  do! probe in
  let! self := get in
  do! (if negb (is_calibrated self) && calibrate then run_calibrate else ret tt) in
  configure.

(** [Roarm.disconnect], without the camera loop: torque off, failures
    ignored, then the flag is cleared. *)
Definition disconnect : M (Roarm.t hw) unit :=
  do! try_except (Roarm.sdk (TorqueSet 0) (torque_set 0)) (ret tt) in
  set_connected false.

(** [Roarm.teleop_safety_stop]. *)
Definition teleop_safety_stop : M (Roarm.t hw) unit :=
  try_except (Roarm.sdk (TorqueSet 0) (torque_set 0)) (ret tt).
End WithSDK.
End RoarmConnection.

(** ** [RoarmTeleoperator]: configuration, connection and observation *)

Module RoarmTeleoperatorConfig.
(** The dataclass [RoarmTeleoperatorConfig]. *)
Record t : Type := {
  roarm_type : string;
  port : option string;
  host : option string;
  baudrate : Z;
  calibration_dir : option string;
  id : option string
}.

Definition defaults (port host : option string) : t := {|
  roarm_type := "roarm_m3";
  port := port;
  host := host;
  baudrate := 115200;
  calibration_dir := None;
  id := None
|}.
End RoarmTeleoperatorConfig.

(** Python's truth value of a [str | None]: [None] and the empty
    string are false. *)
Definition truthy (o : option string) : bool :=
  match o with
  | None => false
  | Some EmptyString => false
  | Some (String _ _) => true
  end.

Module RoarmTeleoperatorSession.
Section WithSDK.
Context {hw : Type} `{RoarmSDK hw}.
(** numpy's constant pi, and the rounding of [dtype=np.float32]. *)
Variable pi : Q.
Variable float32 : Q -> Q.
(** The SDK constructor, which returns a handle or raises:
    [RoarmSDK(port=, baudrate=, roarm_type=)] and
    [RoarmSDK(host=, roarm_type=)]. *)
Variable open_serial : string -> Z -> string -> result hw.
Variable open_wifi : string -> string -> result hw.

(** [f" ({self.config.id})" if self.config.id else ""]. *)
Definition teleop_id (config : RoarmTeleoperatorConfig.t) : string :=
  match RoarmTeleoperatorConfig.id config with
  | Some (String c s) => " (" +:+ String c s +:+ ")"
  | _ => ""
  end.

(** The constructor call [connect] makes (lines 51-65), [None] when
    neither [port] nor [host] is truthy. *)
Definition open_handle (config : RoarmTeleoperatorConfig.t) : option (result hw) :=
  if truthy (RoarmTeleoperatorConfig.port config) then
    Some (open_serial (default "" (RoarmTeleoperatorConfig.port config))
            (RoarmTeleoperatorConfig.baudrate config)
            (RoarmTeleoperatorConfig.roarm_type config))
  else if truthy (RoarmTeleoperatorConfig.host config) then
    Some (open_wifi (default "" (RoarmTeleoperatorConfig.host config))
            (RoarmTeleoperatorConfig.roarm_type config))
  else None.

Definition set_connected (b : bool) (self : RoarmTeleoperator.t hw)
  : RoarmTeleoperator.t hw :=
  {| RoarmTeleoperator.roarm := RoarmTeleoperator.roarm self;
     RoarmTeleoperator._connected := b;
     RoarmTeleoperator.calls := RoarmTeleoperator.calls self |}.

Definition set_roarm (handle : hw) (self : RoarmTeleoperator.t hw)
  : RoarmTeleoperator.t hw :=
  {| RoarmTeleoperator.roarm := handle;
     RoarmTeleoperator._connected := RoarmTeleoperator._connected self;
     RoarmTeleoperator.calls := RoarmTeleoperator.calls self |}.

(** [RoarmTeleoperator.connect]. *)
Definition connect (config : RoarmTeleoperatorConfig.t)
  : M (RoarmTeleoperator.t hw) unit :=
  fun self =>
    if RoarmTeleoperator._connected self then (Return tt, self)
    else
      match open_handle config with
      | None =>
          (Raise (ValueError ("Either port or host must be specified for Roarm teleoperator"
                              +:+ teleop_id config)), self)
      | Some (Raise e) => (Raise e, self)
      | Some (Return handle) =>
          match RoarmTeleoperator.sdk (TorqueSet 0) (torque_set 0) (set_roarm handle self) with
          | (Return _, self') => (Return tt, set_connected true self')
          | (Raise e, self') => (Raise e, self')
          end
      end.

(** [RoarmTeleoperator.disconnect]. *)
Definition disconnect : M (RoarmTeleoperator.t hw) unit :=
  fun self =>
    if negb (RoarmTeleoperator._connected self) then (Return tt, self)
    else
      let '(_, self') :=
        try_except (RoarmTeleoperator.sdk (TorqueSet 1) (torque_set 1)) (ret tt) self in
      (Return tt, set_connected false self').

(** [RoarmTeleoperator.get_observation]: the vector under
    ['observation.state'], the first six angles as float32, in
    radians. *)
Definition get_observation : M (RoarmTeleoperator.t hw) (list Q) :=
  let! self := get in
  if negb (RoarmTeleoperator._connected self)
  then raise (RuntimeError "Roarm teleoperator not connected")
  else
    let! angles := RoarmTeleoperator.sdk JointsAngleGet joints_angle_get in
    if (length angles <? 6)%nat
    then raise (RuntimeError "Failed to read joint angles from teleoperator")
    else ret (map (fun a => float32 (Np.deg2rad pi (float32 a))) (take 6 angles)).
End WithSDK.
End RoarmTeleoperatorSession.

(** ** The normalizers of [processors.py] *)

(** The arithmetic both normalizers spell out inline.  The quotients
    are taken over a range of non-zero width; Python raises
    ZeroDivisionError on a width of zero, and the properties below
    state the widths they rely on. *)
Module Rescale.
Local Open Scope Q_scope.

(** [forward]: to [0, 1], then to the output range. *)
Definition scaled (min_val max_val out_min out_max value : Q) : Q :=
  let normalized := (value - min_val) / (max_val - min_val) in
  normalized * (out_max - out_min) + out_min.

(** [inverse]: from the output range to [0, 1], then to the original
    range. *)
Definition denormalized (min_val max_val out_min out_max value : Q) : Q :=
  let normalized := (value - out_min) / (out_max - out_min) in
  normalized * (max_val - min_val) + min_val.
End Rescale.

Module RoarmJointNormalizer.
Local Open Scope Q_scope.

Record t : Type := {
  joint_names : list string;
  joint_ranges : gmap string (Q * Q);
  output_range : Q * Q
}.

(** [{name: (-np.pi, np.pi) for name in joint_names}]. *)
Definition default_ranges (pi : Q) (joint_names : list string) : gmap string (Q * Q) :=
  foldl (fun ranges name => <[name := (- pi, pi)]> ranges) ∅ joint_names.

(** [__init__]; [None] for [joint_ranges] selects the default ranges. *)
Definition init (pi : Q) (joint_names : list string)
    (joint_ranges : option (gmap string (Q * Q))) (output_range : Q * Q) : t :=
  {| joint_names := joint_names;
     joint_ranges := match joint_ranges with
                     | Some ranges => ranges
                     | None => default_ranges pi joint_names
                     end;
     output_range := output_range |}.

(** The loop shared by [forward] and [inverse], with the arithmetic
    [f min_val max_val out_min out_max value] of each; the action is
    rewritten in place, so what was written before a KeyError of
    [self.joint_ranges[joint_name]] stays. *)
Fixpoint rewrite_joints (f : Q -> Q -> Q -> Q -> Q -> Q) (self : t)
    (joint_names : list string) (action : gmap string Q)
  : result unit * gmap string Q :=
  match joint_names with
  | [] => (Return tt, action)
  | joint_name :: joint_names' =>
      let key := pos_key joint_name in
      match action !! key with
      | None => rewrite_joints f self joint_names' action
      | Some value =>
          match joint_ranges self !! joint_name with
          | None => (Raise (KeyError joint_name), action)
          | Some (min_val, max_val) =>
              let '(out_min, out_max) := output_range self in
              rewrite_joints f self joint_names'
                (<[key := f min_val max_val out_min out_max value]> action)
          end
      end
  end.

(** [RoarmJointNormalizer.forward]. *)
Definition forward (self : t) (action : gmap string Q) : result unit * gmap string Q :=
  rewrite_joints Rescale.scaled self (joint_names self) action.

(** [RoarmJointNormalizer.inverse]. *)
Definition inverse (self : t) (action : gmap string Q) : result unit * gmap string Q :=
  rewrite_joints Rescale.denormalized self (joint_names self) action.
End RoarmJointNormalizer.

Module RoarmGripperNormalizer.
Local Open Scope Q_scope.

Record t : Type := {
  gripper_name : string;
  gripper_range : Q * Q;
  output_range : Q * Q
}.

(** [__init__] with its defaults: the range 0 to pi/2, the output
    range 0 to 1. *)
Definition init (pi : Q) : t :=
  {| gripper_name := "gripper"; gripper_range := (0, pi / 2); output_range := (0, 1) |}.

(** [RoarmGripperNormalizer.forward]. *)
Definition forward (self : t) (action : gmap string Q) : gmap string Q :=
  let key := pos_key (gripper_name self) in
  match action !! key with
  | None => action
  | Some value =>
      let '(min_val, max_val) := gripper_range self in
      let '(out_min, out_max) := output_range self in
      <[key := Rescale.scaled min_val max_val out_min out_max value]> action
  end.

(** [RoarmGripperNormalizer.inverse]. *)
Definition inverse (self : t) (action : gmap string Q) : gmap string Q :=
  let key := pos_key (gripper_name self) in
  match action !! key with
  | None => action
  | Some value =>
      let '(min_val, max_val) := gripper_range self in
      let '(out_min, out_max) := output_range self in
      <[key := Rescale.denormalized min_val max_val out_min out_max value]> action
  end.
End RoarmGripperNormalizer.

(** ** [RoarmTeleop]: starting and stopping the session *)

Module RoarmTeleopSession.
Section WithSDK.
Context {hw : Type} `{RoarmSDK hw}.
Variable is_calibrated : Roarm.t hw -> bool.
Variable run_calibrate : M (Roarm.t hw) unit.

(** The object without its thread: the two robots and the flag. *)
Record t : Type := {
  robots : RoarmTeleop.robots hw;
  running : bool
}.

(** A method call on [self.leader], on [self.follower]. *)
Definition on_leader {A : Type} (m : M (Roarm.t hw) A) : M t A :=
  fun self =>
    let '(r, leader') := m (RoarmTeleop.leader (robots self)) in
    (r, {| robots := {| RoarmTeleop.leader := leader';
                        RoarmTeleop.follower := RoarmTeleop.follower (robots self) |};
           running := running self |}).

Definition on_follower {A : Type} (m : M (Roarm.t hw) A) : M t A :=
  fun self =>
    let '(r, follower') := m (RoarmTeleop.follower (robots self)) in
    (r, {| robots := {| RoarmTeleop.leader := RoarmTeleop.leader (robots self);
                        RoarmTeleop.follower := follower' |};
           running := running self |}).

Definition set_running (b : bool) : M t unit :=
  fun self => (Return tt, {| robots := robots self; running := b |}).

(** [RoarmTeleop.start] up to the launch of the thread: the leader is
    connected and its torque released, the follower is connected, the
    flag is set. *)
Definition start : M t unit :=
  do! on_leader (RoarmConnection.connect is_calibrated run_calibrate false) in
  do! on_leader (Roarm.sdk (TorqueSet 0) (torque_set 0)) in
  do! on_follower (RoarmConnection.connect is_calibrated run_calibrate false) in
  set_running true.

(** [RoarmTeleop.stop] around the join: the flag is cleared and both
    robots are disconnected. *)
Definition stop : M t unit :=
  do! set_running false in
  do! on_leader RoarmConnection.disconnect in
  on_follower RoarmConnection.disconnect.
End WithSDK.
Arguments t hw : clear implicits.
End RoarmTeleopSession.

(** ** Vocabulary of the further statements *)

(** Two actions that agree key by key, values up to [==]. *)
Definition same_action (a b : gmap string Q) : Prop :=
  forall key, option_Forall2 Qeq (a !! key) (b !! key).

(** The torque commands among the calls of an adapter. *)
Definition torque_commands (calls : list call) : list Z :=
  omap (fun c => match c with TorqueSet cmd => Some cmd | _ => None end) calls.

(** Every joint of the list has a range [min_val < max_val]. *)
Definition proper_ranges (ranges : gmap string (Q * Q)) (joint_names : list string) : Prop :=
  Forall (fun joint_name =>
            exists min_val max_val,
              ranges !! joint_name = Some (min_val, max_val) /\ (min_val < max_val)%Q)
         joint_names.

(** A device whose joint read never comes back empty. *)
Definition never_empty {hw : Type} `{RoarmSDK hw} : Prop :=
  forall d : hw, (joints_angle_get d).1 <> Return [].

(** What the joint part of [get_observation] leaves in [obs_dict] for
    each outcome of the SDK read, and the gripper entry for each
    outcome of the gripper read. *)
Definition joints_reading (pi : Q) (joint_names : list string) (outcome : result (list Q))
    (obs_dict : gmap string Q) : gmap string Q :=
  match outcome with
  | Return [] => obs_dict
  | Return angles =>
      match Roarm.store_angles pi joint_names angles obs_dict with
      | (Return _, obs_dict') => obs_dict'
      | (Raise _, obs_dict') => Roarm.store_zeros joint_names obs_dict'
      end
  | Raise _ => Roarm.store_zeros joint_names obs_dict
  end.

Definition gripper_reading (pi : Q) (outcome : result (option Q)) : Q :=
  match outcome with
  | Return (Some gripper_angle) => Np.deg2rad pi gripper_angle
  | _ => 0%Q
  end.

(** The joint is not the gripper of a robot that has one. *)
Definition not_the_gripper (config : RoarmConfig.t) (joint_name : string) : Prop :=
  RoarmConfig.has_gripper config = false
  \/ pos_key joint_name <> pos_key (RoarmConfig.gripper_name config).

(** The calls that only read the device. *)
Definition is_read (c : call) : bool :=
  match c with
  | JointsAngleGet | GripperAngleGet => true
  | _ => false
  end.

(** A simulated device whose joint read always answers with six equal
    angles and whose gripper read gives nothing; [refuses] makes every
    write and torque command raise. *)
Module Steady.
Record device : Type := {
  angle : Q;
  refuses : bool
}.

Definition command (d : device) : result unit * device :=
  (if refuses d then Raise SdkError else Return tt, d).

#[global] Instance sdk : RoarmSDK device := {|
  joints_angle_get := fun d => (Return (repeat (angle d) 6), d);
  gripper_angle_get := fun d => (Return None, d);
  joints_angle_ctrl := fun _ _ _ d => command d;
  gripper_angle_ctrl := fun _ _ _ d => command d;
  torque_set := fun _ d => command d
|}.

Definition robot (d : device) (connected : bool) : Roarm.t device :=
  {| Roarm.config := Sim.serial_config; Roarm.robot := d;
     Roarm._is_connected := connected; Roarm.calls := [] |}.
End Steady.

(** What the loop of a joint normalizer does to the value under one
    key: each joint of the list whose key it is rewrites it in turn. *)
Definition rewrite_value (f : Q -> Q -> Q -> Q -> Q -> Q) (self : RoarmJointNormalizer.t)
    (joint_names : list string) (key : string) (value : Q) : Q :=
  foldl (fun value joint_name =>
           if decide (pos_key joint_name = key) then
             match RoarmJointNormalizer.joint_ranges self !! joint_name with
             | Some (min_val, max_val) =>
                 f min_val max_val (RoarmJointNormalizer.output_range self).1
                   (RoarmJointNormalizer.output_range self).2 value
             | None => value
             end
           else value)
        value joint_names.

(** A range over which the normalizers can divide. *)
Definition nonzero_width (r : Q * Q) : Prop := ~ (r.1 == r.2)%Q.

(** One turn of that loop on the value under [key]. *)
Definition rewrite_step (f : Q -> Q -> Q -> Q -> Q -> Q) (self : RoarmJointNormalizer.t)
    (key : string) (value : Q) (joint_name : string) : Q :=
  if decide (pos_key joint_name = key) then
    match RoarmJointNormalizer.joint_ranges self !! joint_name with
    | Some (min_val, max_val) =>
        f min_val max_val (RoarmJointNormalizer.output_range self).1
          (RoarmJointNormalizer.output_range self).2 value
    | None => value
    end
  else value.

(** * Part II: properties *)

(** ** Clamping *)

Section ClipFacts.
Local Open Scope Q_scope.

Lemma clip_bounds a lo hi : lo <= hi -> lo <= Np.clip a lo hi <= hi.
Proof.
  intros Hle. unfold Np.clip. split.
  - apply Q.min_glb; [exact Hle | apply Q.le_max_r].
  - apply Q.le_min_l.
Qed.

Lemma clip_id a lo hi : lo <= a <= hi -> Np.clip a lo hi == a.
Proof.
  intros [Hlo Hhi]. unfold Np.clip.
  rewrite (Q.max_l a lo Hlo). apply Q.min_r. exact Hhi.
Qed.

Lemma clip_above a lo hi : lo <= hi -> hi <= a -> Np.clip a lo hi == hi.
Proof.
  intros Hle Ha. unfold Np.clip. apply Q.min_l.
  apply Qle_trans with a; [exact Ha | apply Q.le_max_l].
Qed.

Lemma clip_below a lo hi : lo <= hi -> a <= lo -> Np.clip a lo hi == lo.
Proof.
  intros Hle Ha. unfold Np.clip.
  rewrite (Q.max_r a lo Ha). apply Q.min_r. exact Hle.
Qed.

#[global] Instance clip_proper : Proper (Qeq ==> Qeq ==> Qeq ==> Qeq) Np.clip.
Proof.
  intros a a' Ha lo lo' Hlo hi hi' Hhi. unfold Np.clip.
  rewrite Ha, Hlo, Hhi. reflexivity.
Qed.

#[global] Instance native_of_proper : Proper (Qeq ==> Qeq ==> Qeq ==> Qeq) native_of.
Proof.
  intros a a' Ha b b' Hb p p' Hp. unfold native_of.
  rewrite Ha, Hb, Hp. reflexivity.
Qed.
End ClipFacts.

(** ** Percentages and native degrees *)

Section Conversion.
Local Open Scope Q_scope.
Variables min_deg max_deg : Q.

Lemma angle_deg_native_of value :
  UnitConverter.angle_deg min_deg max_deg value
  == native_of min_deg max_deg (Np.clip value (-100) 100).
Proof. reflexivity. Qed.

Lemma native_of_monotone p q :
  min_deg <= max_deg -> p <= q ->
  native_of min_deg max_deg p <= native_of min_deg max_deg q.
Proof.
  intros Hm Hpq.
  assert (E : native_of min_deg max_deg q - native_of min_deg max_deg p
              == (q - p) * (max_deg - min_deg) * (1 # 200))
    by (unfold native_of; field).
  assert (Hpos : 0 <= (q - p) * (max_deg - min_deg))
    by (apply Qmult_le_0_compat; lra).
  lra.
Qed.

Lemma native_of_ends :
  native_of min_deg max_deg (-100) == min_deg
  /\ native_of min_deg max_deg 100 == max_deg.
Proof. unfold native_of. split; field. Qed.


Lemma angle_deg_passes_valid value :
  min_deg <= max_deg ->
  min_deg <= native_of min_deg max_deg value <= max_deg ->
  UnitConverter.angle_deg min_deg max_deg value == native_of min_deg max_deg value.
Proof.
  intros Hm [Hlo Hhi]. rewrite angle_deg_native_of.
  destruct (Qlt_le_dec min_deg max_deg) as [Hlt | Hge].
  - assert (Hv : -100 <= value <= 100).
    { assert (E1 : native_of min_deg max_deg value - min_deg
                   == (value + 100) * ((max_deg - min_deg) * (1 # 200)))
        by (unfold native_of; field).
      assert (E2 : max_deg - native_of min_deg max_deg value
                   == (100 - value) * ((max_deg - min_deg) * (1 # 200)))
        by (unfold native_of; field).
      assert (Hs : 0 < (max_deg - min_deg) * (1 # 200)) by lra.
      split.
      - apply Qnot_lt_le. intros Hc.
        assert (Hneg : (value + 100) * ((max_deg - min_deg) * (1 # 200)) < 0) by nra.
        lra.
      - apply Qnot_lt_le. intros Hc.
        assert (Hneg : (100 - value) * ((max_deg - min_deg) * (1 # 200)) < 0) by nra.
        lra. }
    unfold native_of. rewrite (clip_id _ _ _ Hv). reflexivity.
  - assert (E : max_deg - min_deg == 0) by lra.
    unfold native_of. rewrite E. field.
Qed.

End Conversion.

Section RoundTrip.
Local Open Scope Q_scope.

(** The leader's table and the follower's default table agree, so one
    pair of limits serves both directions. *)
Lemma teleoperator_limits_are_config_limits :
  RoarmTeleoperator.joint_limits = RoarmConfig.default_joint_limits_deg.
Proof. reflexivity. Qed.

(** Every configured pair of limits is a proper interval. *)
Lemma default_limits_proper joint_name min_deg max_deg :
  RoarmConfig.default_joint_limits_deg !! joint_name = Some (min_deg, max_deg) ->
  min_deg < max_deg.
Proof.
  intros Hl. apply elem_of_list_to_map_2 in Hl.
  repeat (apply elem_of_cons in Hl as [Heq | Hl];
          [injection Heq as _ -> ->; reflexivity |]).
  apply elem_of_nil in Hl. contradiction.
Qed.

(** C1.  For limits [min_deg < max_deg] and a percentage [p] in
    [-100, 100], converting [p] to native degrees as [Roarm.send_action]
    does and converting the result back as
    [RoarmTeleoperator.get_action] does returns [p]: in exact
    arithmetic the round trip is the identity. *)
Theorem percentage_roundtrip (min_deg max_deg p : Q) :
  min_deg < max_deg ->
  -100 <= p <= 100 ->
  UnitConverter.percentage min_deg max_deg
    (UnitConverter.angle_deg min_deg max_deg p) == p.
Proof.
  intros Hlt Hp.
  unfold UnitConverter.percentage, UnitConverter.angle_deg. cbv zeta.
  rewrite (clip_id p (-100) 100 Hp).
  assert (E : (min_deg + (p + 100) * (max_deg - min_deg) / 200 - min_deg)
              / (max_deg - min_deg) * 200 - 100 == p).
  { field. intros Hz. lra. }
  rewrite E. apply clip_id. exact Hp.
Qed.

Lemma percentage_roundtrip_witness :
  -70 < 190 /\ -100 <= 25 <= 100 /\
  UnitConverter.percentage (-70) 190 (UnitConverter.angle_deg (-70) 190 25) == 25.
Proof.
  assert (Hlt : -70 < 190) by reflexivity.
  assert (Hp : -100 <= 25 <= 100) by (split; unfold Qle; simpl; lia).
  split; [exact Hlt |]. split; [exact Hp |].
  exact (percentage_roundtrip (-70) 190 25 Hlt Hp).
Defined.

(** C5.  A percentage outside [-100, 100] is clamped to [-100, 100]
    before the affine scaling, for every pair of limits: above 100 it
    converts to the affine image of 100, which is [max_deg], and below
    -100 to the affine image of -100, which is [min_deg]; either way it
    converts as the clamped percentage does.  In particular 150
    converts as 100 does, to [max_deg]. *)
Theorem angle_deg_clamps_first (min_deg max_deg p : Q) :
  p < -100 \/ 100 < p ->
  (100 < p ->
   UnitConverter.angle_deg min_deg max_deg p == native_of min_deg max_deg 100
   /\ UnitConverter.angle_deg min_deg max_deg p == max_deg)
  /\ (p < -100 ->
      UnitConverter.angle_deg min_deg max_deg p == native_of min_deg max_deg (-100)
      /\ UnitConverter.angle_deg min_deg max_deg p == min_deg)
  /\ UnitConverter.angle_deg min_deg max_deg p
     == UnitConverter.angle_deg min_deg max_deg (if Qlt_le_dec 100 p then 100 else -100)
  /\ UnitConverter.angle_deg min_deg max_deg 150
     == UnitConverter.angle_deg min_deg max_deg 100
  /\ UnitConverter.angle_deg min_deg max_deg 150 == max_deg.
Proof.
  intros Hout. unfold UnitConverter.angle_deg, native_of. cbv zeta.
  split; [| split; [| split; [| split]]].
  - intros Hhi. rewrite (clip_above p (-100) 100) by lra. split; [reflexivity | field].
  - intros Hlo. rewrite (clip_below p (-100) 100) by lra. split; [reflexivity | field].
  - destruct (Qlt_le_dec 100 p) as [Hhi | Hlo].
    + rewrite (clip_above p (-100) 100) by lra.
      rewrite (clip_id 100 (-100) 100) by lra. reflexivity.
    + rewrite (clip_below p (-100) 100) by lra.
      rewrite (clip_id (-100) (-100) 100) by lra. reflexivity.
  - rewrite (clip_above 150 (-100) 100) by lra.
    rewrite (clip_id 100 (-100) 100) by lra. reflexivity.
  - rewrite (clip_above 150 (-100) 100) by lra. field.
Qed.

Lemma angle_deg_clamps_first_witness :
  UnitConverter.angle_deg (-70) 190 150 == 190
  /\ UnitConverter.angle_deg (-70) 190 150 == UnitConverter.angle_deg (-70) 190 100.
Proof.
  assert (Hout : 150 < -100 \/ 100 < 150) by (right; reflexivity).
  assert (Hhi : 100 < 150) by reflexivity.
  destruct (angle_deg_clamps_first (-70) 190 150 Hout) as (Habove & _ & Hsame & _).
  split; [exact (proj2 (Habove Hhi)) | exact Hsame].
Defined.

(** C6.  The configured limits of "elbow_flex" are (-70, 190), and
    with them the conversion of [Roarm.send_action] sends the
    percentage 0 to 60 degrees, 100 to 190 and -100 to -70. *)
Theorem elbow_flex_scenario :
  RoarmConfig.joint_limits_deg (RoarmConfig.defaults (Some "/dev/ttyUSB0"%string) None)
    !! "elbow_flex"%string = Some (-70, 190)
  /\ joint_target (RoarmConfig.defaults (Some "/dev/ttyUSB0"%string) None)
       "elbow_flex" 0 == 60
  /\ joint_target (RoarmConfig.defaults (Some "/dev/ttyUSB0"%string) None)
       "elbow_flex" 100 == 190
  /\ joint_target (RoarmConfig.defaults (Some "/dev/ttyUSB0"%string) None)
       "elbow_flex" (-100) == -70
  /\ UnitConverter.angle_deg (-70) 190 0 == 60
  /\ UnitConverter.angle_deg (-70) 190 100 == 190
  /\ UnitConverter.angle_deg (-70) 190 (-100) == -70.
Proof. repeat split. Qed.
End RoundTrip.

(** ** The velocity limiter *)

Section Limiter.
Local Open Scope Q_scope.
Import RoarmActionSafety.

Lemma sign_abs_le_1 x : Qabs (Np.sign x) <= 1.
Proof.
  unfold Np.sign. destruct (x ?= 0); unfold Qle; simpl; lia.
Qed.

Lemma limit_value_first max_delta target : limit_value max_delta None target = target.
Proof. reflexivity. Qed.

Lemma limit_value_step max_delta last_pos target :
  0 <= max_delta ->
  Qabs (limit_value max_delta (Some last_pos) target - last_pos) <= max_delta.
Proof.
  intros Hpos. unfold limit_value.
  destruct (Qlt_le_dec max_delta (Qabs (target - last_pos))) as [Hbig | Hsmall].
  - assert (E : last_pos + Np.sign (target - last_pos) * max_delta - last_pos
                == Np.sign (target - last_pos) * max_delta) by ring.
    rewrite E, Qabs_Qmult, (Qabs_pos max_delta Hpos).
    pose proof (sign_abs_le_1 (target - last_pos)) as Hs.
    pose proof (Qabs_nonneg (Np.sign (target - last_pos))) as Hn.
    nra.
  - exact Hsmall.
Qed.

Lemma limit_value_settled max_delta r :
  0 <= max_delta -> limit_value max_delta (Some r) r = r.
Proof.
  intros Hpos. unfold limit_value.
  destruct (Qlt_le_dec max_delta (Qabs (r - r))) as [Hbig | Hsmall]; [| reflexivity].
  exfalso. assert (E : r - r == 0) by ring. rewrite E in Hbig.
  change (Qabs 0) with 0 in Hbig. lra.
Qed.

Lemma steps_bounded_limit_values max_delta stored targets :
  0 <= max_delta -> steps_bounded max_delta stored (limit_values max_delta stored targets).
Proof.
  intros Hpos. revert stored.
  induction targets as [| target targets IH]; intros stored; simpl; [exact I |].
  split; [| apply IH].
  destruct stored as [last_pos |]; [| exact I].
  now apply limit_value_step.
Qed.

(** [limit] on one key, read through the lookups of its result. *)
Lemma limit_other max_velocity dt key k st :
  key <> k ->
  (limit max_velocity dt key st).1 !! k = st.1 !! k
  /\ (limit max_velocity dt key st).2 !! k = st.2 !! k.
Proof.
  intros Hne. destruct st as [lp act]. unfold limit.
  destruct (act !! key) as [target |]; [| split; reflexivity].
  destruct (lp !! key) as [last_pos |].
  - destruct (Qlt_le_dec _ _); simpl;
      rewrite ?lookup_insert_ne by exact Hne; split; reflexivity.
  - simpl. rewrite lookup_insert_ne by exact Hne. split; reflexivity.
Qed.

Lemma limit_same max_velocity dt key st target :
  st.2 !! key = Some target ->
  let r := limit_value (max_velocity * dt) (st.1 !! key) target in
  (limit max_velocity dt key st).1 !! key = Some r
  /\ (limit max_velocity dt key st).2 !! key = Some r.
Proof.
  destruct st as [lp act]. simpl. intros Hact. unfold limit. rewrite Hact.
  destruct (lp !! key) as [last_pos |]; simpl.
  - destruct (Qlt_le_dec _ _); simpl;
      rewrite ?lookup_insert_eq; split; try reflexivity. exact Hact.
  - rewrite lookup_insert_eq. split; [reflexivity | exact Hact].
Qed.

Lemma limit_settled max_velocity dt key k r st :
  0 <= max_velocity * dt -> settled k r st -> settled k r (limit max_velocity dt key st).
Proof.
  intros Hpos [Hlp Hact]. destruct (decide (key = k)) as [-> | Hne].
  - destruct (limit_same max_velocity dt k st r Hact) as [H1 H2].
    rewrite Hlp, (limit_value_settled _ r Hpos) in H1, H2. split; assumption.
  - destruct (limit_other max_velocity dt key k st Hne) as [H1 H2].
    split; congruence.
Qed.

Lemma foldl_limit_settled max_velocity dt names k r st :
  0 <= max_velocity * dt -> settled k r st ->
  settled k r (foldl (fun st joint_name => limit max_velocity dt (pos_key joint_name) st)
                     st names).
Proof.
  intros Hpos. revert st.
  induction names as [| j names IH]; intros st Hs; simpl; [exact Hs |].
  apply IH. now apply limit_settled.
Qed.

Lemma foldl_limit_other max_velocity dt names k st :
  k ∉ map pos_key names ->
  let st' := foldl (fun st joint_name => limit max_velocity dt (pos_key joint_name) st)
                   st names in
  st'.1 !! k = st.1 !! k /\ st'.2 !! k = st.2 !! k.
Proof.
  revert st. induction names as [| j names IH]; intros st Hnot; simpl; [split; reflexivity |].
  simpl in Hnot. apply not_elem_of_cons in Hnot as [Hne Hnot].
  destruct (IH (limit max_velocity dt (pos_key j) st) Hnot) as [H1 H2].
  destruct (limit_other max_velocity dt (pos_key j) k st (not_eq_sym Hne)) as [H3 H4].
  simpl in H1, H2. split; congruence.
Qed.

Lemma foldl_limit_first max_velocity dt names k st target :
  0 <= max_velocity * dt ->
  k ∈ map pos_key names ->
  st.2 !! k = Some target ->
  settled k (limit_value (max_velocity * dt) (st.1 !! k) target)
    (foldl (fun st joint_name => limit max_velocity dt (pos_key joint_name) st) st names).
Proof.
  intros Hpos. revert st.
  induction names as [| j names IH]; intros st Hin Hact; simpl in *.
  - apply elem_of_nil in Hin. contradiction.
  - destruct (decide (pos_key j = k)) as [Heq | Hne].
    + subst k. apply foldl_limit_settled; [exact Hpos |].
      exact (limit_same max_velocity dt (pos_key j) st target Hact).
    + apply elem_of_cons in Hin as [Heq | Hin]; [congruence |].
      destruct (limit_other max_velocity dt (pos_key j) k st Hne) as [H1 H2].
      rewrite <- H1. apply IH; [exact Hin | congruence].
Qed.

(** One call of [forward], for a key it limits and that the action
    carries: the value left in the action and the value stored are
    both the limited value. *)
Lemma forward_key self action key target :
  0 <= max_joint_velocity self * dt self ->
  0 <= max_gripper_velocity self * dt self ->
  limited self key ->
  action !! key = Some target ->
  let r := limit_value (max_step self key) (last_positions self !! key) target in
  (forward self action).2 !! key = Some r
  /\ last_positions (forward self action).1 !! key = Some r.
Proof.
  intros Hj Hg Hlim Hact r.
  assert (Hs : settled key r
            (limit (max_gripper_velocity self) (dt self) (pos_key (gripper_name self))
               (foldl (fun st joint_name =>
                         limit (max_joint_velocity self) (dt self) (pos_key joint_name) st)
                      (last_positions self, action) (joint_names self)))).
  { subst r. unfold max_step.
    destruct (decide (key ∈ map pos_key (joint_names self))) as [Hin | Hnot].
    - apply limit_settled; [exact Hg |].
      exact (foldl_limit_first _ _ _ key (last_positions self, action) target Hj Hin Hact).
    - destruct Hlim as [Hin | ->]; [contradiction |].
      destruct (foldl_limit_other (max_joint_velocity self) (dt self) (joint_names self)
                  (pos_key (gripper_name self)) (last_positions self, action) Hnot)
        as [H1 H2].
      simpl in H1, H2. rewrite <- H1.
      apply limit_same. rewrite H2. exact Hact. }
  unfold forward.
  destruct (limit _ _ _ _) as [lp' act']. destruct Hs as [H1 H2]. simpl in *.
  split; assumption.
Qed.

Lemma forward_keeps_parameters self action :
  let self' := (forward self action).1 in
  joint_names self' = joint_names self
  /\ gripper_name self' = gripper_name self
  /\ max_joint_velocity self' = max_joint_velocity self
  /\ max_gripper_velocity self' = max_gripper_velocity self
  /\ dt self' = dt self.
Proof.
  unfold forward. destruct (limit _ _ _ _) as [lp' act']. simpl. repeat split.
Qed.

(** A sequence of targets for one key, fed call by call: the outputs
    are those of the scalar limiter. *)
Lemma feed_limit_values self key targets :
  0 <= max_joint_velocity self * dt self ->
  0 <= max_gripper_velocity self * dt self ->
  limited self key ->
  feed self key targets
  = map Some (limit_values (max_step self key) (last_positions self !! key) targets).
Proof.
  revert self. induction targets as [| target targets IH]; intros self Hj Hg Hlim;
    simpl; [reflexivity |].
  destruct (forward_key self {[ key := target ]} key target Hj Hg Hlim
              (lookup_singleton_eq key target)) as [Hout Hstored].
  destruct (forward_keeps_parameters self {[ key := target ]})
    as (Hn & Hgn & Hmj & Hmg & Hdt).
  destruct (forward self {[ key := target ]}) as [self' action'] eqn:Hf.
  simpl in *. rewrite Hout. f_equal.
  assert (Hstep : max_step self' key = max_step self key).
  { unfold max_step. rewrite Hn, Hmj, Hmg, Hdt. reflexivity. }
  rewrite IH.
  - rewrite Hstep, Hstored. reflexivity.
  - rewrite Hmj, Hdt. exact Hj.
  - rewrite Hmg, Hdt. exact Hg.
  - unfold limited in *. rewrite Hn, Hgn. exact Hlim.
Qed.

(** C2.  With non-negative largest steps, for a key the limiter
    handles and every sequence of targets fed call by call: every call
    returns a value; the value returned is within
    [max_velocity * dt] of the value stored for the key before the
    call (the previous output, once there is one); and a call that
    finds nothing stored returns its target unchanged.  In particular,
    with [max_joint_velocity = 3], [dt = 1/10] and nothing stored,
    the targets 0, 1, 1 give 0, 3/10, 6/10. *)
Theorem velocity_limiter_steps self key targets :
  0 <= max_joint_velocity self * dt self ->
  0 <= max_gripper_velocity self * dt self ->
  limited self key ->
  (exists outs : list Q,
      feed self key targets = map Some outs
      /\ length outs = length targets
      /\ steps_bounded (max_step self key) (last_positions self !! key) outs
      /\ (last_positions self !! key = None -> head outs = head targets))
  /\ Forall2 (fun out expected => exists r : Q, out = Some r /\ r == expected)
       (feed (init ["elbow_flex"%string]) "elbow_flex.pos" [0; 1; 1])
       [0; 3 # 10; 6 # 10].
Proof.
  intros Hj Hg Hlim. split.
  - exists (limit_values (max_step self key) (last_positions self !! key) targets).
    split; [now apply feed_limit_values |].
    assert (Hpos : 0 <= max_step self key).
    { unfold max_step. destruct (decide _); assumption. }
    split; [| split].
    + generalize (last_positions self !! key).
      induction targets as [| t ts IH]; intros o; simpl; [reflexivity |].
      f_equal. apply IH.
    + now apply steps_bounded_limit_values.
    + intros ->. destruct targets; reflexivity.
  - vm_compute.
    repeat (constructor; [eexists; split; [reflexivity | reflexivity] |]).
    constructor.
Qed.
End Limiter.

(** ** The adapters *)

Section Adapters.
Context {hw : Type} `{RoarmSDK hw}.
Variable pi : Q.

Lemma extends_refl (self : Roarm.t hw) : extends self self [].
Proof. unfold extends. rewrite app_nil_r. repeat split. Qed.

Lemma extends_trans (a b c : Roarm.t hw) l1 l2 :
  extends a b l1 -> extends b c l2 -> extends a c (l1 ++ l2).
Proof.
  intros (C1 & I1 & L1) (C2 & I2 & L2). unfold extends.
  rewrite C2, I2, L2, L1, app_assoc. repeat split; assumption.
Qed.

Lemma sdk_extends {A : Type} (c : call) (f : hw -> result A * hw) (self : Roarm.t hw) :
  extends self (Roarm.sdk c f self).2 [c].
Proof.
  unfold Roarm.sdk. destruct (f (Roarm.robot self)) as [r robot']. simpl.
  repeat split.
Qed.

Lemma sdk_result {A : Type} (c : call) (f : hw -> result A * hw) (self : Roarm.t hw) :
  (Roarm.sdk c f self).1 = (f (Roarm.robot self)).1.
Proof.
  unfold Roarm.sdk. destruct (f (Roarm.robot self)) as [r robot']. reflexivity.
Qed.

(** The joint part of a read never raises and issues one read call. *)
Lemma read_joints_returns (obs_dict : gmap string Q) (self : Roarm.t hw) :
  exists obs', (Roarm.read_joints pi obs_dict self).1 = Return obs'
               /\ extends self (Roarm.read_joints pi obs_dict self).2 [JointsAngleGet].
Proof.
  unfold Roarm.read_joints.
  pose proof (sdk_extends JointsAngleGet joints_angle_get self) as Hext.
  destruct (Roarm.sdk JointsAngleGet joints_angle_get self) as [[angles | e] self1];
    simpl in Hext.
  - destruct angles as [| a angles]; [eexists; split; [reflexivity | exact Hext] |].
    destruct (Roarm.store_angles pi _ _ _) as [[u | e] obs1];
      eexists; (split; [reflexivity | exact Hext]).
  - eexists; split; [reflexivity | exact Hext].
Qed.

Lemma read_gripper_returns (obs_dict : gmap string Q) (self : Roarm.t hw) :
  exists obs' extra,
    (Roarm.read_gripper pi obs_dict self).1 = Return obs'
    /\ extends self (Roarm.read_gripper pi obs_dict self).2 extra
    /\ List.filter is_write extra = [].
Proof.
  unfold Roarm.read_gripper.
  destruct (RoarmConfig.has_gripper (Roarm.config self)).
  - pose proof (sdk_extends GripperAngleGet gripper_angle_get self) as Hext.
    destruct (Roarm.sdk GripperAngleGet gripper_angle_get self) as [[g | e] self1];
      simpl in Hext; eexists; exists [GripperAngleGet];
      (split; [reflexivity | split; [exact Hext | reflexivity]]).
  - eexists; exists []. split; [reflexivity |]. split; [apply extends_refl | reflexivity].
Qed.

(** A connected robot's [get_observation] returns, whatever the SDK
    reads do, and issues reads only. *)
Lemma get_observation_connected (self : Roarm.t hw) :
  Roarm.is_connected self = true ->
  exists obs extra,
    (Roarm.get_observation pi self).1 = Return obs
    /\ extends self (Roarm.get_observation pi self).2 extra
    /\ List.filter is_write extra = [].
Proof.
  intros Hc. unfold Roarm.get_observation, bind, get, ret. rewrite Hc. simpl.
  destruct (read_joints_returns ∅ self) as (obs1 & R1 & E1).
  destruct (Roarm.read_joints pi ∅ self) as [r1 self1]. simpl in R1, E1. subst r1.
  destruct (read_gripper_returns obs1 self1) as (obs2 & extra & R2 & E2 & W2).
  destruct (Roarm.read_gripper pi obs1 self1) as [r2 self2]. simpl in R2, E2. subst r2.
  simpl. exists obs2, ([JointsAngleGet] ++ extra).
  split; [reflexivity |]. split; [exact (extends_trans _ _ _ _ _ E1 E2) |].
  simpl. exact W2.
Qed.

(** A robot that is not connected raises and touches nothing. *)
Lemma get_observation_disconnected (self : Roarm.t hw) :
  Roarm.is_connected self = false ->
  Roarm.get_observation pi self = (Raise ConnectionError, self).
Proof.
  intros Hc. unfold Roarm.get_observation, bind, get, raise. rewrite Hc. reflexivity.
Qed.

Lemma get_observation_raises_only_disconnected (self self' : Roarm.t hw) e :
  Roarm.get_observation pi self = (Raise e, self') ->
  Roarm.is_connected self = false /\ e = ConnectionError /\ self' = self.
Proof.
  intros Hg. destruct (Roarm.is_connected self) eqn:Hc.
  - destruct (get_observation_connected self Hc) as (obs & extra & R & _).
    rewrite Hg in R. discriminate.
  - rewrite (get_observation_disconnected self Hc) in Hg.
    injection Hg as <- <-. repeat split.
Qed.

Lemma get_observation_extends (self : Roarm.t hw) :
  exists extra,
    extends self (Roarm.get_observation pi self).2 extra
    /\ List.filter is_write extra = [].
Proof.
  destruct (Roarm.is_connected self) eqn:Hc.
  - destruct (get_observation_connected self Hc) as (obs & extra & _ & E & W).
    exists extra. split; assumption.
  - rewrite (get_observation_disconnected self Hc). exists []. simpl.
    split; [apply extends_refl | reflexivity].
Qed.

Lemma joint_angle_spec (joint_name : string) (action : gmap string Q)
    (self : Roarm.t hw) :
  exists extra,
    extends self (Roarm.joint_angle pi joint_name action self).2 extra
    /\ List.filter is_write extra = []
    /\ forall angle value,
        (Roarm.joint_angle pi joint_name action self).1 = Return angle ->
        action !! pos_key joint_name = Some value ->
        angle = joint_target (Roarm.config self) joint_name value.
Proof.
  unfold Roarm.joint_angle.
  destruct (action !! pos_key joint_name) as [value |] eqn:Hact.
  - exists []. unfold bind, get, joint_target.
    destruct (RoarmConfig.joint_limits_deg (Roarm.config self) !! joint_name)
      as [[mn mx] |]; simpl;
      (split; [apply extends_refl |]; split; [reflexivity |]);
      intros angle v [= <-] [= <-]; reflexivity.
  - destruct (get_observation_extends self) as (extra & E & W).
    exists extra. unfold bind.
    destruct (Roarm.get_observation pi self) as [[current_obs | e] self0]; simpl in E.
    + destruct (current_obs !! pos_key joint_name) as [v |]; simpl;
        (split; [exact E |]; split; [exact W |]); intros angle v' _ [=].
    + simpl. split; [exact E |]. split; [exact W |]. intros angle v' [=].
Qed.

Lemma build_angles_deg_cons (j : string) (names : list string) (action : gmap string Q)
    (self : Roarm.t hw) :
  Roarm.build_angles_deg pi (j :: names) action self
  = match Roarm.joint_angle pi j action self with
    | (Return angle, self1) =>
        match Roarm.build_angles_deg pi names action self1 with
        | (Return angles_deg, self2) => (Return (angle :: angles_deg), self2)
        | (Raise e, self2) => (Raise e, self2)
        end
    | (Raise e, self1) => (Raise e, self1)
    end.
Proof. reflexivity. Qed.

(** The list [angles_deg]: reads only, and at the position of every
    joint whose key the action carries, the converted value. *)
Lemma build_angles_deg_spec (joint_names : list string) (action : gmap string Q)
    (self : Roarm.t hw) :
  exists extra,
    extends self (Roarm.build_angles_deg pi joint_names action self).2 extra
    /\ List.filter is_write extra = []
    /\ forall angles_deg,
        (Roarm.build_angles_deg pi joint_names action self).1 = Return angles_deg ->
        Forall2 (fun joint_name angle =>
                   forall value, action !! pos_key joint_name = Some value ->
                                 angle = joint_target (Roarm.config self) joint_name value)
                joint_names angles_deg.
Proof.
  revert self. induction joint_names as [| j names IH]; intros self.
  - exists []. simpl. split; [apply extends_refl |]. split; [reflexivity |].
    intros angles [= <-]. constructor.
  - rewrite build_angles_deg_cons.
    destruct (joint_angle_spec j action self) as (extra0 & E0 & W0 & P0).
    destruct (Roarm.joint_angle pi j action self) as [[angle | e] self1]; simpl in *.
    + destruct (IH self1) as (extra & E & W & P).
      destruct (Roarm.build_angles_deg pi names action self1) as [[angles | e] self2];
        simpl in *; exists (extra0 ++ extra);
        (split; [exact (extends_trans _ _ _ _ _ E0 E) |]);
        (split; [rewrite List.filter_app, W0, W; reflexivity |]).
      * intros angles' [= <-]. constructor.
        -- intros value Hv. exact (P0 angle value eq_refl Hv).
        -- destruct E0 as (C0 & _). rewrite <- C0. exact (P angles eq_refl).
      * intros angles' [=].
    + exists extra0. split; [exact E0 |]. split; [exact W0 |]. intros angles' [=].
Qed.

(** When the action carries every joint key, [angles_deg] is built
    without touching the device. *)
Lemma build_angles_deg_full (joint_names : list string) (action : gmap string Q)
    (self : Roarm.t hw) :
  Forall (fun joint_name => is_Some (action !! pos_key joint_name)) joint_names ->
  exists angles_deg,
    Roarm.build_angles_deg pi joint_names action self = (Return angles_deg, self).
Proof.
  induction 1 as [| j names [value Hj] _ [angles IH]].
  - exists []. reflexivity.
  - rewrite build_angles_deg_cons. unfold Roarm.joint_angle. rewrite Hj.
    unfold bind, get.
    destruct (RoarmConfig.joint_limits_deg (Roarm.config self) !! j) as [[mn mx] |];
      simpl; rewrite IH; eexists; reflexivity.
Qed.

(** A write is issued once and its failure is swallowed. *)
Lemma send_joints_spec (angles_deg : list Q) (self : Roarm.t hw) :
  (Roarm.send_joints angles_deg self).1 = Return tt
  /\ extends self (Roarm.send_joints angles_deg self).2
       [JointsAngleCtrl angles_deg (RoarmConfig.default_speed (Roarm.config self))
          (RoarmConfig.default_acc (Roarm.config self))].
Proof.
  unfold Roarm.send_joints, bind, get, try_except, ret.
  match goal with |- context [Roarm.sdk ?c ?f self] =>
    pose proof (sdk_extends c f self) as E;
    destruct (Roarm.sdk c f self) as [[u | e] self1] end;
    simpl in *; [destruct u |]; split; [reflexivity | exact E | reflexivity | exact E].
Qed.

Lemma send_gripper_spec (action : gmap string Q) (self : Roarm.t hw) :
  (Roarm.send_gripper pi action self).1 = Return tt
  /\ extends self (Roarm.send_gripper pi action self).2
       (gripper_calls pi (Roarm.config self) action).
Proof.
  unfold Roarm.send_gripper, gripper_calls, bind, get, try_except, ret.
  destruct (RoarmConfig.has_gripper (Roarm.config self));
    [| split; [reflexivity | apply extends_refl]].
  destruct (action !! pos_key (RoarmConfig.gripper_name (Roarm.config self)))
    as [gripper_rad |]; [| split; [reflexivity | apply extends_refl]].
  match goal with |- context [Roarm.sdk ?c ?f self] =>
    pose proof (sdk_extends c f self) as E;
    destruct (Roarm.sdk c f self) as [[u | e] self1] end;
    simpl in *; [destruct u |]; split; [reflexivity | exact E | reflexivity | exact E].
Qed.

Lemma send_action_disconnected (action : gmap string Q) (self : Roarm.t hw) :
  Roarm.is_connected self = false ->
  Roarm.send_action pi action self = (Raise ConnectionError, self).
Proof.
  intros Hc. unfold Roarm.send_action, bind, get, raise. rewrite Hc. reflexivity.
Qed.

Lemma send_action_unfold (action : gmap string Q) (self : Roarm.t hw) :
  Roarm.is_connected self = true ->
  Roarm.send_action pi action self
  = match Roarm.build_angles_deg pi (RoarmConfig.joint_names (Roarm.config self))
            action self with
    | (Return angles_deg, self1) =>
        match Roarm.send_joints angles_deg self1 with
        | (Return _, self2) =>
            match Roarm.send_gripper pi action self2 with
            | (Return _, self3) => (Return action, self3)
            | (Raise e, self3) => (Raise e, self3)
            end
        | (Raise e, self2) => (Raise e, self2)
        end
    | (Raise e, self1) => (Raise e, self1)
    end.
Proof.
  intros Hc. unfold Roarm.send_action, bind, get, ret. rewrite Hc. reflexivity.
Qed.

(** [send_action] on a connected robot: if building [angles_deg]
    raises, that exception leaves [send_action] and nothing is
    written; otherwise the input mapping is returned, after the reads,
    one joint write and the gripper calls. *)
Lemma send_action_spec (action : gmap string Q) (self : Roarm.t hw) :
  Roarm.is_connected self = true ->
  exists reads,
    List.filter is_write reads = []
    /\ match Roarm.build_angles_deg pi (RoarmConfig.joint_names (Roarm.config self))
               action self with
       | (Raise e, self1) =>
           Roarm.send_action pi action self = (Raise e, self1)
           /\ extends self self1 reads
       | (Return angles_deg, _) =>
           (Roarm.send_action pi action self).1 = Return action
           /\ extends self (Roarm.send_action pi action self).2
                (reads
                 ++ JointsAngleCtrl angles_deg
                      (RoarmConfig.default_speed (Roarm.config self))
                      (RoarmConfig.default_acc (Roarm.config self))
                 :: gripper_calls pi (Roarm.config self) action)
       end.
Proof.
  intros Hc.
  destruct (build_angles_deg_spec (RoarmConfig.joint_names (Roarm.config self)) action self)
    as (reads & E & W & _).
  exists reads. split; [exact W |].
  rewrite (send_action_unfold action self Hc).
  destruct (Roarm.build_angles_deg pi _ action self) as [[angles | e] self1]; simpl in E.
  - destruct (send_joints_spec angles self1) as [R1 E1].
    destruct (Roarm.send_joints angles self1) as [r1 self2]. simpl in R1, E1. subst r1.
    destruct (send_gripper_spec action self2) as [R2 E2].
    destruct (Roarm.send_gripper pi action self2) as [r2 self3]. simpl in R2, E2. subst r2.
    simpl. split; [reflexivity |].
    pose proof E as (C & _). pose proof E1 as (C1 & _).
    rewrite C in E1. rewrite C1, C in E2.
    exact (extends_trans _ _ _ _ _ E (extends_trans _ _ _ _ _ E1 E2)).
  - split; [reflexivity | exact E].
Qed.

Lemma extends_issued (self self' : Roarm.t hw) extra :
  extends self self' extra -> issued self self' = extra.
Proof.
  intros (_ & _ & L). unfold issued. rewrite L. apply drop_app_length.
Qed.



Lemma gripper_deg_passes_valid gripper_rad :
  (0 <= Np.rad2deg pi gripper_rad <= 90)%Q ->
  (UnitConverter.gripper_deg pi gripper_rad == Np.rad2deg pi gripper_rad)%Q.
Proof. intros Hin. unfold UnitConverter.gripper_deg. now apply clip_id. Qed.

Lemma angle_deg_fallback_bounds value :
  (-180 <= UnitConverter.angle_deg_fallback value <= 180)%Q
  /\ ((-180 <= value <= 180)%Q -> (UnitConverter.angle_deg_fallback value == value)%Q).
Proof.
  unfold UnitConverter.angle_deg_fallback. split; [apply clip_bounds; lra |].
  intros Hin. now apply clip_id.
Qed.

(** *** What [send_action] returns *)

(** When it returns, [send_action] returns its argument. *)
Lemma send_action_returns_argument (action result : gmap string Q) (self : Roarm.t hw) :
  (Roarm.send_action pi action self).1 = Return result -> result = action.
Proof.
  destruct (Roarm.is_connected self) eqn:Hc.
  - destruct (send_action_spec action self Hc) as (reads & _ & Hs).
    destruct (Roarm.build_angles_deg pi _ action self) as [[angles | e] self1].
    + destruct Hs as [R _]. rewrite R. now intros [= <-].
    + destruct Hs as [R _]. rewrite R. discriminate.
  - rewrite (send_action_disconnected action self Hc). discriminate.
Qed.

(** On a connected robot, an action that carries every joint key is
    returned unchanged, whether or not the SDK accepts the writes. *)
Lemma send_action_full_returns (action : gmap string Q) (self : Roarm.t hw) :
  Roarm.is_connected self = true ->
  Forall (fun joint_name => is_Some (action !! pos_key joint_name))
         (RoarmConfig.joint_names (Roarm.config self)) ->
  (Roarm.send_action pi action self).1 = Return action.
Proof.
  intros Hc Hfull.
  destruct (send_action_spec action self Hc) as (reads & _ & Hs).
  destruct (build_angles_deg_full _ action self Hfull) as [angles Hb].
  rewrite Hb in Hs. exact (proj1 Hs).
Qed.

(** *** What [send_action] dispatches *)





(** *** Reads that fail *)

Lemma store_zeros_lookup (joint_names : list string) (obs_dict : gmap string Q) k :
  Roarm.store_zeros joint_names obs_dict !! k
  = if decide (k ∈ map pos_key joint_names) then Some 0%Q else obs_dict !! k.
Proof.
  unfold Roarm.store_zeros. revert obs_dict.
  induction joint_names as [| j names IH]; intros obs_dict; simpl.
  - destruct (decide (k ∈ [])) as [Hin | _]; [| reflexivity].
    apply elem_of_nil in Hin. contradiction.
  - rewrite IH.
    destruct (decide (k ∈ map pos_key names)) as [Hin | Hnot].
    + rewrite decide_True by (apply elem_of_cons; now right). reflexivity.
    + destruct (decide (pos_key j = k)) as [<- | Hne].
      * rewrite decide_True by (apply elem_of_cons; now left).
        apply lookup_insert_eq.
      * rewrite decide_False.
        -- now apply lookup_insert_ne.
        -- intros Hin. apply elem_of_cons in Hin as [Heq | Hin]; congruence.
Qed.

Lemma read_joints_raising (self : Roarm.t hw) e :
  (joints_angle_get (Roarm.robot self)).1 = Raise e ->
  (Roarm.read_joints pi ∅ self).1
  = Return (Roarm.store_zeros (RoarmConfig.joint_names (Roarm.config self)) ∅).
Proof.
  intros Hr. unfold Roarm.read_joints.
  pose proof (sdk_result JointsAngleGet joints_angle_get self) as Hs. rewrite Hr in Hs.
  destruct (Roarm.sdk JointsAngleGet joints_angle_get self) as [r self1].
  simpl in Hs. subst r. reflexivity.
Qed.

Lemma read_joints_empty (self : Roarm.t hw) :
  (joints_angle_get (Roarm.robot self)).1 = Return [] ->
  (Roarm.read_joints pi ∅ self).1 = Return ∅.
Proof.
  intros Hr. unfold Roarm.read_joints.
  pose proof (sdk_result JointsAngleGet joints_angle_get self) as Hs. rewrite Hr in Hs.
  destruct (Roarm.sdk JointsAngleGet joints_angle_get self) as [r self1].
  simpl in Hs. subst r. reflexivity.
Qed.

Lemma read_joints_keeps_config (obs_dict : gmap string Q) (self : Roarm.t hw) :
  Roarm.config (Roarm.read_joints pi obs_dict self).2 = Roarm.config self.
Proof.
  destruct (read_joints_returns obs_dict self) as (obs' & _ & C & _). exact C.
Qed.

(** The gripper part writes the gripper key only. *)
Lemma read_gripper_other (obs_dict obs' : gmap string Q) (self : Roarm.t hw) k :
  (Roarm.read_gripper pi obs_dict self).1 = Return obs' ->
  RoarmConfig.has_gripper (Roarm.config self) = false
  \/ k <> pos_key (RoarmConfig.gripper_name (Roarm.config self)) ->
  obs' !! k = obs_dict !! k.
Proof.
  unfold Roarm.read_gripper.
  destruct (RoarmConfig.has_gripper (Roarm.config self)) eqn:Hg.
  - intros Hr [Hf | Hne]; [discriminate |].
    destruct (Roarm.sdk GripperAngleGet gripper_angle_get self) as [[g | e] self1];
      simpl in Hr; injection Hr as <-; now apply lookup_insert_ne.
  - intros [= <-] _. reflexivity.
Qed.

Lemma get_observation_unfold (self : Roarm.t hw) :
  Roarm.is_connected self = true ->
  Roarm.get_observation pi self
  = match Roarm.read_joints pi ∅ self with
    | (Return obs1, self1) =>
        match Roarm.read_gripper pi obs1 self1 with
        | (Return obs2, self2) => (Return obs2, self2)
        | (Raise e, self2) => (Raise e, self2)
        end
    | (Raise e, self1) => (Raise e, self1)
    end.
Proof.
  intros Hc. unfold Roarm.get_observation, bind, get, ret. rewrite Hc. reflexivity.
Qed.

Lemma teleoperator_sdk_result {A : Type} (c : call) (f : hw -> result A * hw)
    (teleop : RoarmTeleoperator.t hw) :
  (RoarmTeleoperator.sdk c f teleop).1 = (f (RoarmTeleoperator.roarm teleop)).1.
Proof.
  unfold RoarmTeleoperator.sdk.
  destruct (f (RoarmTeleoperator.roarm teleop)) as [r roarm']. reflexivity.
Qed.

Lemma get_action_unfold (teleop : RoarmTeleoperator.t hw) :
  RoarmTeleoperator._connected teleop = true ->
  RoarmTeleoperator.get_action teleop
  = match RoarmTeleoperator.sdk JointsAngleGet joints_angle_get teleop with
    | (Return angles, teleop') =>
        if (length angles <? 6)%nat
        then (Raise (RuntimeError "Failed to read joint angles from teleoperator"), teleop')
        else (RoarmTeleoperator.fill_action RoarmTeleoperator.joint_names angles ∅, teleop')
    | (Raise e, teleop') => (Raise e, teleop')
    end.
Proof.
  intros Hc. unfold RoarmTeleoperator.get_action, bind, get, raise. rewrite Hc. simpl.
  destruct (RoarmTeleoperator.sdk JointsAngleGet joints_angle_get teleop)
    as [[angles | e] teleop']; [| reflexivity].
  destruct (length angles <? 6)%nat; reflexivity.
Qed.

(** C7 (amended).  For a connected [Roarm], a failed joint-angle read
    does not raise past [get_observation]: the call returns an
    observation, in which every joint other than the gripper reads 0
    when the SDK call raised, and is absent when the SDK call yielded
    nothing.  For a connected [RoarmTeleoperator], [get_action] does
    raise: an exception of the SDK call passes through, and a read of
    fewer than six angles raises RuntimeError. *)
Theorem read_failure_outcomes (self : Roarm.t hw) (teleop : RoarmTeleoperator.t hw) :
  Roarm.is_connected self = true ->
  RoarmTeleoperator._connected teleop = true ->
  (exists obs,
      (Roarm.get_observation pi self).1 = Return obs
      /\ (forall e joint_name,
             (joints_angle_get (Roarm.robot self)).1 = Raise e ->
             joint_name ∈ RoarmConfig.joint_names (Roarm.config self) ->
             RoarmConfig.has_gripper (Roarm.config self) = false
             \/ pos_key joint_name <> pos_key (RoarmConfig.gripper_name (Roarm.config self)) ->
             obs !! pos_key joint_name = Some 0%Q)
      /\ (forall joint_name,
             (joints_angle_get (Roarm.robot self)).1 = Return [] ->
             RoarmConfig.has_gripper (Roarm.config self) = false
             \/ pos_key joint_name <> pos_key (RoarmConfig.gripper_name (Roarm.config self)) ->
             obs !! pos_key joint_name = None))
  /\ (forall e,
         (joints_angle_get (RoarmTeleoperator.roarm teleop)).1 = Raise e ->
         (RoarmTeleoperator.get_action teleop).1 = Raise e)
  /\ (forall angles,
         (joints_angle_get (RoarmTeleoperator.roarm teleop)).1 = Return angles ->
         (length angles < 6)%nat ->
         (RoarmTeleoperator.get_action teleop).1
         = Raise (RuntimeError "Failed to read joint angles from teleoperator")).
Proof.
  intros Hc Ht. split; [| split].
  - rewrite (get_observation_unfold self Hc).
    pose proof (read_joints_raising self) as Hraise.
    pose proof (read_joints_empty self) as Hempty.
    pose proof (read_joints_keeps_config ∅ self) as Hcfg.
    destruct (read_joints_returns ∅ self) as (obs1 & R1 & _).
    destruct (Roarm.read_joints pi ∅ self) as [r1 self1]. simpl in *. subst r1.
    pose proof (fun obs' => read_gripper_other obs1 obs' self1) as Hother.
    destruct (read_gripper_returns obs1 self1) as (obs2 & extra & R2 & _).
    destruct (Roarm.read_gripper pi obs1 self1) as [r2 self2]. simpl in *. subst r2.
    exists obs2. split; [reflexivity |]. split.
    + intros e j He Hin Hg. rewrite <- Hcfg in Hg.
      rewrite (Hother obs2 (pos_key j) eq_refl Hg).
      specialize (Hraise e He). injection Hraise as ->.
      rewrite store_zeros_lookup. apply decide_True.
      apply list_elem_of_fmap. exists j. split; [reflexivity | exact Hin].
    + intros j He Hg. rewrite <- Hcfg in Hg.
      rewrite (Hother obs2 (pos_key j) eq_refl Hg).
      specialize (Hempty He). injection Hempty as ->. apply lookup_empty.
  - intros e He. rewrite (get_action_unfold teleop Ht).
    pose proof (teleoperator_sdk_result JointsAngleGet joints_angle_get teleop) as Hs.
    rewrite He in Hs.
    destruct (RoarmTeleoperator.sdk JointsAngleGet joints_angle_get teleop) as [r teleop'].
    simpl in Hs. subst r. reflexivity.
  - intros angles He Hlen. rewrite (get_action_unfold teleop Ht).
    pose proof (teleoperator_sdk_result JointsAngleGet joints_angle_get teleop) as Hs.
    rewrite He in Hs.
    destruct (RoarmTeleoperator.sdk JointsAngleGet joints_angle_get teleop) as [r teleop'].
    simpl in Hs. subst r.
    apply Nat.ltb_lt in Hlen. rewrite Hlen. reflexivity.
Qed.

(** *** One tick of the teleoperation loop *)

(** What a connected robot reports after a joint read that raised. *)
Lemma observation_after_raising_read (self self' : Roarm.t hw) (obs : gmap string Q) e
    joint_name :
  Roarm.is_connected self = true ->
  Roarm.get_observation pi self = (Return obs, self') ->
  (joints_angle_get (Roarm.robot self)).1 = Raise e ->
  joint_name ∈ RoarmConfig.joint_names (Roarm.config self) ->
  RoarmConfig.has_gripper (Roarm.config self) = false
  \/ pos_key joint_name <> pos_key (RoarmConfig.gripper_name (Roarm.config self)) ->
  obs !! pos_key joint_name = Some 0%Q.
Proof.
  intros Hc Hg He Hin Hgrip. rewrite (get_observation_unfold self Hc) in Hg.
  pose proof (read_joints_raising self e He) as Hraise.
  pose proof (read_joints_keeps_config ∅ self) as Hcfg.
  destruct (Roarm.read_joints pi ∅ self) as [r1 self1]. cbn [fst snd] in Hraise, Hcfg.
  subst r1.
  pose proof (fun obs' => read_gripper_other
                            (Roarm.store_zeros (RoarmConfig.joint_names (Roarm.config self)) ∅)
                            obs' self1 (pos_key joint_name)) as Hother.
  destruct (Roarm.read_gripper pi _ self1) as [[obs2 | e2] self2]; [| discriminate].
  injection Hg as -> _. rewrite <- Hcfg in Hgrip.
  rewrite (Hother obs eq_refl Hgrip), store_zeros_lookup. apply decide_True.
  apply list_elem_of_fmap. exists joint_name. split; [reflexivity | exact Hin].
Qed.

(** C3 (amended).  When the leader's [get_observation] raises, which
    it does only when the leader is not connected, the tick is skipped:
    the follower is left exactly as it was, with no SDK call issued on
    it, and so is the leader.  A joint read that raises does not skip
    the tick: the connected leader's [get_observation] returns an
    observation, which after such a read reports 0 for every joint
    other than a configured gripper, and the tick runs the follower's
    [send_action] on the joint entries of that observation. *)
Theorem tick_skipped_when_observation_raises (w : RoarmTeleop.robots hw) :
  (forall e leader',
      Roarm.get_observation pi (RoarmTeleop.leader w) = (Raise e, leader') ->
      Roarm.is_connected (RoarmTeleop.leader w) = false
      /\ RoarmTeleop.follower (RoarmTeleop.tick pi w) = RoarmTeleop.follower w
      /\ RoarmTeleop.leader (RoarmTeleop.tick pi w) = RoarmTeleop.leader w
      /\ issued (RoarmTeleop.follower w) (RoarmTeleop.follower (RoarmTeleop.tick pi w)) = [])
  /\ (Roarm.is_connected (RoarmTeleop.leader w) = true ->
      exists leader_obs leader',
        Roarm.get_observation pi (RoarmTeleop.leader w) = (Return leader_obs, leader')
        /\ RoarmTeleop.follower (RoarmTeleop.tick pi w)
           = (Roarm.send_action pi (RoarmTeleop.extract_action leader_obs)
                (RoarmTeleop.follower w)).2
        /\ (forall e joint_name,
               (joints_angle_get (Roarm.robot (RoarmTeleop.leader w))).1 = Raise e ->
               joint_name ∈ RoarmConfig.joint_names (Roarm.config (RoarmTeleop.leader w)) ->
               RoarmConfig.has_gripper (Roarm.config (RoarmTeleop.leader w)) = false
               \/ pos_key joint_name
                  <> pos_key (RoarmConfig.gripper_name (Roarm.config (RoarmTeleop.leader w))) ->
               leader_obs !! pos_key joint_name = Some 0%Q)).
Proof.
  split.
  - intros e leader' Hg.
    destruct (get_observation_raises_only_disconnected _ _ _ Hg) as (Hd & _ & ->).
    unfold RoarmTeleop.tick. rewrite Hg. simpl.
    split; [exact Hd |]. split; [reflexivity |]. split; [reflexivity |].
    unfold issued. apply drop_all.
  - intros Hc.
    destruct (get_observation_connected (RoarmTeleop.leader w) Hc) as (obs & extra & R & _).
    pose proof (fun e j => observation_after_raising_read (RoarmTeleop.leader w)
                             (Roarm.get_observation pi (RoarmTeleop.leader w)).2 obs e j Hc)
      as Hzero.
    unfold RoarmTeleop.tick.
    destruct (Roarm.get_observation pi (RoarmTeleop.leader w)) as [r leader'].
    simpl in R. subst r. exists obs, leader'. split; [reflexivity |]. split.
    + destruct (Roarm.send_action pi _ (RoarmTeleop.follower w)) as [r follower']. reflexivity.
    + intros e j. exact (Hzero e j eq_refl).
Qed.
End Adapters.

(** ** Stopping the loop *)

Section ControlLoop.
Import RoarmTeleop.

(** Once the flag is false no step sets it again, no tick begins, and
    the loop thread only moves towards its exit. *)
Lemma step_after_stop e s s' :
  running s = false ->
  step e s = Some s' ->
  running s' = false /\ ticks s' = ticks s
  /\ steps_to_exit (loop s') <= steps_to_exit (loop s).
Proof.
  intros Hr Hs. destruct s as [r l t c]. simpl in Hr. subst r.
  destruct e, l, c; simpl in Hs; try discriminate;
    injection Hs as <-; simpl; repeat split; lia.
Qed.

Lemma run_after_stop schedule s s' :
  running s = false ->
  run schedule s = Some s' ->
  running s' = false /\ ticks s' = ticks s
  /\ steps_to_exit (loop s') <= steps_to_exit (loop s).
Proof.
  revert s. induction schedule as [| e schedule IH]; intros s Hr Hrun; simpl in Hrun.
  - injection Hrun as <-. repeat split; [exact Hr | lia].
  - destruct (step e s) as [s1 |] eqn:Hs; [| discriminate].
    destruct (step_after_stop e s s1 Hr Hs) as (Hr1 & Ht1 & Hl1).
    destruct (IH s1 Hr1 Hrun) as (Hr' & Ht' & Hl').
    repeat split; [exact Hr' | congruence | lia].
Qed.

(** [stop] clears the flag and leaves the loop thread where it is. *)
Lemma step_stop s s' :
  step Stop s = Some s' ->
  running s' = false /\ ticks s' = ticks s /\ loop s' = loop s.
Proof.
  destruct s as [r l t c]. destruct c; simpl; try discriminate.
  intros [= <-]. repeat split.
Qed.

(** With the flag false the loop thread is never blocked, and each of
    its steps brings it one step closer to its exit. *)
Lemma loop_step_towards_exit s :
  running s = false ->
  loop s <> Exited ->
  exists s', step LoopStep s = Some s'
             /\ S (steps_to_exit (loop s')) = steps_to_exit (loop s)
             /\ ticks s' = ticks s /\ running s' = false /\ caller s' = caller s.
Proof.
  intros Hr Hl. destruct s as [r l t c]. simpl in *. subst r.
  destruct l; try contradiction; eexists; (split; [reflexivity |]); simpl; repeat split.
Qed.

Lemma run_loop_to_exit n s :
  running s = false ->
  steps_to_exit (loop s) = n ->
  exists s', run (repeat LoopStep n) s = Some s'
             /\ loop s' = Exited /\ ticks s' = ticks s
             /\ running s' = false /\ caller s' = caller s.
Proof.
  revert s. induction n as [| n IH]; intros s Hr Hn.
  - exists s. simpl. repeat split; try assumption.
    destruct (loop s); simpl in Hn; try discriminate. reflexivity.
  - assert (Hl : loop s <> Exited) by (intros E; rewrite E in Hn; discriminate).
    destruct (loop_step_towards_exit s Hr Hl) as (s1 & Hs & Hm & Ht & Hr1 & Hc).
    destruct (IH s1 Hr1) as (s' & Hrun & Hl' & Ht' & Hr' & Hc'); [lia |].
    exists s'. change (repeat LoopStep (S n)) with (LoopStep :: repeat LoopStep n).
    cbn [run]. rewrite Hs. repeat split; try assumption; congruence.
Qed.

(** A join that returns because the thread ended finds the loop
    exited, and it stays so. *)
Lemma step_joined e s s' :
  (joined s -> loop s = Exited) ->
  step e s = Some s' ->
  joined s' -> loop s' = Exited.
Proof.
  unfold joined. intros Hinv Hs Hj. destruct s as [r l t c].
  destruct e, l, c as [| | [|] | [|]], r; simpl in Hs; try discriminate;
    injection Hs as <-; simpl in *;
    solve [reflexivity | intuition congruence].
Qed.

Lemma run_joined schedule s s' :
  (joined s -> loop s = Exited) ->
  run schedule s = Some s' ->
  joined s' -> loop s' = Exited.
Proof.
  revert s. induction schedule as [| e schedule IH]; intros s Hinv Hrun; simpl in Hrun.
  - injection Hrun as <-. exact Hinv.
  - destruct (step e s) as [s1 |] eqn:Hs; [| discriminate].
    exact (IH s1 (step_joined e s s1 Hinv Hs) Hrun).
Qed.

Lemma run_app l1 l2 s :
  run (l1 ++ l2) s = match run l1 s with
                     | Some s1 => run l2 s1
                     | None => None
                     end.
Proof.
  revert s. induction l1 as [| e l1 IH]; intros s; simpl; [reflexivity |].
  destruct (step e s); [apply IH | reflexivity].
Qed.

(** C8 (amended).  Let [stop] be called while tick N is in flight, and
    let anything the two threads can do follow.  Then no further tick
    begins: the count of ticks begun stays N and the flag stays false.
    The loop thread is never blocked: until it has exited, its next
    step is enabled and brings it one step closer to the exit, which it
    reaches within three steps of its own by finishing the tick,
    pacing, and reading the flag at the head of the loop.  A [join]
    that returned because the thread ended found the loop exited, and
    the orderly schedule, in which the loop thread runs to its end and
    the caller joins it and disconnects, returns control to the caller
    with the loop exited after tick N.  But [join] may also time out:
    in the schedule in which it does so at once, [stop] disconnects and
    returns to the caller with tick N still in flight. *)
Theorem stop_during_tick (s s' : control) (after : list event) :
  in_tick s ->
  run (Stop :: after) s = Some s' ->
  ticks s' = ticks s
  /\ running s' = false
  /\ (loop s' <> Exited ->
      exists s'', step LoopStep s' = Some s''
                  /\ S (steps_to_exit (loop s'')) = steps_to_exit (loop s')
                  /\ ticks s'' = ticks s)
  /\ (steps_to_exit (loop s') <= 3
      /\ exists s_exit, run (repeat LoopStep (steps_to_exit (loop s'))) s' = Some s_exit
                        /\ loop s_exit = Exited /\ ticks s_exit = ticks s)
  /\ (joined s' -> loop s' = Exited)
  /\ (exists s_end, run (orderly_stop s) s = Some s_end
                    /\ caller s_end = Returned true
                    /\ loop s_end = Exited
                    /\ ticks s_end = ticks s)
  /\ (exists s_out, run [Stop; JoinTimesOut; Disconnect] s = Some s_out
                    /\ caller s_out = Returned false
                    /\ in_tick s_out
                    /\ loop s_out = loop s
                    /\ ticks s_out = ticks s).
Proof.
  intros Htick Hrun. cbn [run] in Hrun.
  destruct (step Stop s) as [s1 |] eqn:Hstop; [| discriminate].
  destruct (step_stop s s1 Hstop) as (Hr1 & Ht1 & Hl1).
  destruct (run_after_stop after s1 s' Hr1 Hrun) as (Hr' & Ht' & _).
  assert (Hc1 : caller s1 = Joining).
  { destruct s as [r l t c]. destruct c; simpl in Hstop; try discriminate.
    injection Hstop as <-. reflexivity. }
  split; [congruence |]. split; [exact Hr' |].
  split; [| split; [| split; [| split]]].
  - intros Hne.
    destruct (loop_step_towards_exit s' Hr' Hne) as (s'' & Hs & Hm & Ht & _).
    exists s''. repeat split; [exact Hs | exact Hm | congruence].
  - split; [destruct (loop s'); simpl; lia |].
    destruct (run_loop_to_exit (steps_to_exit (loop s')) s' Hr' eq_refl)
      as (s_exit & Hexit & Hl & Ht & _).
    exists s_exit. repeat split; [exact Hexit | exact Hl | congruence].
  - apply (run_joined after s1 s'); [| exact Hrun].
    unfold joined. rewrite Hc1. intros [E | E]; discriminate.
  - unfold orderly_stop. cbn [run]. rewrite Hstop, run_app.
    destruct (run_loop_to_exit (steps_to_exit (loop s)) s1 Hr1)
      as (s2 & Hrun2 & Hl2 & Ht2 & Hr2 & Hc2); [now rewrite Hl1 |].
    rewrite Hrun2. destruct s2 as [r2 l2 t2 c2]. simpl in *.
    rewrite Hc1 in Hc2. subst l2 c2. simpl.
    eexists. split; [reflexivity |]. simpl. repeat split. congruence.
  - destruct s as [r l t c]. unfold in_tick in *. cbn [loop] in Htick.
    destruct c; simpl in Hstop; try discriminate.
    destruct Htick as [-> | ->]; simpl; eexists; (split; [reflexivity |]);
      simpl; repeat split; auto.
Qed.

Lemma stop_during_tick_witness :
  exists s', run [Stop; LoopStep; LoopStep; JoinTimesOut; LoopStep; Disconnect]
                 {| running := true; loop := InTick; ticks := 1; caller := Active |}
             = Some s'
             /\ ticks s' = 1 /\ running s' = false.
Proof.
  eexists. split; [reflexivity |].
  assert (Htick : in_tick {| running := true; loop := InTick; ticks := 1; caller := Active |})
    by (left; reflexivity).
  destruct (stop_during_tick _ _ [LoopStep; LoopStep; JoinTimesOut; LoopStep; Disconnect]
              Htick eq_refl) as (Ht & Hr & _).
  split; [exact Ht | exact Hr].
Defined.

(** C8 (counterexample).  [stop] is called during tick 1, [join] times
    out, and [stop] disconnects and returns: the caller has control
    back while the loop thread is still inside the tick. *)
Lemma stop_returns_with_tick_in_flight :
  exists s',
    run [Stop; JoinTimesOut; Disconnect]
      {| running := true; loop := InTick; ticks := 1; caller := Active |} = Some s'
    /\ caller s' = Returned false
    /\ loop s' = InTick
    /\ loop s' <> Exited.
Proof.
  eexists. split; [reflexivity |]. simpl. repeat split. discriminate.
Qed.
End ControlLoop.

(** ** Constructing a configuration *)

Section Config.
Import RoarmConfig.
(** [RobotConfig.__post_init__] of the framework. *)
Variable super_post_init : RoarmConfig.t -> result unit.

(** C10.  Constructing a [RoarmConfig] returns only if exactly one of
    [port] and [host] is given.  With both absent, and with both
    given, construction raises; the exception is the ValueError of
    [__post_init__] whenever the framework's own [__post_init__]
    returned. *)
Theorem construct_requires_exactly_one (fields : RoarmConfig.t) :
  (forall c, construct super_post_init fields = Return c ->
             c = fields /\ exactly_one_connection c)
  /\ (port fields = None -> host fields = None ->
      exists e, construct super_post_init fields = Raise e
                /\ (super_post_init fields = Return tt ->
                    e = ValueError
                          "Either 'port' (serial) or 'host' (WiFi) must be specified"))
  /\ (is_Some (port fields) -> is_Some (host fields) ->
      exists e, construct super_post_init fields = Raise e
                /\ (super_post_init fields = Return tt ->
                    e = ValueError
                          "Cannot specify both 'port' and 'host'. Choose one connection method.")).
Proof.
  unfold construct, __post_init__, exactly_one_connection.
  split; [| split].
  - intros c. destruct (super_post_init fields) as [u | e]; [| discriminate].
    destruct (port fields) as [p |] eqn:Hp, (host fields) as [h |] eqn:Hh;
      try discriminate; intros [= <-]; (split; [reflexivity |]); rewrite Hp, Hh.
    + left. split; [eexists; reflexivity | reflexivity].
    + right. split; [reflexivity | eexists; reflexivity].
  - intros -> ->. destruct (super_post_init fields) as [[] | e].
    + eexists. split; [reflexivity | reflexivity].
    + eexists. split; [reflexivity | discriminate].
  - intros [p ->] [h ->]. destruct (super_post_init fields) as [[] | e].
    + eexists. split; [reflexivity | reflexivity].
    + eexists. split; [reflexivity | discriminate].
Qed.
End Config.

(** ** Runs on simulated devices *)

Section Runs.
Local Open Scope Q_scope.

Lemma velocity_limiter_steps_witness :
  exists outs : list Q,
    RoarmActionSafety.feed (RoarmActionSafety.init ["elbow_flex"%string])
      "elbow_flex.pos" [0; 1; 1] = map Some outs
    /\ length outs = 3%nat
    /\ steps_bounded (3 * (1 # 10)) None outs.
Proof.
  assert (Hj : 0 <= 3 * (1 # 10)) by (unfold Qle; simpl; lia).
  assert (Hg : 0 <= 2 * (1 # 10)) by (unfold Qle; simpl; lia).
  assert (Hl : RoarmActionSafety.limited (RoarmActionSafety.init ["elbow_flex"%string])
                 "elbow_flex.pos").
  { left. simpl. apply elem_of_cons. left. reflexivity. }
  destruct (velocity_limiter_steps (RoarmActionSafety.init ["elbow_flex"%string])
              "elbow_flex.pos" [0; 1; 1] Hj Hg Hl) as [(outs & Hf & Hlen & Hb & _) _].
  exists outs. split; [exact Hf |]. split; [exact Hlen | exact Hb].
Defined.

(** On binary64 the scenarios read as follows: the conversion of
    the elbow is exact, and the limiter's outputs are the floats
    nearest to 3.0 * 0.1 and to twice that, each within 1e-15 of 0.3
    and 0.6. *)
#[warnings="-inexact-float"]
Remark binary64_elbow_flex :
  (Binary64.angle_deg (-70) 190 0 = 60
   /\ Binary64.angle_deg (-70) 190 100 = 190
   /\ Binary64.angle_deg (-70) 190 (-100) = -70)%float.
Proof. repeat split. Qed.

#[warnings="-inexact-float"]
Remark binary64_limiter_trace :
  (Binary64.feed 3 0.1 None [0; 1; 1]
   = [0; 0.30000000000000004; 0.6000000000000001])%float
  /\ (abs (0.30000000000000004 - 0.3) <? 1e-15)%float = true
  /\ (abs (0.6000000000000001 - 0.6) <? 1e-15)%float = true.
Proof. repeat split. Qed.

(** C3 (counterexample).  The leader's joint read raises, and the
    tick still commands the follower: [get_observation] reports zeros,
    which [send_action] takes as percentages and dispatches as the
    middle of each joint's range. *)
Lemma tick_writes_after_failed_read :
  (joints_angle_get (Roarm.robot (RoarmTeleop.leader Sim.leader_read_raises))).1
  = Raise SdkError
  /\ exists angles g,
      Roarm.writes (RoarmTeleop.follower (RoarmTeleop.tick Sim.pi Sim.leader_read_raises))
      = [JointsAngleCtrl angles 1000 50; GripperAngleCtrl g 1000 50]
      /\ Forall2 Qeq angles [0; 0; 60; 0; 0; 45].
Proof.
  split; [reflexivity |]. vm_compute. eexists. eexists. split; [reflexivity |].
  repeat (constructor; [reflexivity |]). constructor.
Qed.

Lemma tick_skipped_witness :
  RoarmTeleop.follower (RoarmTeleop.tick Sim.pi Sim.leader_disconnected)
  = RoarmTeleop.follower Sim.leader_disconnected
  /\ issued (RoarmTeleop.follower Sim.leader_disconnected)
       (RoarmTeleop.follower (RoarmTeleop.tick Sim.pi Sim.leader_disconnected)) = [].
Proof.
  assert (Hg : Roarm.get_observation Sim.pi (RoarmTeleop.leader Sim.leader_disconnected)
               = (Raise ConnectionError, RoarmTeleop.leader Sim.leader_disconnected))
    by reflexivity.
  destruct (proj1 (tick_skipped_when_observation_raises Sim.pi Sim.leader_disconnected)
              _ _ Hg) as (_ & Hf & _ & Hi).
  split; [exact Hf | exact Hi].
Defined.



(** What that run dispatches: the percentages 150 and -250 arrive as
    the limits 110 and -110. *)
Lemma dispatched_full_action :
  exists angles g,
    Roarm.writes (Roarm.send_action Sim.pi Sim.full_action Sim.follower_at_rest).2
    = [JointsAngleCtrl angles 1000 50; GripperAngleCtrl g 1000 50]
    /\ Forall2 Qeq angles [0; 110; 60; -110; 95; 911 # 20].
Proof.
  vm_compute. eexists. eexists. split; [reflexivity |].
  repeat (constructor; [reflexivity |]). constructor.
Qed.

(** C7 (counterexample).  A connected teleoperator whose joint read
    yields nothing: [get_action] raises RuntimeError to its caller. *)
Lemma teleoperator_read_failure_raises :
  RoarmTeleoperator._connected (Sim.teleoperator Sim.read_empty) = true
  /\ (joints_angle_get (RoarmTeleoperator.roarm (Sim.teleoperator Sim.read_empty))).1
     = Return []
  /\ (RoarmTeleoperator.get_action (Sim.teleoperator Sim.read_empty)).1
     = Raise (RuntimeError "Failed to read joint angles from teleoperator").
Proof. repeat split. Qed.

(** The zeros a [Roarm] reports after a read that raised are the
    observation of an arm that truly rests at zero. *)
Lemma zero_fill_is_a_reading_of_zero :
  exists failed_obs true_obs,
    (Roarm.get_observation Sim.pi (Sim.connected Sim.read_raises)).1 = Return failed_obs
    /\ (Roarm.get_observation Sim.pi
          (Sim.connected (Sim.at_angles [0; 0; 0; 0; 0; 0] 0))).1 = Return true_obs
    /\ Forall (fun joint_name =>
                 exists a b, failed_obs !! pos_key joint_name = Some a
                             /\ true_obs !! pos_key joint_name = Some b /\ a == b)
              RoarmConfig.default_joint_names.
Proof.
  eexists. eexists. split; [reflexivity |]. split; [reflexivity |].
  repeat (constructor; [eexists; eexists; split; [reflexivity |]; split; reflexivity |]).
  constructor.
Qed.

Lemma read_failure_outcomes_witness :
  (exists obs,
      (Roarm.get_observation Sim.pi (Sim.connected Sim.read_raises)).1 = Return obs)
  /\ (RoarmTeleoperator.get_action (Sim.teleoperator Sim.read_empty)).1
     = Raise (RuntimeError "Failed to read joint angles from teleoperator").
Proof.
  assert (Hc : Roarm.is_connected (Sim.connected Sim.read_raises) = true) by reflexivity.
  assert (Ht : RoarmTeleoperator._connected (Sim.teleoperator Sim.read_empty) = true)
    by reflexivity.
  destruct (read_failure_outcomes Sim.pi (Sim.connected Sim.read_raises)
              (Sim.teleoperator Sim.read_empty) Hc Ht)
    as ((obs & Hobs & _) & _ & Hshort).
  split; [exists obs; exact Hobs |].
  apply (Hshort []); [reflexivity | simpl; lia].
Defined.

(** C9 (failing input).  A connected robot whose joint read yields
    nothing, and an action that leaves a joint out: holding the
    joint looks its key up in an observation that lacks it, and
    [send_action] raises KeyError instead of returning the action. *)
Theorem send_action_held_joint_key_error :
  Roarm.is_connected (Sim.connected Sim.read_empty) = true
  /\ (Roarm.send_action Sim.pi ∅ (Sim.connected Sim.read_empty)).1
     = Raise (KeyError "shoulder_pan.pos")
  /\ Roarm.writes (Roarm.send_action Sim.pi ∅ (Sim.connected Sim.read_empty)).2 = [].
Proof. repeat split. Qed.

(** With every joint key present the input is returned, although the
    device refused both writes and the clamps changed two values. *)
Lemma send_action_returns_despite_refusal :
  (Roarm.send_action Sim.pi Sim.full_action (Sim.connected Sim.write_refused)).1
  = Return Sim.full_action
  /\ length (Roarm.writes
               (Roarm.send_action Sim.pi Sim.full_action
                  (Sim.connected Sim.write_refused)).2) = 2%nat.
Proof.
  split; [| reflexivity].
  apply send_action_full_returns; [reflexivity |].
  repeat (constructor; [eexists; reflexivity |]). constructor.
Qed.

Lemma construct_requires_exactly_one_witness :
  RoarmConfig.construct (fun _ => Return tt) (RoarmConfig.defaults None None)
  = Raise (ValueError "Either 'port' (serial) or 'host' (WiFi) must be specified")
  /\ exactly_one_connection Sim.serial_config.
Proof.
  destruct (construct_requires_exactly_one (fun _ => Return tt)
              (RoarmConfig.defaults None None)) as (_ & Hnone & _).
  destruct (Hnone eq_refl eq_refl) as (e & He & Hmsg).
  split; [rewrite He, (Hmsg eq_refl); reflexivity |].
  destruct (construct_requires_exactly_one (fun _ => Return tt) Sim.serial_config)
    as (Hok & _).
  exact (proj2 (Hok Sim.serial_config eq_refl)).
Defined.
End Runs.

(** * Part III: further properties of the code *)

(** ** Conversion in both directions *)

Section ConversionBothWays.
Local Open Scope Q_scope.

Lemma clip_monotone a b lo hi : a <= b -> Np.clip a lo hi <= Np.clip b lo hi.
Proof.
  intros Hab. unfold Np.clip.
  apply Q.min_le_compat_l. apply Q.max_le_compat_r. exact Hab.
Qed.

(** The affine part of [get_action], before its clamp. *)
Lemma percentage_affine_sign min_deg max_deg a :
  min_deg < max_deg ->
  let p := (a - min_deg) / (max_deg - min_deg) * 200 - 100 in
  (a <= min_deg -> p <= -100) /\ (max_deg <= a -> 100 <= p)
  /\ (min_deg <= a <= max_deg -> -100 <= p <= 100)
  /\ native_of min_deg max_deg p == a.
Proof.
  intros Hlt p.
  set (u := (a - min_deg) / (max_deg - min_deg)).
  assert (Hu : u * (max_deg - min_deg) == a - min_deg).
  { unfold u. field. intros Hz. lra. }
  assert (Hp : p == u * 200 - 100) by reflexivity.
  assert (Hd : 0 < max_deg - min_deg) by lra.
  split; [| split; [| split]].
  - intros Ha. assert (Hneg : u <= 0).
    { apply Qnot_lt_le. intros Hc.
      assert (0 < u * (max_deg - min_deg)) by nra. lra. }
    lra.
  - intros Ha. assert (Hone : 1 <= u).
    { apply Qnot_lt_le. intros Hc.
      assert ((1 - u) * (max_deg - min_deg) > 0) by nra. lra. }
    lra.
  - intros [Ha1 Ha2]. assert (Hlo : 0 <= u).
    { apply Qnot_lt_le. intros Hc.
      assert (u * (max_deg - min_deg) < 0) by nra. lra. }
    assert (Hhi : u <= 1).
    { apply Qnot_lt_le. intros Hc.
      assert ((u - 1) * (max_deg - min_deg) > 0) by nra. lra. }
    lra.
  - unfold native_of. rewrite Hp. unfold u. field. intros Hz. lra.
Qed.

Lemma angle_of_percentage min_deg max_deg a :
  min_deg < max_deg ->
  UnitConverter.angle_deg min_deg max_deg (UnitConverter.percentage min_deg max_deg a)
  == Np.clip a min_deg max_deg.
Proof.
  intros Hlt.
  assert (Hle : min_deg <= max_deg) by lra.
  destruct (percentage_affine_sign min_deg max_deg a Hlt) as (Hlow & Hhigh & Hmid & Hnat).
  destruct (native_of_ends min_deg max_deg) as [E1 E2].
  rewrite angle_deg_native_of.
  unfold UnitConverter.percentage. cbv zeta.
  set (p := (a - min_deg) / (max_deg - min_deg) * 200 - 100) in *.
  assert (Hcc : Np.clip (Np.clip p (-100) 100) (-100) 100 == Np.clip p (-100) 100).
  { apply clip_id. apply clip_bounds. lra. }
  rewrite Hcc.
  destruct (Qlt_le_dec a min_deg) as [Hl | Hl].
  - rewrite (clip_below p (-100) 100) by (try lra; apply Hlow; lra).
    rewrite (clip_below a min_deg max_deg) by lra. exact E1.
  - destruct (Qlt_le_dec max_deg a) as [Hh | Hh].
    + rewrite (clip_above p (-100) 100) by (try lra; apply Hhigh; lra).
      rewrite (clip_above a min_deg max_deg) by lra. exact E2.
    + rewrite (clip_id p (-100) 100) by (apply Hmid; split; assumption).
      rewrite (clip_id a min_deg max_deg) by (split; assumption). exact Hnat.
Qed.

(** X1.  The leader's conversion followed by the follower's: an angle
    read in degrees, sent as a percentage and converted back, arrives
    as the angle itself clamped into the joint's limits. *)
Theorem mirrored_angle_is_clamped (min_deg max_deg angle : Q) :
  min_deg < max_deg ->
  UnitConverter.angle_deg min_deg max_deg
    (UnitConverter.percentage min_deg max_deg angle)
  == Np.clip angle min_deg max_deg.
Proof. exact (angle_of_percentage min_deg max_deg angle). Qed.

Lemma mirrored_angle_is_clamped_witness :
  UnitConverter.angle_deg (-70) 190 (UnitConverter.percentage (-70) 190 250) == 190.
Proof.
  assert (Hlt : -70 < 190) by reflexivity.
  rewrite (mirrored_angle_is_clamped (-70) 190 250 Hlt). reflexivity.
Defined.

(** X2.  The follower's conversion preserves order: a larger
    percentage never gives a smaller angle, whatever the limits
    [min_deg <= max_deg]; so does the leader's, for [min_deg < max_deg]. *)
Theorem conversions_are_monotone (min_deg max_deg x y : Q) :
  x <= y ->
  (min_deg <= max_deg ->
   UnitConverter.angle_deg min_deg max_deg x <= UnitConverter.angle_deg min_deg max_deg y)
  /\ (min_deg < max_deg ->
      UnitConverter.percentage min_deg max_deg x
      <= UnitConverter.percentage min_deg max_deg y).
Proof.
  intros Hxy. split.
  - intros Hm. rewrite !angle_deg_native_of.
    apply native_of_monotone; [exact Hm | now apply clip_monotone].
  - intros Hlt. unfold UnitConverter.percentage. cbv zeta. apply clip_monotone.
    assert (Hd : 0 < max_deg - min_deg) by lra.
    assert (E : (y - min_deg) / (max_deg - min_deg) * 200 - 100
                - ((x - min_deg) / (max_deg - min_deg) * 200 - 100)
                == (y - x) * (200 / (max_deg - min_deg))).
    { field. intros Hz. lra. }
    assert (Hpos : 0 < 200 / (max_deg - min_deg)).
    { apply Qlt_shift_div_l; lra. }
    assert (0 <= (y - x) * (200 / (max_deg - min_deg))) by (apply Qmult_le_0_compat; lra).
    lra.
Qed.

Lemma conversions_are_monotone_witness :
  UnitConverter.angle_deg (-70) 190 10 <= UnitConverter.angle_deg (-70) 190 150.
Proof.
  assert (Hxy : 10 <= 150) by (unfold Qle; simpl; lia).
  assert (Hm : -70 <= 190) by (unfold Qle; simpl; lia).
  exact (proj1 (conversions_are_monotone (-70) 190 10 150 Hxy) Hm).
Defined.
End ConversionBothWays.

(** ** The leader's action and the follower's dispatch *)

Section TeleopAdapter.
Context {hw : Type} `{RoarmSDK hw}.
Variable pi : Q.
Local Open Scope Q_scope.

Lemma fill_action_six a1 a2 a3 a4 a5 a6 rest :
  RoarmTeleoperator.fill_action RoarmTeleoperator.joint_names
    (a1 :: a2 :: a3 :: a4 :: a5 :: a6 :: rest) ∅
  = Return (<[pos_key "gripper" := UnitConverter.percentage (-10) 100 a6]>
           (<[pos_key "wrist_roll" := UnitConverter.percentage (-190) 190 a5]>
           (<[pos_key "wrist_flex" := UnitConverter.percentage (-110) 110 a4]>
           (<[pos_key "elbow_flex" := UnitConverter.percentage (-70) 190 a3]>
           (<[pos_key "shoulder_lift" := UnitConverter.percentage (-110) 110 a2]>
           (<[pos_key "shoulder_pan" := UnitConverter.percentage (-190) 190 a1]> ∅)))))).
Proof. reflexivity. Qed.

Lemma get_action_six (teleop : RoarmTeleoperator.t hw) a1 a2 a3 a4 a5 a6 rest :
  RoarmTeleoperator._connected teleop = true ->
  (joints_angle_get (RoarmTeleoperator.roarm teleop)).1
  = Return (a1 :: a2 :: a3 :: a4 :: a5 :: a6 :: rest) ->
  (RoarmTeleoperator.get_action teleop).1
  = RoarmTeleoperator.fill_action RoarmTeleoperator.joint_names
      (a1 :: a2 :: a3 :: a4 :: a5 :: a6 :: rest) ∅.
Proof.
  intros Hc Hr. rewrite (get_action_unfold teleop Hc).
  pose proof (teleoperator_sdk_result JointsAngleGet joints_angle_get teleop) as Hs.
  rewrite Hr in Hs.
  destruct (RoarmTeleoperator.sdk JointsAngleGet joints_angle_get teleop) as [r teleop'].
  simpl in Hs. subst r. reflexivity.
Qed.

Lemma percentage_bounds min_deg max_deg a :
  -100 <= UnitConverter.percentage min_deg max_deg a <= 100.
Proof. unfold UnitConverter.percentage. apply clip_bounds. lra. Qed.

(** X3.  A connected teleoperator whose read returns at least six
    angles: [get_action] returns an action whose keys are exactly the
    six joint keys, whose value for the i-th joint is the percentage of
    the i-th angle within that joint's limits, and all of whose values
    lie in [-100, 100]; angles past the sixth are ignored. *)
Theorem get_action_percentages (teleop : RoarmTeleoperator.t hw) (angles : list Q) :
  RoarmTeleoperator._connected teleop = true ->
  (joints_angle_get (RoarmTeleoperator.roarm teleop)).1 = Return angles ->
  (6 <= length angles)%nat ->
  exists action,
    (RoarmTeleoperator.get_action teleop).1 = Return action
    /\ dom action = list_to_set (map pos_key RoarmTeleoperator.joint_names)
    /\ (forall i joint_name a min_deg max_deg,
          RoarmTeleoperator.joint_names !! i = Some joint_name ->
          angles !! i = Some a ->
          RoarmTeleoperator.joint_limits !! joint_name = Some (min_deg, max_deg) ->
          action !! pos_key joint_name
          = Some (UnitConverter.percentage min_deg max_deg a))
    /\ (forall key value, action !! key = Some value -> -100 <= value <= 100).
Proof.
  intros Hc Hr Hlen.
  destruct angles as [| a1 [| a2 [| a3 [| a4 [| a5 [| a6 rest]]]]]];
    simpl in Hlen; try lia.
  eexists. split; [rewrite (get_action_six teleop _ _ _ _ _ _ _ Hc Hr);
                   apply fill_action_six |].
  split; [| split].
  - rewrite !dom_insert_L, dom_empty_L. simpl. set_solver.
  - intros i j a mn mx Hj Ha Hl.
    destruct i as [| [| [| [| [| [| i]]]]]]; simpl in Hj, Ha;
      try discriminate; injection Hj as <-; injection Ha as <-;
      vm_compute in Hl; injection Hl as <- <-;
      repeat (first [apply lookup_insert_eq | rewrite lookup_insert_ne by discriminate]).
  - intros key value Hl.
    repeat (apply lookup_insert_Some in Hl as [[_ <-] | [_ Hl]];
            [apply percentage_bounds |]).
    rewrite lookup_empty in Hl. discriminate.
Qed.

End TeleopAdapter.

Lemma get_action_percentages_witness :
  exists action,
    (RoarmTeleoperator.get_action
       (Sim.teleoperator (Sim.at_angles [10; 20; 30; 40; 50; 60; 70]%Q 0%Q))).1
    = Return action
    /\ forall key value, action !! key = Some value -> (-100 <= value <= 100)%Q.
Proof.
  assert (Hc : RoarmTeleoperator._connected
                 (Sim.teleoperator (Sim.at_angles [10; 20; 30; 40; 50; 60; 70]%Q 0%Q)) = true)
    by reflexivity.
  assert (Hr : (joints_angle_get
                  (RoarmTeleoperator.roarm
                     (Sim.teleoperator (Sim.at_angles [10; 20; 30; 40; 50; 60; 70]%Q 0%Q)))).1
               = Return [10; 20; 30; 40; 50; 60; 70]%Q) by reflexivity.
  assert (Hlen : 6 <= length [10; 20; 30; 40; 50; 60; 70]%Q) by (simpl; lia).
  destruct (get_action_percentages _ _ Hc Hr Hlen) as (action & Hget & _ & _ & Hb).
  exists action. split; [exact Hget | exact Hb].
Defined.

(** ** What [send_action] dispatches *)

Section Dispatch.
Context {hw : Type} `{RoarmSDK hw}.
Variable pi : Q.
Local Open Scope Q_scope.

Lemma build_angles_deg_full_values (joint_names : list string) (action : gmap string Q)
    (self : Roarm.t hw) :
  Forall (fun joint_name => is_Some (action !! pos_key joint_name)) joint_names ->
  exists angles_deg,
    Roarm.build_angles_deg pi joint_names action self = (Return angles_deg, self)
    /\ Forall2 (fun joint_name angle =>
                 exists value, action !! pos_key joint_name = Some value
                               /\ angle = joint_target (Roarm.config self) joint_name value)
               joint_names angles_deg.
Proof.
  induction 1 as [| j names [value Hj] _ (angles & IH & IHv)].
  - exists []. split; [reflexivity | constructor].
  - exists (joint_target (Roarm.config self) j value :: angles).
    rewrite build_angles_deg_cons. unfold Roarm.joint_angle. rewrite Hj.
    unfold bind, get, joint_target.
    destruct (RoarmConfig.joint_limits_deg (Roarm.config self) !! j) as [[mn mx] |] eqn:Hl;
      simpl; rewrite IH; (split; [reflexivity |]);
      (constructor; [| exact IHv]); exists value;
      (split; [exact Hj |]); unfold joint_target; rewrite Hl; reflexivity.
Qed.

Lemma send_action_without_reads (action : gmap string Q) (self : Roarm.t hw) angles_deg :
  Roarm.is_connected self = true ->
  Roarm.build_angles_deg pi (RoarmConfig.joint_names (Roarm.config self)) action self
  = (Return angles_deg, self) ->
  (Roarm.send_action pi action self).1 = Return action
  /\ extends self (Roarm.send_action pi action self).2
       (JointsAngleCtrl angles_deg (RoarmConfig.default_speed (Roarm.config self))
          (RoarmConfig.default_acc (Roarm.config self))
        :: gripper_calls pi (Roarm.config self) action).
Proof.
  intros Hc Hb. rewrite (send_action_unfold pi action self Hc), Hb.
  destruct (send_joints_spec angles_deg self) as [R1 E1].
  destruct (Roarm.send_joints angles_deg self) as [r1 self2]. simpl in R1, E1. subst r1.
  destruct (send_gripper_spec pi action self2) as [R2 E2].
  destruct (Roarm.send_gripper pi action self2) as [r2 self3]. simpl in R2, E2. subst r2.
  simpl. split; [reflexivity |].
  pose proof E1 as (C1 & _). rewrite C1 in E2.
  exact (extends_trans _ _ _ _ _ E1 E2).
Qed.

(** X4.  On a connected robot, an action that carries every joint
    key is dispatched without reading the device: [send_action]
    returns the action, and the calls it issues are one joint command,
    whose i-th angle is the conversion of the i-th joint's value, then
    the gripper command if the robot has a gripper and the action
    carries its key; configuration and connection flag are unchanged. *)
Theorem send_action_full_dispatch (self : Roarm.t hw) (action : gmap string Q) :
  Roarm.is_connected self = true ->
  Forall (fun joint_name => is_Some (action !! pos_key joint_name))
         (RoarmConfig.joint_names (Roarm.config self)) ->
  exists angles_deg,
    (Roarm.send_action pi action self).1 = Return action
    /\ issued self (Roarm.send_action pi action self).2
       = JointsAngleCtrl angles_deg (RoarmConfig.default_speed (Roarm.config self))
           (RoarmConfig.default_acc (Roarm.config self))
         :: gripper_calls pi (Roarm.config self) action
    /\ Forall2 (fun joint_name angle =>
                 exists value, action !! pos_key joint_name = Some value
                               /\ angle = joint_target (Roarm.config self) joint_name value)
               (RoarmConfig.joint_names (Roarm.config self)) angles_deg
    /\ Roarm.config (Roarm.send_action pi action self).2 = Roarm.config self
    /\ Roarm.is_connected (Roarm.send_action pi action self).2 = true.
Proof.
  intros Hc Hfull.
  destruct (build_angles_deg_full_values _ action self Hfull) as (angles & Hb & Hv).
  destruct (send_action_without_reads action self angles Hc Hb) as [R E].
  exists angles. split; [exact R |]. split; [exact (extends_issued _ _ _ E) |].
  split; [exact Hv |]. destruct E as (C & I & _). split; [exact C |].
  unfold Roarm.is_connected in *. congruence.
Qed.

(** X5.  The designed pairing, for a follower with the default joint
    names and limits: when a connected teleoperator reads the angles
    [a1 .. a6] (and possibly more), the action [get_action] returns,
    passed to the follower's [send_action], is returned by it, and the
    one joint command issued carries each read angle clamped into its
    joint's limits.  The leader's pose is mirrored up to the limits. *)
Theorem teleoperator_action_mirrors_angles
    (teleop : RoarmTeleoperator.t hw) (follower : Roarm.t hw) a1 a2 a3 a4 a5 a6 rest :
  RoarmTeleoperator._connected teleop = true ->
  (joints_angle_get (RoarmTeleoperator.roarm teleop)).1
  = Return (a1 :: a2 :: a3 :: a4 :: a5 :: a6 :: rest) ->
  Roarm.is_connected follower = true ->
  RoarmConfig.joint_names (Roarm.config follower) = RoarmConfig.default_joint_names ->
  RoarmConfig.joint_limits_deg (Roarm.config follower) = RoarmConfig.default_joint_limits_deg ->
  exists action angles_deg,
    (RoarmTeleoperator.get_action teleop).1 = Return action
    /\ (Roarm.send_action pi action follower).1 = Return action
    /\ issued follower (Roarm.send_action pi action follower).2
       = JointsAngleCtrl angles_deg (RoarmConfig.default_speed (Roarm.config follower))
           (RoarmConfig.default_acc (Roarm.config follower))
         :: gripper_calls pi (Roarm.config follower) action
    /\ Forall2 Qeq angles_deg
         [Np.clip a1 (-190) 190; Np.clip a2 (-110) 110; Np.clip a3 (-70) 190;
          Np.clip a4 (-110) 110; Np.clip a5 (-190) 190; Np.clip a6 (-10) 100].
Proof.
  intros Ht Hr Hc Hn Hl.
  pose proof (get_action_six teleop a1 a2 a3 a4 a5 a6 rest Ht Hr) as Hget.
  rewrite fill_action_six in Hget.
  match type of Hget with _ = Return ?a => remember a as action eqn:Ha end.
  exists action.
  assert (Hfull : Forall (fun joint_name => is_Some (action !! pos_key joint_name))
                         (RoarmConfig.joint_names (Roarm.config follower))).
  { rewrite Hn, Ha. unfold RoarmConfig.default_joint_names.
    repeat (constructor;
            [repeat (first [rewrite lookup_insert_eq; eexists; reflexivity
                           | rewrite lookup_insert_ne by discriminate]) |]).
    constructor. }
  destruct (send_action_full_dispatch follower _ Hc Hfull) as (angles & R & I & Hv & _).
  exists angles. split; [exact Hget |]. split; [exact R |]. split; [exact I |].
  rewrite Hn in Hv. unfold RoarmConfig.default_joint_names in Hv.
  repeat match type of Hv with
         | Forall2 _ (_ :: _) _ => apply Forall2_cons_inv_l in Hv as (? & ? & ? & Hv & ->)
         | Forall2 _ [] _ => apply Forall2_nil_inv_l in Hv as ->
         end.
  repeat match goal with
         | Hx : exists value, _ /\ _ |- _ =>
             let v := fresh "v" in let Hlk := fresh "Hlk" in
             destruct Hx as (v & Hlk & ->); rewrite Ha in Hlk;
             repeat (rewrite lookup_insert_ne in Hlk by discriminate);
             rewrite lookup_insert_eq in Hlk; injection Hlk as <-
         end.
  unfold joint_target. rewrite Hl.
  repeat (constructor; [apply angle_of_percentage; reflexivity |]).
  constructor.
Qed.
End Dispatch.

Lemma send_action_full_dispatch_witness :
  exists angles_deg,
    (Roarm.send_action Sim.pi Sim.full_action (Sim.connected Sim.write_refused)).1
    = Return Sim.full_action
    /\ issued (Sim.connected Sim.write_refused)
         (Roarm.send_action Sim.pi Sim.full_action (Sim.connected Sim.write_refused)).2
       = JointsAngleCtrl angles_deg 1000 50
         :: gripper_calls Sim.pi Sim.serial_config Sim.full_action.
Proof.
  assert (Hc : Roarm.is_connected (Sim.connected Sim.write_refused) = true) by reflexivity.
  assert (Hfull : Forall (fun joint_name => is_Some (Sim.full_action !! pos_key joint_name))
                    (RoarmConfig.joint_names (Roarm.config (Sim.connected Sim.write_refused)))).
  { repeat (constructor; [eexists; reflexivity |]). constructor. }
  destruct (send_action_full_dispatch Sim.pi (Sim.connected Sim.write_refused)
              Sim.full_action Hc Hfull) as (angles & R & I & _).
  exists angles. split; [exact R | exact I].
Defined.

Lemma teleoperator_action_mirrors_angles_witness :
  exists action angles_deg,
    (RoarmTeleoperator.get_action
       (Sim.teleoperator (Sim.at_angles [200; 20; 30; 40; 50; -60]%Q 0%Q))).1 = Return action
    /\ (Roarm.send_action Sim.pi action Sim.follower_at_rest).1 = Return action
    /\ Forall2 Qeq angles_deg
         [Np.clip 200 (-190) 190; Np.clip 20 (-110) 110; Np.clip 30 (-70) 190;
          Np.clip 40 (-110) 110; Np.clip 50 (-190) 190; Np.clip (-60) (-10) 100]%Q.
Proof.
  assert (Ht : RoarmTeleoperator._connected
                 (Sim.teleoperator (Sim.at_angles [200; 20; 30; 40; 50; -60]%Q 0%Q)) = true)
    by reflexivity.
  assert (Hr : (joints_angle_get
                  (RoarmTeleoperator.roarm
                     (Sim.teleoperator (Sim.at_angles [200; 20; 30; 40; 50; -60]%Q 0%Q)))).1
               = Return [200; 20; 30; 40; 50; -60]%Q) by reflexivity.
  assert (Hc : Roarm.is_connected Sim.follower_at_rest = true) by reflexivity.
  destruct (teleoperator_action_mirrors_angles Sim.pi _ Sim.follower_at_rest
              _ _ _ _ _ _ _ Ht Hr Hc eq_refl eq_refl)
    as (action & angles & Hget & Hsend & _ & Hv).
  exists action, angles. split; [exact Hget |]. split; [exact Hsend | exact Hv].
Defined.

(** ** What [get_observation] reports *)

Section Keys.

Lemma list_ascii_of_string_app s1 s2 :
  String.list_ascii_of_string (s1 +:+ s2) = String.list_ascii_of_string s1 ++ String.list_ascii_of_string s2.
Proof. induction s1 as [| c s1 IH]; simpl; [reflexivity | now rewrite IH]. Qed.

Lemma pos_key_inj j1 j2 : pos_key j1 = pos_key j2 -> j1 = j2.
Proof.
  unfold pos_key. intros Heq.
  apply (f_equal String.list_ascii_of_string) in Heq.
  rewrite !list_ascii_of_string_app in Heq.
  apply app_inv_tail in Heq.
  rewrite <- (String.string_of_list_ascii_of_string j1), <- (String.string_of_list_ascii_of_string j2).
  now rewrite Heq.
Qed.

Lemma pos_key_elem j names : pos_key j ∈ map pos_key names <-> j ∈ names.
Proof.
  split.
  - intros Hin. apply list_elem_of_fmap in Hin as (j' & Heq & Hin).
    apply pos_key_inj in Heq. now subst.
  - intros Hin. apply list_elem_of_fmap. now exists j.
Qed.
End Keys.

Section Observation.
Context {hw : Type} `{RoarmSDK hw}.
Variable pi : Q.

Lemma store_angles_other names angles (d : gmap string Q) k :
  k ∉ map pos_key names -> (Roarm.store_angles pi names angles d).2 !! k = d !! k.
Proof.
  revert angles d. induction names as [| j names IH]; intros angles d Hk; [reflexivity |].
  simpl in Hk. apply not_elem_of_cons in Hk as [Hne Hk].
  destruct angles as [| a angles]; simpl; [reflexivity |].
  rewrite (IH angles _ Hk). now apply lookup_insert_ne.
Qed.

Lemma store_angles_outcome names angles (d : gmap string Q) :
  (Roarm.store_angles pi names angles d).1
  = if (length angles <? length names)%nat then Raise IndexError else Return tt.
Proof.
  revert angles d. induction names as [| j names IH]; intros angles d.
  - simpl. destruct angles; reflexivity.
  - destruct angles as [| a angles]; [reflexivity |]. simpl Roarm.store_angles.
    rewrite IH. reflexivity.
Qed.

Lemma store_angles_dom names angles (d : gmap string Q) :
  (length names <= length angles)%nat ->
  dom (Roarm.store_angles pi names angles d).2 = dom d ∪ list_to_set (map pos_key names).
Proof.
  revert angles d. induction names as [| j names IH]; intros angles d Hlen.
  - simpl. now rewrite union_empty_r_L.
  - destruct angles as [| a angles]; simpl in Hlen; [lia |]. simpl Roarm.store_angles.
    rewrite IH by lia. rewrite dom_insert_L. simpl.
    rewrite (union_comm_L {[pos_key j]} (dom d)). now rewrite union_assoc_L.
Qed.

Lemma store_angles_dom_sub names angles (d : gmap string Q) :
  dom (Roarm.store_angles pi names angles d).2 ⊆ dom d ∪ list_to_set (map pos_key names).
Proof.
  revert angles d. induction names as [| j names IH]; intros angles d.
  - simpl. now rewrite union_empty_r_L.
  - destruct angles as [| a angles]; simpl.
    + apply union_subseteq_l.
    + etrans; [apply IH |]. rewrite dom_insert_L.
      rewrite (union_comm_L {[pos_key j]} (dom d)). now rewrite union_assoc_L.
Qed.

Lemma store_angles_lookup names angles (d : gmap string Q) i j a :
  NoDup names -> names !! i = Some j -> angles !! i = Some a ->
  (Roarm.store_angles pi names angles d).2 !! pos_key j = Some (Np.deg2rad pi a).
Proof.
  revert angles d i. induction names as [| j0 names IH]; intros angles d i Hnd Hj Ha.
  - destruct i; discriminate.
  - apply NoDup_cons in Hnd as [Hnot Hnd].
    destruct angles as [| a0 angles]; [destruct i; discriminate |].
    simpl Roarm.store_angles. destruct i as [| i]; simpl in Hj, Ha.
    + injection Hj as ->. injection Ha as ->.
      rewrite store_angles_other; [apply lookup_insert_eq |].
      intros Hin. apply (proj1 (pos_key_elem _ _)) in Hin. contradiction.
    + exact (IH angles _ i Hnd Hj Ha).
Qed.

Lemma store_zeros_dom names (d : gmap string Q) :
  dom (Roarm.store_zeros names d) = dom d ∪ list_to_set (map pos_key names).
Proof.
  unfold Roarm.store_zeros. revert d.
  induction names as [| j names IH]; intros d; simpl; [now rewrite union_empty_r_L |].
  rewrite IH, dom_insert_L.
  rewrite (union_comm_L {[pos_key j]} (dom d)). now rewrite union_assoc_L.
Qed.

Lemma read_joints_value (d : gmap string Q) (self : Roarm.t hw) :
  (Roarm.read_joints pi d self).1
  = Return (joints_reading pi (RoarmConfig.joint_names (Roarm.config self))
              (joints_angle_get (Roarm.robot self)).1 d)
  /\ Roarm.robot (Roarm.read_joints pi d self).2 = (joints_angle_get (Roarm.robot self)).2
  /\ Roarm.config (Roarm.read_joints pi d self).2 = Roarm.config self.
Proof.
  unfold Roarm.read_joints, Roarm.sdk, joints_reading.
  destruct (joints_angle_get (Roarm.robot self)) as [[angles | e] d1]; simpl.
  - destruct angles as [| a angles]; [repeat split |].
    destruct (Roarm.store_angles pi _ (a :: angles) d) as [[u | e] d']; repeat split.
  - repeat split.
Qed.

Lemma read_gripper_value (d : gmap string Q) (self : Roarm.t hw) :
  (Roarm.read_gripper pi d self).1
  = Return (if RoarmConfig.has_gripper (Roarm.config self)
            then <[pos_key (RoarmConfig.gripper_name (Roarm.config self))
                   := gripper_reading pi (gripper_angle_get (Roarm.robot self)).1]> d
            else d).
Proof.
  unfold Roarm.read_gripper, Roarm.sdk, gripper_reading.
  destruct (RoarmConfig.has_gripper (Roarm.config self)); [| reflexivity].
  destruct (gripper_angle_get (Roarm.robot self)) as [[[g |] | e] d1]; reflexivity.
Qed.

(** The observation of a connected robot, in closed form. *)
Lemma get_observation_value (self : Roarm.t hw) :
  Roarm.is_connected self = true ->
  (Roarm.get_observation pi self).1
  = Return
      (let obs_dict :=
         joints_reading pi (RoarmConfig.joint_names (Roarm.config self))
           (joints_angle_get (Roarm.robot self)).1 ∅ in
       if RoarmConfig.has_gripper (Roarm.config self)
       then <[pos_key (RoarmConfig.gripper_name (Roarm.config self))
              := gripper_reading pi
                   (gripper_angle_get (joints_angle_get (Roarm.robot self)).2).1]> obs_dict
       else obs_dict).
Proof.
  intros Hc. rewrite (get_observation_unfold pi self Hc).
  destruct (read_joints_value ∅ self) as (R1 & Hrobot & Hcfg).
  destruct (Roarm.read_joints pi ∅ self) as [r1 self1]. simpl in R1, Hrobot, Hcfg. subst r1.
  pose proof (read_gripper_value
                (joints_reading pi (RoarmConfig.joint_names (Roarm.config self))
                   (joints_angle_get (Roarm.robot self)).1 ∅) self1) as R2.
  destruct (Roarm.read_gripper pi _ self1) as [r2 self2]. simpl in R2. subst r2.
  rewrite Hcfg, Hrobot. reflexivity.
Qed.

Lemma joints_reading_dom names outcome :
  outcome <> Return [] ->
  dom (joints_reading pi names outcome ∅) = list_to_set (map pos_key names).
Proof.
  intros Hne. unfold joints_reading.
  destruct outcome as [[| a angles] | e]; [congruence | |].
  - pose proof (store_angles_outcome names (a :: angles) ∅) as Ho.
    pose proof (store_angles_dom names (a :: angles) ∅) as Hd.
    pose proof (store_angles_dom_sub names (a :: angles) ∅) as Hs.
    destruct (Roarm.store_angles pi names (a :: angles) ∅) as [[u | e] d'];
      cbn [fst snd] in Ho, Hd, Hs |- *.
    + destruct (length (a :: angles) <? length names)%nat eqn:Hlt; [discriminate |].
      apply Nat.ltb_ge in Hlt. rewrite Hd by exact Hlt.
      now rewrite dom_empty_L, union_empty_l_L.
    + rewrite store_zeros_dom. rewrite dom_empty_L, union_empty_l_L in Hs.
      apply subseteq_union_1_L. exact Hs.
  - rewrite store_zeros_dom. now rewrite dom_empty_L, union_empty_l_L.
Qed.
Lemma lookup_beside_gripper (config : RoarmConfig.t) joint_name g (d : gmap string Q) :
  not_the_gripper config joint_name ->
  (if RoarmConfig.has_gripper config
   then <[pos_key (RoarmConfig.gripper_name config) := g]> d else d) !! pos_key joint_name
  = d !! pos_key joint_name.
Proof.
  intros [Hg | Hne].
  - rewrite Hg. reflexivity.
  - destruct (RoarmConfig.has_gripper config); [| reflexivity].
    apply lookup_insert_ne. congruence.
Qed.

Lemma motors_ft_dom (config : RoarmConfig.t) :
  dom (RoarmFeatures._motors_ft config)
  = list_to_set (map pos_key (RoarmConfig.joint_names config))
    ∪ (if RoarmConfig.has_gripper config
       then {[pos_key (RoarmConfig.gripper_name config)]} else ∅).
Proof.
  unfold RoarmFeatures._motors_ft.
  assert (Hfold : forall names (d : gmap string py_type),
             dom (foldl (fun features joint_name => <[pos_key joint_name := py_float]> features)
                        d names)
             = dom d ∪ list_to_set (map pos_key names)).
  { induction names as [| j names IH]; intros d; simpl; [now rewrite union_empty_r_L |].
    rewrite IH, dom_insert_L.
    rewrite (union_comm_L {[pos_key j]} (dom d)). now rewrite union_assoc_L. }
  destruct (RoarmConfig.has_gripper config).
  - rewrite dom_insert_L, Hfold, dom_empty_L, union_empty_l_L. apply union_comm_L.
  - rewrite Hfold, dom_empty_L, union_empty_l_L. now rewrite union_empty_r_L.
Qed.

Lemma get_observation_dom (self : Roarm.t hw) :
  Roarm.is_connected self = true ->
  (joints_angle_get (Roarm.robot self)).1 <> Return [] ->
  exists obs, (Roarm.get_observation pi self).1 = Return obs
              /\ dom obs = dom (RoarmFeatures._motors_ft (Roarm.config self)).
Proof.
  intros Hc Hne. eexists. split; [apply (get_observation_value self Hc) |].
  cbv zeta. rewrite motors_ft_dom.
  destruct (RoarmConfig.has_gripper (Roarm.config self)).
  - rewrite dom_insert_L, (joints_reading_dom _ _ Hne). apply union_comm_L.
  - rewrite (joints_reading_dom _ _ Hne). now rewrite union_empty_r_L.
Qed.

(** X6.  The observation of a connected robot carries exactly the
    declared motor features, unless the joint read came back empty:
    whether the read returned enough angles, too few, or raised, the
    keys of the observation are those of [observation_features]. *)
Theorem observation_matches_features (self : Roarm.t hw) :
  Roarm.is_connected self = true ->
  (joints_angle_get (Roarm.robot self)).1 <> Return [] ->
  exists obs,
    (Roarm.get_observation pi self).1 = Return obs
    /\ dom obs = dom (RoarmFeatures.observation_features (Roarm.config self)).
Proof. exact (get_observation_dom self). Qed.

(** X7.  A read that returns some angles, but fewer than the robot
    has joints, yields zero for every joint other than the gripper:
    the angles that were read are discarded with the rest. *)
Theorem short_read_reports_zeros (self : Roarm.t hw) (angles : list Q) :
  Roarm.is_connected self = true ->
  (joints_angle_get (Roarm.robot self)).1 = Return angles ->
  angles <> [] ->
  (length angles < length (RoarmConfig.joint_names (Roarm.config self)))%nat ->
  exists obs,
    (Roarm.get_observation pi self).1 = Return obs
    /\ forall joint_name,
        joint_name ∈ RoarmConfig.joint_names (Roarm.config self) ->
        not_the_gripper (Roarm.config self) joint_name ->
        obs !! pos_key joint_name = Some 0%Q.
Proof.
  intros Hc Hr Hne Hlen. eexists. split; [apply (get_observation_value self Hc) |].
  intros j Hin Hg. cbv zeta. rewrite (lookup_beside_gripper _ _ _ _ Hg).
  rewrite Hr. unfold joints_reading.
  destruct angles as [| a angles]; [congruence |].
  pose proof (store_angles_outcome (RoarmConfig.joint_names (Roarm.config self))
                (a :: angles) ∅) as Ho.
  apply Nat.ltb_lt in Hlen. rewrite Hlen in Ho.
  destruct (Roarm.store_angles pi _ (a :: angles) ∅) as [[u | e] d'];
    cbn [fst] in Ho; [discriminate |].
  rewrite store_zeros_lookup. apply decide_True. now apply pos_key_elem.
Qed.

(** X8.  A read that returns at least as many angles as the robot has
    joints (the joint names being distinct): the i-th joint, unless it
    is the gripper, is reported as the i-th angle in radians; and on a
    robot with a gripper the gripper entry is what the gripper read
    gave, in radians, or zero when that read raised or gave nothing. *)
Theorem full_read_reports_radians (self : Roarm.t hw) (angles : list Q) :
  Roarm.is_connected self = true ->
  (joints_angle_get (Roarm.robot self)).1 = Return angles ->
  angles <> [] ->
  (length (RoarmConfig.joint_names (Roarm.config self)) <= length angles)%nat ->
  NoDup (RoarmConfig.joint_names (Roarm.config self)) ->
  exists obs,
    (Roarm.get_observation pi self).1 = Return obs
    /\ (forall i joint_name a,
          RoarmConfig.joint_names (Roarm.config self) !! i = Some joint_name ->
          angles !! i = Some a ->
          not_the_gripper (Roarm.config self) joint_name ->
          obs !! pos_key joint_name = Some (Np.deg2rad pi a))
    /\ (RoarmConfig.has_gripper (Roarm.config self) = true ->
        obs !! pos_key (RoarmConfig.gripper_name (Roarm.config self))
        = Some (gripper_reading pi
                  (gripper_angle_get (joints_angle_get (Roarm.robot self)).2).1)).
Proof.
  intros Hc Hr Hne Hlen Hnd. eexists. split; [apply (get_observation_value self Hc) |].
  cbv zeta. split.
  - intros i j a Hj Ha Hg. rewrite (lookup_beside_gripper _ _ _ _ Hg).
    rewrite Hr. unfold joints_reading.
    destruct angles as [| a0 angles]; [congruence |].
    pose proof (store_angles_outcome (RoarmConfig.joint_names (Roarm.config self))
                  (a0 :: angles) ∅) as Ho.
    pose proof (store_angles_lookup (RoarmConfig.joint_names (Roarm.config self))
                  (a0 :: angles) ∅ i j a Hnd Hj Ha) as Hl.
    apply Nat.ltb_ge in Hlen. rewrite Hlen in Ho.
    destruct (Roarm.store_angles pi _ (a0 :: angles) ∅) as [[u | e] d'];
      cbn [fst snd] in Ho, Hl; [exact Hl | discriminate].
  - intros Hg. rewrite Hg. apply lookup_insert_eq.
Qed.
End Observation.

Lemma observation_matches_features_witness :
  exists obs,
    (Roarm.get_observation Sim.pi (Sim.connected Sim.read_raises)).1 = Return obs
    /\ dom obs = dom (RoarmFeatures.observation_features Sim.serial_config).
Proof.
  assert (Hc : Roarm.is_connected (Sim.connected Sim.read_raises) = true) by reflexivity.
  assert (Hne : (joints_angle_get (Roarm.robot (Sim.connected Sim.read_raises))).1
                <> Return []) by discriminate.
  exact (observation_matches_features Sim.pi (Sim.connected Sim.read_raises) Hc Hne).
Defined.

Lemma short_read_reports_zeros_witness :
  exists obs,
    (Roarm.get_observation Sim.pi (Sim.connected (Sim.at_angles [10; 20; 30]%Q 0%Q))).1
    = Return obs
    /\ obs !! pos_key "shoulder_pan" = Some 0%Q.
Proof.
  assert (Hc : Roarm.is_connected (Sim.connected (Sim.at_angles [10; 20; 30]%Q 0%Q)) = true)
    by reflexivity.
  assert (Hr : (joints_angle_get
                  (Roarm.robot (Sim.connected (Sim.at_angles [10; 20; 30]%Q 0%Q)))).1
               = Return [10; 20; 30]%Q) by reflexivity.
  assert (Hne : [10; 20; 30]%Q <> []) by discriminate.
  assert (Hlen : length [10; 20; 30]%Q
                 < length (RoarmConfig.joint_names
                             (Roarm.config (Sim.connected (Sim.at_angles [10; 20; 30]%Q 0%Q)))))
    by (simpl; lia).
  destruct (short_read_reports_zeros Sim.pi _ _ Hc Hr Hne Hlen) as (obs & Hobs & Hz).
  exists obs. split; [exact Hobs |].
  apply Hz; [apply elem_of_cons; now left | right; discriminate].
Defined.

Lemma full_read_reports_radians_witness :
  exists obs,
    (Roarm.get_observation Sim.pi Sim.follower_at_rest).1 = Return obs
    /\ obs !! pos_key "elbow_flex" = Some (Np.deg2rad Sim.pi 30)
    /\ obs !! pos_key "gripper" = Some (Np.deg2rad Sim.pi 30).
Proof.
  assert (Hc : Roarm.is_connected Sim.follower_at_rest = true) by reflexivity.
  assert (Hr : (joints_angle_get (Roarm.robot Sim.follower_at_rest)).1
               = Return [10; 20; 30; 40; 50; 60]%Q) by reflexivity.
  assert (Hne : [10; 20; 30; 40; 50; 60]%Q <> []) by discriminate.
  assert (Hlen : length (RoarmConfig.joint_names (Roarm.config Sim.follower_at_rest))
                 <= length [10; 20; 30; 40; 50; 60]%Q) by (simpl; lia).
  assert (Hnd : NoDup (RoarmConfig.joint_names (Roarm.config Sim.follower_at_rest))).
  { apply (bool_decide_unpack _). vm_compute. exact I. }
  destruct (full_read_reports_radians Sim.pi _ _ Hc Hr Hne Hlen Hnd) as (obs & Hobs & Hj & Hg).
  exists obs. split; [exact Hobs |]. split.
  - apply (Hj 2%nat); [reflexivity | reflexivity | right; discriminate].
  - apply Hg. reflexivity.
Defined.

(** ** When [send_action] returns, and what it may touch *)

Section SendActionTotal.
Context {hw : Type} `{RoarmSDK hw}.
Variable pi : Q.

Lemma joint_angle_returns (joint_name : string) (action : gmap string Q)
    (self : Roarm.t hw) :
  never_empty ->
  Roarm.is_connected self = true ->
  joint_name ∈ RoarmConfig.joint_names (Roarm.config self) ->
  exists angle, (Roarm.joint_angle pi joint_name action self).1 = Return angle.
Proof.
  intros Hnever Hc Hin. unfold Roarm.joint_angle.
  destruct (action !! pos_key joint_name) as [value |].
  - unfold bind, get.
    destruct (RoarmConfig.joint_limits_deg (Roarm.config self) !! joint_name)
      as [[mn mx] |]; eexists; reflexivity.
  - destruct (get_observation_dom pi self Hc (Hnever (Roarm.robot self)))
      as (obs & Hobs & Hdom).
    unfold bind.
    destruct (Roarm.get_observation pi self) as [r self0]. simpl in Hobs. subst r.
    assert (Hkey : is_Some (obs !! pos_key joint_name)).
    { apply elem_of_dom. rewrite Hdom, motors_ft_dom.
      apply elem_of_union_l. apply elem_of_list_to_set. now apply pos_key_elem. }
    destruct Hkey as [v ->]. eexists. reflexivity.
Qed.

Lemma build_angles_deg_returns (joint_names : list string) (action : gmap string Q)
    (self : Roarm.t hw) :
  never_empty ->
  Roarm.is_connected self = true ->
  (forall joint_name, joint_name ∈ joint_names ->
                      joint_name ∈ RoarmConfig.joint_names (Roarm.config self)) ->
  exists angles_deg, (Roarm.build_angles_deg pi joint_names action self).1 = Return angles_deg.
Proof.
  intros Hnever. revert self.
  induction joint_names as [| j names IH]; intros self Hc Hsub.
  - exists []. reflexivity.
  - rewrite build_angles_deg_cons.
    destruct (joint_angle_returns j action self Hnever Hc) as [angle Ha].
    { apply Hsub. apply elem_of_cons. now left. }
    destruct (joint_angle_spec pi j action self) as (extra & (C & I & _) & _).
    destruct (Roarm.joint_angle pi j action self) as [r self1].
    cbn [fst snd] in Ha, C, I. subst r.
    destruct (IH self1) as [angles Hb].
    + unfold Roarm.is_connected in *. congruence.
    + intros j' Hj'. rewrite C. apply Hsub. apply elem_of_cons. now right.
    + destruct (Roarm.build_angles_deg pi names action self1) as [r self2].
      cbn [fst] in Hb. subst r. eexists. reflexivity.
Qed.

(** X9.  On a device whose joint read never comes back empty,
    [send_action] of a connected robot returns its argument for every
    action mapping, whichever keys it carries and whatever the reads
    and writes do otherwise. *)
Theorem send_action_total_on_answering_device (self : Roarm.t hw)
    (action : gmap string Q) :
  never_empty ->
  Roarm.is_connected self = true ->
  (Roarm.send_action pi action self).1 = Return action.
Proof.
  intros Hnever Hc.
  destruct (send_action_spec pi action self Hc) as (reads & _ & Hs).
  destruct (build_angles_deg_returns (RoarmConfig.joint_names (Roarm.config self))
              action self Hnever Hc) as [angles Hb]; [auto |].
  destruct (Roarm.build_angles_deg pi _ action self) as [r self1].
  cbn [fst] in Hb. subst r. exact (proj1 Hs).
Qed.

Lemma issued_extends (a b : Roarm.t hw) extra :
  extends a b extra -> issued a b = extra.
Proof. apply extends_issued. Qed.

Lemma issued_trans (a b c : Roarm.t hw) l1 l2 :
  extends a b l1 -> extends b c l2 -> issued a c = issued a b ++ issued b c.
Proof.
  intros E1 E2.
  rewrite (extends_issued _ _ _ E1), (extends_issued _ _ _ E2).
  exact (extends_issued _ _ _ (extends_trans _ _ _ _ _ E1 E2)).
Qed.

Lemma read_gripper_calls (d : gmap string Q) (self : Roarm.t hw) :
  extends self (Roarm.read_gripper pi d self).2
    (if RoarmConfig.has_gripper (Roarm.config self) then [GripperAngleGet] else []).
Proof.
  unfold Roarm.read_gripper.
  destruct (RoarmConfig.has_gripper (Roarm.config self)); [| apply extends_refl].
  pose proof (sdk_extends GripperAngleGet gripper_angle_get self) as E.
  destruct (Roarm.sdk GripperAngleGet gripper_angle_get self) as [[g | e] self1]; exact E.
Qed.

Lemma get_observation_calls (self : Roarm.t hw) :
  extends self (Roarm.get_observation pi self).2
    (if Roarm.is_connected self
     then JointsAngleGet
          :: (if RoarmConfig.has_gripper (Roarm.config self) then [GripperAngleGet] else [])
     else []).
Proof.
  destruct (Roarm.is_connected self) eqn:Hc.
  - rewrite (get_observation_unfold pi self Hc).
    destruct (read_joints_returns pi ∅ self) as (obs1 & R1 & E1).
    destruct (Roarm.read_joints pi ∅ self) as [r1 self1]. cbn [fst snd] in R1, E1. subst r1.
    pose proof (read_gripper_calls obs1 self1) as E2.
    destruct (read_gripper_returns pi obs1 self1) as (obs2 & extra & R2 & _).
    destruct (Roarm.read_gripper pi obs1 self1) as [r2 self2]. cbn [fst snd] in R2, E2. subst r2.
    cbn [snd]. pose proof E1 as (C1 & _). rewrite C1 in E2.
    exact (extends_trans _ _ _ _ _ E1 E2).
  - rewrite (get_observation_disconnected pi self Hc). apply extends_refl.
Qed.

Lemma get_observation_reads (self : Roarm.t hw) :
  forallb is_read (issued self (Roarm.get_observation pi self).2) = true.
Proof.
  rewrite (extends_issued _ _ _ (get_observation_calls self)).
  destruct (Roarm.is_connected self), (RoarmConfig.has_gripper (Roarm.config self));
    reflexivity.
Qed.

Lemma joint_angle_reads (joint_name : string) (action : gmap string Q) (self : Roarm.t hw) :
  forallb is_read (issued self (Roarm.joint_angle pi joint_name action self).2) = true.
Proof.
  unfold Roarm.joint_angle.
  destruct (action !! pos_key joint_name) as [value |].
  - unfold bind, get.
    destruct (RoarmConfig.joint_limits_deg (Roarm.config self) !! joint_name)
      as [[mn mx] |]; cbn [snd]; unfold issued; rewrite drop_all; reflexivity.
  - pose proof (get_observation_reads self) as Hr. unfold bind.
    destruct (Roarm.get_observation pi self) as [[obs | e] self0]; cbn [snd] in Hr |- *;
      [destruct (obs !! pos_key joint_name) |]; exact Hr.
Qed.

Lemma build_angles_deg_reads (joint_names : list string) (action : gmap string Q)
    (self : Roarm.t hw) :
  forallb is_read (issued self (Roarm.build_angles_deg pi joint_names action self).2) = true.
Proof.
  revert self. induction joint_names as [| j names IH]; intros self.
  - cbn. unfold issued. rewrite drop_all. reflexivity.
  - rewrite build_angles_deg_cons.
    pose proof (joint_angle_reads j action self) as R0.
    destruct (joint_angle_spec pi j action self) as (extra0 & E0 & _).
    destruct (Roarm.joint_angle pi j action self) as [[angle | e] self1];
      cbn [snd] in R0, E0 |- *; [| exact R0].
    pose proof (IH self1) as R1.
    destruct (build_angles_deg_spec pi names action self1) as (extra1 & E1 & _).
    destruct (Roarm.build_angles_deg pi names action self1) as [[angles | e] self2];
      cbn [snd] in R1, E1 |- *;
      rewrite (issued_trans _ _ _ _ _ E0 E1), forallb_app, R0, R1; reflexivity.
Qed.

(** The calls of one [send_action], exactly. *)
Lemma send_action_calls (action : gmap string Q) (self : Roarm.t hw) :
  Roarm.is_connected self = true ->
  let built := Roarm.build_angles_deg pi (RoarmConfig.joint_names (Roarm.config self))
                 action self in
  extends self (Roarm.send_action pi action self).2
    (issued self built.2
     ++ match built.1 with
        | Return angles_deg =>
            JointsAngleCtrl angles_deg (RoarmConfig.default_speed (Roarm.config self))
              (RoarmConfig.default_acc (Roarm.config self))
            :: gripper_calls pi (Roarm.config self) action
        | Raise _ => []
        end).
Proof.
  intros Hc built. subst built.
  destruct (build_angles_deg_spec pi (RoarmConfig.joint_names (Roarm.config self)) action self)
    as (reads & E & _ & _).
  rewrite (send_action_unfold pi action self Hc).
  destruct (Roarm.build_angles_deg pi _ action self) as [[angles | e] self1];
    cbn [fst snd] in E |- *; rewrite (extends_issued _ _ _ E).
  - destruct (send_joints_spec angles self1) as [R1 E1].
    destruct (Roarm.send_joints angles self1) as [r1 self2]. cbn [fst snd] in R1, E1. subst r1.
    destruct (send_gripper_spec pi action self2) as [R2 E2].
    destruct (Roarm.send_gripper pi action self2) as [r2 self3]. cbn [fst snd] in R2, E2.
    subst r2. cbn [snd].
    pose proof E as (C & _). pose proof E1 as (C1 & _).
    rewrite C in E1. rewrite C1, C in E2.
    exact (extends_trans _ _ _ _ _ E (extends_trans _ _ _ _ _ E1 E2)).
  - rewrite app_nil_r. exact E.
Qed.

Lemma reads_have_no_effect (reads : list call) :
  forallb is_read reads = true ->
  List.filter is_write reads = [] /\ torque_commands reads = [].
Proof.
  induction reads as [| c reads IH]; [split; reflexivity |].
  cbn [forallb]. intros Hc. apply andb_prop in Hc as [Hc Hrest].
  destruct (IH Hrest) as [W T]. destruct c; try discriminate; simpl; split; assumption.
Qed.

Lemma gripper_calls_effect (config : RoarmConfig.t) (action : gmap string Q) :
  (length (List.filter is_write (gripper_calls pi config action)) <= 1)%nat
  /\ torque_commands (gripper_calls pi config action) = [].
Proof.
  unfold gripper_calls. destruct (RoarmConfig.has_gripper config); [| split; simpl; [lia | reflexivity]].
  destruct (action !! _); split; simpl; (lia || reflexivity).
Qed.

Lemma send_action_effects (self : Roarm.t hw) (action : gmap string Q) :
  Roarm.config (Roarm.send_action pi action self).2 = Roarm.config self
  /\ Roarm.is_connected (Roarm.send_action pi action self).2 = Roarm.is_connected self
  /\ (length (List.filter is_write (issued self (Roarm.send_action pi action self).2))
      <= 2)%nat
  /\ torque_commands (issued self (Roarm.send_action pi action self).2) = [].
Proof.
  destruct (Roarm.is_connected self) eqn:Hc.
  - pose proof (send_action_calls action self Hc) as E. cbv zeta in E.
    pose proof (build_angles_deg_reads (RoarmConfig.joint_names (Roarm.config self))
                  action self) as R.
    destruct (reads_have_no_effect _ R) as [W T].
    destruct (gripper_calls_effect (Roarm.config self) action) as [Wg Tg].
    rewrite (extends_issued _ _ _ E). destruct E as (C & I & _).
    split; [exact C |]. split; [unfold Roarm.is_connected in *; congruence |].
    unfold torque_commands in *. rewrite List.filter_app, omap_app, W, T.
    destruct (Roarm.build_angles_deg pi _ action self).1 as [angles | e]; simpl.
    + split; [lia | exact Tg].
    + split; [lia | reflexivity].
  - rewrite (send_action_disconnected pi action self Hc). cbn [fst snd].
    unfold issued. rewrite drop_all.
    split; [reflexivity |]. split; [exact Hc |]. split; [simpl; lia | reflexivity].
Qed.

(** X10.  Whatever the robot, the device and the action,
    [send_action] keeps the configuration and the connection flag,
    issues at most two writes, and never a torque command. *)
Theorem send_action_footprint (self : Roarm.t hw) (action : gmap string Q) :
  Roarm.config (Roarm.send_action pi action self).2 = Roarm.config self
  /\ Roarm.is_connected (Roarm.send_action pi action self).2 = Roarm.is_connected self
  /\ (length (List.filter is_write (issued self (Roarm.send_action pi action self).2))
      <= 2)%nat
  /\ torque_commands (issued self (Roarm.send_action pi action self).2) = [].
Proof. exact (send_action_effects self action). Qed.

(** X11.  [get_observation] only reads: on a connected robot it
    issues one joint read and then, if the robot has a gripper, one
    gripper read; on a robot that is not connected it issues nothing;
    in both cases configuration and connection flag are kept. *)
Theorem get_observation_footprint (self : Roarm.t hw) :
  issued self (Roarm.get_observation pi self).2
  = (if Roarm.is_connected self
     then JointsAngleGet
          :: (if RoarmConfig.has_gripper (Roarm.config self) then [GripperAngleGet] else [])
     else [])
  /\ Roarm.config (Roarm.get_observation pi self).2 = Roarm.config self
  /\ Roarm.is_connected (Roarm.get_observation pi self).2 = Roarm.is_connected self.
Proof.
  pose proof (get_observation_calls self) as E.
  split; [exact (extends_issued _ _ _ E) |].
  destruct E as (C & I & _). split; [exact C | exact I].
Qed.
End SendActionTotal.

Lemma send_action_total_on_answering_device_witness :
  (Roarm.send_action Sim.pi ∅
     (Steady.robot {| Steady.angle := 30%Q; Steady.refuses := true |} true)).1
  = Return ∅.
Proof.
  assert (Hnever : @never_empty Steady.device Steady.sdk) by (intros d; discriminate).
  assert (Hc : Roarm.is_connected
                 (Steady.robot {| Steady.angle := 30%Q; Steady.refuses := true |} true) = true)
    by reflexivity.
  exact (send_action_total_on_answering_device Sim.pi _ ∅ Hnever Hc).
Defined.

(** ** Connecting, disconnecting and the emergency stop *)

Section Connection.
Context {hw : Type} `{RoarmSDK hw}.
Variable pi : Q.
Variable is_calibrated : Roarm.t hw -> bool.
Variable run_calibrate : M (Roarm.t hw) unit.

(** [try: self.robot.<command> except: ...] returns after one call. *)
Lemma guarded_command (c : call) (f : hw -> result unit * hw) (self : Roarm.t hw) :
  (try_except (Roarm.sdk c f) (ret tt) self).1 = Return tt
  /\ extends self (try_except (Roarm.sdk c f) (ret tt) self).2 [c].
Proof.
  unfold try_except, ret. pose proof (sdk_extends c f self) as E.
  destruct (Roarm.sdk c f self) as [[[] | e] self1]; split; (reflexivity || exact E).
Qed.

Lemma set_connected_spec (b : bool) (self : Roarm.t hw) :
  RoarmConnection.set_connected b self
  = (Return tt, {| Roarm.config := Roarm.config self; Roarm.robot := Roarm.robot self;
                   Roarm._is_connected := b; Roarm.calls := Roarm.calls self |}).
Proof. reflexivity. Qed.

Lemma issued_calls (a b : Roarm.t hw) extra :
  Roarm.calls b = Roarm.calls a ++ extra -> issued a b = extra.
Proof. intros L. unfold issued. rewrite L. apply drop_app_length. Qed.

Lemma disconnect_spec (self : Roarm.t hw) :
  (RoarmConnection.disconnect self).1 = Return tt
  /\ Roarm.is_connected (RoarmConnection.disconnect self).2 = false
  /\ Roarm.calls (RoarmConnection.disconnect self).2 = Roarm.calls self ++ [TorqueSet 0]
  /\ Roarm.config (RoarmConnection.disconnect self).2 = Roarm.config self.
Proof.
  unfold RoarmConnection.disconnect, bind.
  destruct (guarded_command (TorqueSet 0) (torque_set 0) self) as [R E].
  destruct (try_except _ _ self) as [r self1]. cbn [fst snd] in R, E. subst r.
  rewrite set_connected_spec. cbn [fst snd]. destruct E as (C & _ & L).
  split; [reflexivity |]. split; [reflexivity |]. split; [exact L | exact C].
Qed.

Lemma probe_spec (self : Roarm.t hw) :
  (RoarmConnection.probe self).1
  = match (joints_angle_get (Roarm.robot self)).1 with
    | Return _ => Return tt
    | Raise _ => Raise ConnectionError
    end
  /\ Roarm.is_connected (RoarmConnection.probe self).2
     = match (joints_angle_get (Roarm.robot self)).1 with
       | Return _ => true
       | Raise _ => Roarm.is_connected self
       end
  /\ Roarm.calls (RoarmConnection.probe self).2 = Roarm.calls self ++ [JointsAngleGet]
  /\ Roarm.config (RoarmConnection.probe self).2 = Roarm.config self.
Proof.
  unfold RoarmConnection.probe, try_except, bind, raise.
  pose proof (sdk_extends JointsAngleGet joints_angle_get self) as E.
  pose proof (sdk_result JointsAngleGet joints_angle_get self) as R.
  destruct (Roarm.sdk JointsAngleGet joints_angle_get self) as [r self1].
  cbn [fst snd] in E, R. rewrite <- R. destruct E as (C & I & L).
  destruct r as [angles | e]; rewrite ?set_connected_spec; cbn [fst snd];
    repeat split; assumption.
Qed.

Lemma configure_spec (self : Roarm.t hw) :
  (RoarmConnection.configure self).1 = Return tt
  /\ extends self (RoarmConnection.configure self).2 [TorqueSet 1].
Proof. apply guarded_command. Qed.

Lemma connect_unfold (calibrate : bool) (self : Roarm.t hw) :
  RoarmConnection.connect is_calibrated run_calibrate calibrate self
  = match RoarmConnection.probe self with
    | (Return _, self1) =>
        match (if negb (is_calibrated self1) && calibrate then run_calibrate else ret tt)
                self1 with
        | (Return _, self2) => RoarmConnection.configure self2
        | (Raise e, self2) => (Raise e, self2)
        end
    | (Raise e, self1) => (Raise e, self1)
    end.
Proof. reflexivity. Qed.

(** A probe that raises ends [connect], whatever [calibrate] is. *)
Lemma connect_refused (calibrate : bool) (self : Roarm.t hw) e :
  (joints_angle_get (Roarm.robot self)).1 = Raise e ->
  (RoarmConnection.connect is_calibrated run_calibrate calibrate self).1
  = Raise ConnectionError
  /\ Roarm.is_connected
       (RoarmConnection.connect is_calibrated run_calibrate calibrate self).2
     = Roarm.is_connected self
  /\ Roarm.calls (RoarmConnection.connect is_calibrated run_calibrate calibrate self).2
     = Roarm.calls self ++ [JointsAngleGet]
  /\ Roarm.config (RoarmConnection.connect is_calibrated run_calibrate calibrate self).2
     = Roarm.config self.
Proof.
  intros Hr. rewrite connect_unfold.
  destruct (probe_spec self) as (R & I & L & C). rewrite Hr in R, I.
  destruct (RoarmConnection.probe self) as [r self1]. cbn [fst snd] in R, I, L, C.
  subst r. cbn [fst snd]. repeat split; assumption.
Qed.

(** [connect(calibrate=False)] after a probe that returned. *)
Lemma connect_accepted (self : Roarm.t hw) angles :
  (joints_angle_get (Roarm.robot self)).1 = Return angles ->
  (RoarmConnection.connect is_calibrated run_calibrate false self).1 = Return tt
  /\ Roarm.is_connected (RoarmConnection.connect is_calibrated run_calibrate false self).2
     = true
  /\ Roarm.calls (RoarmConnection.connect is_calibrated run_calibrate false self).2
     = Roarm.calls self ++ [JointsAngleGet; TorqueSet 1]
  /\ Roarm.config (RoarmConnection.connect is_calibrated run_calibrate false self).2
     = Roarm.config self.
Proof.
  intros Hr. rewrite connect_unfold.
  destruct (probe_spec self) as (R & I & L & C). rewrite Hr in R, I.
  destruct (RoarmConnection.probe self) as [r self1]. cbn [fst snd] in R, I, L, C.
  subst r. rewrite andb_false_r.
  change (@ret (Roarm.t hw) unit tt self1) with (@Return unit tt, self1). cbv beta iota.
  destruct (configure_spec self1) as [R2 (C2 & I2 & L2)].
  destruct (RoarmConnection.configure self1) as [r2 self2].
  cbn [fst snd] in R2, C2, I2, L2 |- *.
  split; [exact R2 |]. split; [unfold Roarm.is_connected in *; congruence |].
  split; [| congruence]. rewrite L2, L, <- app_assoc. reflexivity.
Qed.

(** X12.  [connect]: when the probing read raises, [connect] raises
    ConnectionError whatever [calibrate] is, the robot keeps its
    connection flag and no torque command is issued.  When the probing
    read returns, even with no angles at all, [connect(calibrate=False)]
    returns with the robot connected, having issued the read and then
    the torque-on command, whose own failure is not raised. *)
Theorem connect_outcomes (self : Roarm.t hw) :
  (forall calibrate e,
      (joints_angle_get (Roarm.robot self)).1 = Raise e ->
      (RoarmConnection.connect is_calibrated run_calibrate calibrate self).1
      = Raise ConnectionError
      /\ Roarm.is_connected
           (RoarmConnection.connect is_calibrated run_calibrate calibrate self).2
         = Roarm.is_connected self
      /\ issued self (RoarmConnection.connect is_calibrated run_calibrate calibrate self).2
         = [JointsAngleGet])
  /\ (forall angles,
        (joints_angle_get (Roarm.robot self)).1 = Return angles ->
        (RoarmConnection.connect is_calibrated run_calibrate false self).1 = Return tt
        /\ Roarm.is_connected
             (RoarmConnection.connect is_calibrated run_calibrate false self).2 = true
        /\ issued self (RoarmConnection.connect is_calibrated run_calibrate false self).2
           = [JointsAngleGet; TorqueSet 1]).
Proof.
  split.
  - intros calibrate e Hr.
    destruct (connect_refused calibrate self e Hr) as (R & I & L & _).
    split; [exact R |]. split; [exact I | exact (issued_calls _ _ _ L)].
  - intros angles Hr.
    destruct (connect_accepted self angles Hr) as (R & I & L & _).
    split; [exact R |]. split; [exact I | exact (issued_calls _ _ _ L)].
Qed.

(** X13.  Both ways of releasing the torque return whatever the SDK
    does and issue exactly one torque-off command.  [disconnect] does so
    even on a robot that is not connected and always leaves it
    disconnected, after which [get_observation] and [send_action] raise
    ConnectionError without touching the device; [teleop_safety_stop]
    leaves the connection flag as it was. *)
Theorem torque_release_paths (self : Roarm.t hw) (action : gmap string Q) :
  ((RoarmConnection.disconnect self).1 = Return tt
   /\ Roarm.is_connected (RoarmConnection.disconnect self).2 = false
   /\ issued self (RoarmConnection.disconnect self).2 = [TorqueSet 0]
   /\ Roarm.get_observation pi (RoarmConnection.disconnect self).2
      = (Raise ConnectionError, (RoarmConnection.disconnect self).2)
   /\ Roarm.send_action pi action (RoarmConnection.disconnect self).2
      = (Raise ConnectionError, (RoarmConnection.disconnect self).2))
  /\ ((RoarmConnection.teleop_safety_stop self).1 = Return tt
      /\ Roarm.is_connected (RoarmConnection.teleop_safety_stop self).2
         = Roarm.is_connected self
      /\ issued self (RoarmConnection.teleop_safety_stop self).2 = [TorqueSet 0]).
Proof.
  split.
  - destruct (disconnect_spec self) as (R & I & L & _).
    split; [exact R |]. split; [exact I |]. split; [exact (issued_calls _ _ _ L) |].
    split; [now apply get_observation_disconnected | now apply send_action_disconnected].
  - destruct (guarded_command (TorqueSet 0) (torque_set 0) self) as [R (C & I & L)].
    split; [exact R |]. split; [exact I | exact (issued_calls _ _ _ L)].
Qed.
End Connection.

Lemma connect_outcomes_witness :
  (RoarmConnection.connect (fun _ => false) (raise SdkError) false
     (Steady.robot {| Steady.angle := 30%Q; Steady.refuses := true |} false)).1
  = Return tt
  /\ Roarm.is_connected
       (RoarmConnection.connect (fun _ => false) (raise SdkError) false
          (Steady.robot {| Steady.angle := 30%Q; Steady.refuses := true |} false)).2
     = true.
Proof.
  destruct (connect_outcomes (fun _ => false) (raise SdkError)
              (Steady.robot {| Steady.angle := 30%Q; Steady.refuses := true |} false))
    as [_ Hok].
  assert (Hr : (joints_angle_get
                  (Roarm.robot
                     (Steady.robot {| Steady.angle := 30%Q; Steady.refuses := true |} false))).1
               = Return (repeat 30%Q 6)) by reflexivity.
  destruct (Hok _ Hr) as (R & I & _). split; [exact R | exact I].
Defined.

(** ** The loop's tick and the session around it *)

Section Ticks.
Context {hw : Type} `{RoarmSDK hw}.
Variable pi : Q.

Lemma contains_pos_suffix joint_name : contains ".pos" (pos_key joint_name) = true.
Proof.
  induction joint_name as [| c s IH]; [reflexivity |].
  change (pos_key (String c s)) with (String c (pos_key s)).
  cbn [contains]. rewrite IH. now destruct (String.prefix ".pos" (String c (pos_key s))).
Qed.

Lemma prefix_am_pos s : String.prefix "am" (pos_key s) = String.prefix "am" s.
Proof.
  destruct s as [| a [| b rest]]; [reflexivity | |].
  - change (pos_key (String a "")) with (String a ".pos"). cbn [String.prefix].
    destruct (Ascii.ascii_dec _ a); reflexivity.
  - change (pos_key (String a (String b rest))) with (String a (String b (pos_key rest))).
    cbn [String.prefix].
    destruct (Ascii.ascii_dec _ a); [| reflexivity].
    destruct (Ascii.ascii_dec _ b); [| reflexivity].
    destruct rest; reflexivity.
Qed.

Lemma contains_cam_pos joint_name :
  contains "cam" (pos_key joint_name) = contains "cam" joint_name.
Proof.
  induction joint_name as [| c s IH]; [reflexivity |].
  change (pos_key (String c s)) with (String c (pos_key s)).
  cbn [contains]. rewrite IH.
  assert (Hp : String.prefix "cam" (String c (pos_key s)) = String.prefix "cam" (String c s)).
  { cbn [String.prefix]. destruct (Ascii.ascii_dec _ c); [| reflexivity].
    apply prefix_am_pos. }
  now rewrite Hp.
Qed.

(** X14.  The loop forwards the entry of a joint if and only if the
    joint's name does not contain "cam": for such a joint the action
    carries the observation's entry unchanged, and for a joint whose
    name contains "cam" the entry is dropped. *)
Theorem extract_action_by_joint_name (leader_obs : gmap string Q) (joint_name : string) :
  RoarmTeleop.extract_action leader_obs !! pos_key joint_name
  = if contains "cam" joint_name then None else leader_obs !! pos_key joint_name.
Proof.
  unfold RoarmTeleop.extract_action.
  assert (Hk : RoarmTeleop.is_joint_key (pos_key joint_name)
               = negb (contains "cam" joint_name)).
  { unfold RoarmTeleop.is_joint_key.
    now rewrite contains_pos_suffix, contains_cam_pos. }
  destruct (leader_obs !! pos_key joint_name) as [v |] eqn:Hl.
  - destruct (contains "cam" joint_name) eqn:Hc.
    + apply map_lookup_filter_None. right. intros v' Hv'. cbn. rewrite Hk. discriminate.
    + apply map_lookup_filter_Some. split; [exact Hl |]. cbn. rewrite Hk. reflexivity.
  - assert (Hn : filter (fun kv : string * Q => RoarmTeleop.is_joint_key kv.1 = true)
                   leader_obs !! pos_key joint_name = None).
    { apply map_lookup_filter_None. now left. }
    rewrite Hn. now destruct (contains "cam" joint_name).
Qed.

(** X15.  One tick never commands the leader: the calls it issues on
    the leader are reads only.  On the follower it issues at most two
    writes and no torque command.  Both robots keep their connection
    flag and configuration. *)
Theorem tick_footprint (w : RoarmTeleop.robots hw) :
  forallb is_read
    (issued (RoarmTeleop.leader w) (RoarmTeleop.leader (RoarmTeleop.tick pi w))) = true
  /\ (length (List.filter is_write
                (issued (RoarmTeleop.follower w)
                   (RoarmTeleop.follower (RoarmTeleop.tick pi w)))) <= 2)%nat
  /\ torque_commands
       (issued (RoarmTeleop.follower w) (RoarmTeleop.follower (RoarmTeleop.tick pi w))) = []
  /\ Roarm.is_connected (RoarmTeleop.leader (RoarmTeleop.tick pi w))
     = Roarm.is_connected (RoarmTeleop.leader w)
  /\ Roarm.is_connected (RoarmTeleop.follower (RoarmTeleop.tick pi w))
     = Roarm.is_connected (RoarmTeleop.follower w)
  /\ Roarm.config (RoarmTeleop.leader (RoarmTeleop.tick pi w))
     = Roarm.config (RoarmTeleop.leader w)
  /\ Roarm.config (RoarmTeleop.follower (RoarmTeleop.tick pi w))
     = Roarm.config (RoarmTeleop.follower w).
Proof.
  pose proof (get_observation_reads pi (RoarmTeleop.leader w)) as Hr.
  pose proof (get_observation_calls pi (RoarmTeleop.leader w)) as (Hcl & Hi & _).
  unfold RoarmTeleop.tick.
  destruct (Roarm.get_observation pi (RoarmTeleop.leader w)) as [[obs | e] leader'];
    cbn [snd] in Hr, Hi, Hcl.
  - destruct (send_action_effects pi (RoarmTeleop.follower w)
                (RoarmTeleop.extract_action obs)) as (Cf & If & Wf & Tf).
    destruct (Roarm.send_action pi _ (RoarmTeleop.follower w)) as [r follower'].
    cbn [snd RoarmTeleop.leader RoarmTeleop.follower] in *.
    repeat split; assumption.
  - cbn [RoarmTeleop.leader RoarmTeleop.follower].
    unfold issued at 2 3. rewrite drop_all.
    split; [exact Hr |]. split; [simpl; lia |]. split; [reflexivity |].
    split; [exact Hi |]. split; [reflexivity |]. split; [exact Hcl | reflexivity].
Qed.
End Ticks.

Section Session.
Context {hw : Type} `{RoarmSDK hw}.
Variable pi : Q.
Variable is_calibrated : Roarm.t hw -> bool.
Variable run_calibrate : M (Roarm.t hw) unit.

Local Abbreviation connect := (RoarmConnection.connect is_calibrated run_calibrate false).
Local Abbreviation start := (RoarmTeleopSession.start is_calibrated run_calibrate).

Lemma start_unfold (s : RoarmTeleopSession.t hw) :
  start s
  = let w := RoarmTeleopSession.robots s in
    match connect (RoarmTeleop.leader w) with
    | (Raise e, leader1) =>
        (Raise e, {| RoarmTeleopSession.robots :=
                       {| RoarmTeleop.leader := leader1;
                          RoarmTeleop.follower := RoarmTeleop.follower w |};
                     RoarmTeleopSession.running := RoarmTeleopSession.running s |})
    | (Return _, leader1) =>
        match Roarm.sdk (TorqueSet 0) (torque_set 0) leader1 with
        | (Raise e, leader2) =>
            (Raise e, {| RoarmTeleopSession.robots :=
                           {| RoarmTeleop.leader := leader2;
                              RoarmTeleop.follower := RoarmTeleop.follower w |};
                         RoarmTeleopSession.running := RoarmTeleopSession.running s |})
        | (Return _, leader2) =>
            match connect (RoarmTeleop.follower w) with
            | (Raise e, follower1) =>
                (Raise e, {| RoarmTeleopSession.robots :=
                               {| RoarmTeleop.leader := leader2;
                                  RoarmTeleop.follower := follower1 |};
                             RoarmTeleopSession.running := RoarmTeleopSession.running s |})
            | (Return _, follower1) =>
                (Return tt, {| RoarmTeleopSession.robots :=
                                 {| RoarmTeleop.leader := leader2;
                                    RoarmTeleop.follower := follower1 |};
                               RoarmTeleopSession.running := true |})
            end
        end
    end.
Proof.
  unfold RoarmTeleopSession.start, bind, RoarmTeleopSession.on_leader,
    RoarmTeleopSession.on_follower, RoarmTeleopSession.set_running.
  cbv zeta.
  destruct (connect (RoarmTeleop.leader (RoarmTeleopSession.robots s)))
    as [[u | e] leader1]; cbn; [| reflexivity].
  destruct (Roarm.sdk (TorqueSet 0) (torque_set 0) leader1) as [[u2 | e] leader2]; cbn;
    [| reflexivity].
  destruct (connect (RoarmTeleop.follower (RoarmTeleopSession.robots s)))
    as [[u3 | e] follower1]; reflexivity.
Qed.

Lemma connect_result_cases (self : Roarm.t hw) :
  ((connect self).1 = Raise ConnectionError
   /\ Roarm.calls (connect self).2 = Roarm.calls self ++ [JointsAngleGet]
   /\ Roarm.is_connected (connect self).2 = Roarm.is_connected self)
  \/ ((connect self).1 = Return tt
      /\ Roarm.calls (connect self).2 = Roarm.calls self ++ [JointsAngleGet; TorqueSet 1]
      /\ Roarm.is_connected (connect self).2 = true).
Proof.
  destruct (joints_angle_get (Roarm.robot self)).1 as [angles | e] eqn:Hr.
  - right. destruct (connect_accepted is_calibrated run_calibrate self angles Hr)
      as (R & I & L & _). repeat split; assumption.
  - left. destruct (connect_refused is_calibrated run_calibrate false self e Hr)
      as (R & I & L & _). repeat split; assumption.
Qed.

(** X16.  [start]: if the leader's probing read raises, [start]
    raises ConnectionError, the follower is not touched and the flag
    [running] is not set.  If [start] returns, the flag is set, both
    robots are connected, the leader has been issued its read, torque
    on and then torque off, and the follower its read and torque on: the
    leader is left free to move and the follower powered. *)
Theorem start_outcomes (s : RoarmTeleopSession.t hw) :
  (forall e,
      (joints_angle_get
         (Roarm.robot (RoarmTeleop.leader (RoarmTeleopSession.robots s)))).1 = Raise e ->
      (start s).1 = Raise ConnectionError
      /\ RoarmTeleop.follower (RoarmTeleopSession.robots (start s).2)
         = RoarmTeleop.follower (RoarmTeleopSession.robots s)
      /\ RoarmTeleopSession.running (start s).2 = RoarmTeleopSession.running s)
  /\ ((start s).1 = Return tt ->
      RoarmTeleopSession.running (start s).2 = true
      /\ Roarm.is_connected (RoarmTeleop.leader (RoarmTeleopSession.robots (start s).2)) = true
      /\ Roarm.is_connected (RoarmTeleop.follower (RoarmTeleopSession.robots (start s).2))
         = true
      /\ issued (RoarmTeleop.leader (RoarmTeleopSession.robots s))
           (RoarmTeleop.leader (RoarmTeleopSession.robots (start s).2))
         = [JointsAngleGet; TorqueSet 1; TorqueSet 0]
      /\ issued (RoarmTeleop.follower (RoarmTeleopSession.robots s))
           (RoarmTeleop.follower (RoarmTeleopSession.robots (start s).2))
         = [JointsAngleGet; TorqueSet 1]).
Proof.
  rewrite start_unfold. cbv zeta. split.
  - intros e Hr.
    destruct (connect_refused is_calibrated run_calibrate false _ e Hr) as (R & _).
    destruct (connect (RoarmTeleop.leader (RoarmTeleopSession.robots s))) as [r leader1].
    cbn [fst] in R. subst r. cbn. repeat split.
  - destruct (connect_result_cases (RoarmTeleop.leader (RoarmTeleopSession.robots s)))
      as [(R & L & I) | (R & L & I)];
      destruct (connect (RoarmTeleop.leader (RoarmTeleopSession.robots s))) as [r leader1];
      cbn [fst snd] in R, L, I; subst r; [cbn; discriminate |].
    pose proof (sdk_extends (TorqueSet 0) (torque_set 0) leader1) as (_ & I2 & L2).
    destruct (Roarm.sdk (TorqueSet 0) (torque_set 0) leader1) as [[u2 | e] leader2];
      cbn [snd] in I2, L2; [| cbn; discriminate].
    destruct (connect_result_cases (RoarmTeleop.follower (RoarmTeleopSession.robots s)))
      as [(Rf & Lf & If) | (Rf & Lf & If)];
      destruct (connect (RoarmTeleop.follower (RoarmTeleopSession.robots s)))
        as [rf follower1];
      cbn [fst snd] in Rf, Lf, If; subst rf; [cbn; discriminate |].
    intros _. cbn.
    split; [reflexivity |]. split; [unfold Roarm.is_connected in *; congruence |].
    split; [exact If |]. split.
    + apply issued_calls. rewrite L2, L, <- app_assoc. reflexivity.
    + apply issued_calls. exact Lf.
Qed.

Lemma stop_unfold (s : RoarmTeleopSession.t hw) :
  RoarmTeleopSession.stop s
  = (Return tt,
     {| RoarmTeleopSession.robots :=
          {| RoarmTeleop.leader :=
               (RoarmConnection.disconnect
                  (RoarmTeleop.leader (RoarmTeleopSession.robots s))).2;
             RoarmTeleop.follower :=
               (RoarmConnection.disconnect
                  (RoarmTeleop.follower (RoarmTeleopSession.robots s))).2 |};
        RoarmTeleopSession.running := false |}).
Proof.
  unfold RoarmTeleopSession.stop, bind, RoarmTeleopSession.on_leader,
    RoarmTeleopSession.on_follower, RoarmTeleopSession.set_running.
  cbn [RoarmTeleopSession.robots RoarmTeleopSession.running].
  destruct (disconnect_spec (RoarmTeleop.leader (RoarmTeleopSession.robots s))) as (R1 & _).
  destruct (RoarmConnection.disconnect (RoarmTeleop.leader (RoarmTeleopSession.robots s)))
    as [r1 leader1]. cbn [fst] in R1. subst r1.
  cbn [RoarmTeleopSession.robots RoarmTeleopSession.running RoarmTeleop.follower
         RoarmTeleop.leader].
  destruct (disconnect_spec (RoarmTeleop.follower (RoarmTeleopSession.robots s))) as (R2 & _).
  destruct (RoarmConnection.disconnect (RoarmTeleop.follower (RoarmTeleopSession.robots s)))
    as [r2 follower1]. cbn [fst] in R2. subst r2. reflexivity.
Qed.

(** X17.  [stop] returns whatever the SDK does, clears the flag,
    issues exactly one torque-off command on each robot and leaves both
    disconnected; a tick that runs after it (the loop thread may still
    be finishing) is skipped and changes nothing. *)
Theorem stop_outcomes (s : RoarmTeleopSession.t hw) :
  let s' := (RoarmTeleopSession.stop s).2 in
  (RoarmTeleopSession.stop s).1 = Return tt
  /\ RoarmTeleopSession.running s' = false
  /\ Roarm.is_connected (RoarmTeleop.leader (RoarmTeleopSession.robots s')) = false
  /\ Roarm.is_connected (RoarmTeleop.follower (RoarmTeleopSession.robots s')) = false
  /\ issued (RoarmTeleop.leader (RoarmTeleopSession.robots s))
       (RoarmTeleop.leader (RoarmTeleopSession.robots s')) = [TorqueSet 0]
  /\ issued (RoarmTeleop.follower (RoarmTeleopSession.robots s))
       (RoarmTeleop.follower (RoarmTeleopSession.robots s')) = [TorqueSet 0]
  /\ RoarmTeleop.tick pi (RoarmTeleopSession.robots s') = RoarmTeleopSession.robots s'.
Proof.
  cbv zeta. rewrite stop_unfold. cbn [fst snd RoarmTeleopSession.robots
    RoarmTeleopSession.running RoarmTeleop.leader RoarmTeleop.follower].
  destruct (disconnect_spec (RoarmTeleop.leader (RoarmTeleopSession.robots s)))
    as (_ & I1 & L1 & _).
  destruct (disconnect_spec (RoarmTeleop.follower (RoarmTeleopSession.robots s)))
    as (_ & I2 & L2 & _).
  split; [reflexivity |]. split; [reflexivity |]. split; [exact I1 |]. split; [exact I2 |].
  split; [exact (issued_calls _ _ _ L1) |]. split; [exact (issued_calls _ _ _ L2) |].
  unfold RoarmTeleop.tick. cbn [RoarmTeleop.leader RoarmTeleop.follower].
  rewrite (get_observation_disconnected pi _ I1). reflexivity.
Qed.
End Session.

Lemma start_outcomes_witness :
  RoarmTeleopSession.running
    (RoarmTeleopSession.start (fun _ => false) (raise SdkError)
       {| RoarmTeleopSession.robots :=
            {| RoarmTeleop.leader :=
                 Steady.robot {| Steady.angle := 10%Q; Steady.refuses := false |} false;
               RoarmTeleop.follower :=
                 Steady.robot {| Steady.angle := 20%Q; Steady.refuses := false |} false |};
          RoarmTeleopSession.running := false |}).2 = true.
Proof.
  refine (proj1 (proj2 (start_outcomes (fun _ => false) (raise SdkError) _) _)).
  reflexivity.
Defined.

(** ** More on the velocity limiter *)

Section LimiterMore.
Local Open Scope Q_scope.
Import RoarmActionSafety.

Lemma sign_cases x :
  (0 < x /\ Np.sign x = 1) \/ (x < 0 /\ Np.sign x = -1) \/ (x == 0 /\ Np.sign x = 0).
Proof.
  unfold Np.sign. destruct (x ?= 0) eqn:Hc.
  - right. right. split; [now apply Qeq_alt | reflexivity].
  - right. left. split; [now apply Qlt_alt | reflexivity].
  - left. split; [now apply Qgt_alt | reflexivity].
Qed.

(** A far target: the step taken is [max_delta], towards the target. *)
Lemma limit_value_far max_delta last_pos target :
  0 <= max_delta ->
  max_delta < Qabs (target - last_pos) ->
  let out := limit_value max_delta (Some last_pos) target in
  Qmin last_pos target <= out <= Qmax last_pos target
  /\ Qabs (target - out) == Qabs (target - last_pos) - max_delta.
Proof.
  intros Hpos Hfar out. subst out. unfold limit_value.
  destruct (Qlt_le_dec max_delta (Qabs (target - last_pos))) as [_ | Hc]; [| lra].
  destruct (sign_cases (target - last_pos)) as [[Hs ->] | [[Hs ->] | [Hs ->]]].
  - rewrite (Qabs_pos (target - last_pos)) in * by lra.
    rewrite (Q.min_l last_pos target), (Q.max_r last_pos target) by lra.
    split; [split; lra |]. rewrite Qabs_pos by lra. ring.
  - rewrite (Qabs_neg (target - last_pos)) in * by lra.
    rewrite (Q.min_r last_pos target), (Q.max_l last_pos target) by lra.
    split; [split; lra |]. rewrite Qabs_neg by lra. ring.
  - exfalso. rewrite Hs in Hfar. change (Qabs 0) with 0 in Hfar. lra.
Qed.

Lemma limit_value_near max_delta last_pos target :
  Qabs (target - last_pos) <= max_delta ->
  limit_value max_delta (Some last_pos) target = target.
Proof.
  intros Hnear. unfold limit_value.
  destruct (Qlt_le_dec max_delta (Qabs (target - last_pos))) as [Hc | _]; [lra | reflexivity].
Qed.

Lemma limit_value_between max_delta last_pos target :
  0 <= max_delta ->
  Qmin last_pos target <= limit_value max_delta (Some last_pos) target
  <= Qmax last_pos target.
Proof.
  intros Hpos.
  destruct (Qlt_le_dec max_delta (Qabs (target - last_pos))) as [Hfar | Hnear].
  - exact (proj1 (limit_value_far max_delta last_pos target Hpos Hfar)).
  - rewrite (limit_value_near _ _ _ Hnear). split; [apply Q.le_min_r | apply Q.le_max_r].
Qed.

(** X18.  The limiter never overshoots: for a key it handles, with a
    stored value and a target, what one call of [forward] leaves in the
    action lies between the stored value and the target. *)
Theorem forward_never_overshoots self action key target last_pos :
  0 <= max_joint_velocity self * dt self ->
  0 <= max_gripper_velocity self * dt self ->
  limited self key ->
  action !! key = Some target ->
  last_positions self !! key = Some last_pos ->
  exists out, (forward self action).2 !! key = Some out
              /\ Qmin last_pos target <= out <= Qmax last_pos target.
Proof.
  intros Hj Hg Hlim Hact Hlast.
  destruct (forward_key self action key target Hj Hg Hlim Hact) as [Hout _].
  rewrite Hlast in Hout. eexists. split; [exact Hout |].
  apply limit_value_between. unfold max_step. destruct (decide _); assumption.
Qed.

Lemma limit_untouched max_velocity dt key k st :
  key <> k \/ st.2 !! k = None ->
  (limit max_velocity dt key st).1 !! k = st.1 !! k
  /\ (limit max_velocity dt key st).2 !! k = st.2 !! k.
Proof.
  intros [Hne | Hnone]; [now apply limit_other |].
  destruct (decide (key = k)) as [-> | Hne]; [| now apply limit_other].
  destruct st as [lp act]. cbn [snd] in Hnone. unfold limit. rewrite Hnone.
  split; reflexivity.
Qed.

(** X19.  What [forward] leaves alone: a key it does not handle, and
    a key the action does not carry, keep their entry in the action and
    their stored value. *)
Theorem forward_leaves_rest self action k :
  ~ limited self k \/ action !! k = None ->
  (forward self action).2 !! k = action !! k
  /\ last_positions (forward self action).1 !! k = last_positions self !! k.
Proof.
  intros Hk.
  assert (Hfold : forall names st,
             (forall j, j ∈ names -> pos_key j <> k \/ st.2 !! k = None) ->
             let st' := foldl (fun st joint_name =>
                                 limit (max_joint_velocity self) (dt self)
                                       (pos_key joint_name) st) st names in
             st'.1 !! k = st.1 !! k /\ st'.2 !! k = st.2 !! k).
  { induction names as [| j names IH]; intros st Hall; [split; reflexivity |].
    cbn [foldl].
    destruct (limit_untouched (max_joint_velocity self) (dt self) (pos_key j) k st) as [H1 H2].
    { apply Hall. apply elem_of_cons. now left. }
    destruct (IH (limit (max_joint_velocity self) (dt self) (pos_key j) st)) as [H3 H4].
    { intros j' Hj'. destruct (Hall j') as [Hne | Hnone];
        [apply elem_of_cons; now right | now left | right; congruence]. }
    cbv zeta in H3, H4. split; congruence. }
  destruct (Hfold (joint_names self) (last_positions self, action)) as [F1 F2].
  { intros j Hj. destruct Hk as [Hnl | Hnone]; [left | now right].
    intros Heq. apply Hnl. left. rewrite <- Heq. apply list_elem_of_fmap. now exists j. }
  cbv zeta in F1, F2. cbn [fst snd] in F1, F2.
  destruct (limit_untouched (max_gripper_velocity self) (dt self)
              (pos_key (gripper_name self)) k
              (foldl (fun st joint_name =>
                        limit (max_joint_velocity self) (dt self) (pos_key joint_name) st)
                     (last_positions self, action) (joint_names self))) as [G1 G2].
  { destruct Hk as [Hnl | Hnone]; [left | right; congruence].
    intros Heq. apply Hnl. right. now symmetry. }
  unfold forward. destruct (limit _ _ _ _) as [lp' act']. cbn [fst snd] in *.
  split; [| change (lp' !! k = last_positions self !! k)]; congruence.
Qed.
End LimiterMore.

Section LimiterConvergence.
Local Open Scope Q_scope.
Import RoarmActionSafety.

Lemma limit_values_settled max_delta target n :
  0 <= max_delta ->
  limit_values max_delta (Some target) (repeat target n) = repeat target n.
Proof.
  intros Hpos. induction n as [| n IH]; [reflexivity |].
  cbn [repeat limit_values]. cbv zeta.
  rewrite (limit_value_settled max_delta target Hpos), IH. reflexivity.
Qed.

Lemma last_repeat (x : Q) n : (0 < n)%nat -> last (repeat x n) = Some x.
Proof.
  induction n as [| [| n] IH]; intros Hn; [lia | reflexivity |].
  change (repeat x (S (S n))) with (x :: repeat x (S n)).
  rewrite last_cons, IH by lia. reflexivity.
Qed.

Lemma limit_values_reach max_delta target n :
  0 < max_delta -> (0 < n)%nat ->
  forall last_pos,
    Qabs (target - last_pos) <= inject_Z (Z.of_nat n) * max_delta ->
    last (limit_values max_delta (Some last_pos) (repeat target n)) = Some target.
Proof.
  intros Hpos. induction n as [| n IH]; intros Hn last_pos Hdist; [lia |].
  cbn [repeat limit_values]. cbv zeta.
  destruct (Qlt_le_dec max_delta (Qabs (target - last_pos))) as [Hfar | Hnear].
  - destruct (limit_value_far max_delta last_pos target) as [_ Hstep]; [lra | exact Hfar |].
    cbv zeta in Hstep.
    assert (Hsucc : inject_Z (Z.of_nat (S n)) == inject_Z (Z.of_nat n) + 1).
    { rewrite Nat2Z.inj_succ. unfold Z.succ. rewrite inject_Z_plus. reflexivity. }
    rewrite Hsucc in Hdist.
    destruct n as [| n].
    + exfalso. change (inject_Z (Z.of_nat 0)) with 0 in Hdist. lra.
    + rewrite last_cons, IH; [reflexivity | lia |].
      rewrite Hstep. lra.
  - rewrite (limit_value_near _ _ _ Hnear).
    rewrite limit_values_settled by lra.
    destruct n as [| n]; [reflexivity |].
    rewrite last_cons, last_repeat by lia. reflexivity.
Qed.

Lemma last_map_Some (l : list Q) : last (map Some l) = Some <$> last l.
Proof. exact (fmap_last Some l). Qed.

(** X20.  Holding a target: when the same target is fed to the
    limiter call after call, for a key it handles whose stored value is
    at most [n] largest steps away, the [n]-th call returns the target
    itself; the limiter reaches a held target in finitely many calls. *)
Theorem limiter_reaches_held_target self key target last_pos n :
  0 <= max_joint_velocity self * dt self ->
  0 <= max_gripper_velocity self * dt self ->
  0 < max_step self key ->
  limited self key ->
  last_positions self !! key = Some last_pos ->
  (0 < n)%nat ->
  Qabs (target - last_pos) <= inject_Z (Z.of_nat n) * max_step self key ->
  last (feed self key (repeat target n)) = Some (Some target).
Proof.
  intros Hj Hg Hpos Hlim Hlast Hn Hdist.
  rewrite (feed_limit_values self key _ Hj Hg Hlim), Hlast, last_map_Some.
  rewrite (limit_values_reach _ _ _ Hpos Hn last_pos Hdist). reflexivity.
Qed.
End LimiterConvergence.

Lemma forward_never_overshoots_witness :
  exists out,
    (RoarmActionSafety.forward
       {| RoarmActionSafety.joint_names := ["elbow_flex"%string];
          RoarmActionSafety.max_joint_velocity := 3; RoarmActionSafety.max_gripper_velocity := 2;
          RoarmActionSafety.gripper_name := "gripper"; RoarmActionSafety.dt := 1 # 10;
          RoarmActionSafety.last_positions := {[ "elbow_flex.pos"%string := 0%Q ]} |}
       {[ "elbow_flex.pos"%string := 1%Q ]}).2 !! "elbow_flex.pos"%string = Some out
    /\ (Qmin 0 1 <= out <= Qmax 0 1)%Q.
Proof.
  refine (forward_never_overshoots _ _ "elbow_flex.pos" 1%Q 0%Q _ _ _ _ _).
  - unfold Qle; simpl; lia.
  - unfold Qle; simpl; lia.
  - left. simpl. apply elem_of_cons. now left.
  - reflexivity.
  - reflexivity.
Defined.

Lemma forward_leaves_rest_witness :
  (RoarmActionSafety.forward (RoarmActionSafety.init ["elbow_flex"%string])
     {[ "wrist_cam"%string := 5%Q ]}).2 !! "wrist_cam"%string = Some 5%Q.
Proof.
  refine (proj1 (forward_leaves_rest (RoarmActionSafety.init ["elbow_flex"%string])
                   {[ "wrist_cam"%string := 5%Q ]} "wrist_cam" _)).
  left. intros [Hin | Heq]; [| discriminate].
  simpl in Hin. apply elem_of_cons in Hin as [Heq | Hin]; [discriminate |].
  apply elem_of_nil in Hin. exact Hin.
Defined.

Lemma limiter_reaches_held_target_witness :
  last (RoarmActionSafety.feed
          {| RoarmActionSafety.joint_names := ["elbow_flex"%string];
             RoarmActionSafety.max_joint_velocity := 3;
             RoarmActionSafety.max_gripper_velocity := 2;
             RoarmActionSafety.gripper_name := "gripper"; RoarmActionSafety.dt := 1 # 10;
             RoarmActionSafety.last_positions := {[ "elbow_flex.pos"%string := 0%Q ]} |}
          "elbow_flex.pos" (repeat 1%Q 4)) = Some (Some 1%Q).
Proof.
  refine (limiter_reaches_held_target _ "elbow_flex.pos" 1%Q 0%Q 4 _ _ _ _ _ _ _).
  - unfold Qle; simpl; lia.
  - unfold Qle; simpl; lia.
  - reflexivity.
  - left. simpl. apply elem_of_cons. now left.
  - reflexivity.
  - lia.
  - vm_compute. discriminate.
Defined.

(** ** The normalizers *)

Section Normalizers.
Local Open Scope Q_scope.

Lemma denormalized_scaled min_val max_val out_min out_max value :
  min_val < max_val -> out_min < out_max ->
  Rescale.denormalized min_val max_val out_min out_max
    (Rescale.scaled min_val max_val out_min out_max value) == value.
Proof.
  intros H1 H2. unfold Rescale.denormalized, Rescale.scaled. cbv zeta.
  field. split; intros Hz; lra.
Qed.

Lemma scaled_denormalized min_val max_val out_min out_max value :
  min_val < max_val -> out_min < out_max ->
  Rescale.scaled min_val max_val out_min out_max
    (Rescale.denormalized min_val max_val out_min out_max value) == value.
Proof.
  intros H1 H2. unfold Rescale.denormalized, Rescale.scaled. cbv zeta.
  field. split; intros Hz; lra.
Qed.

#[global] Instance scaled_proper a b c d : Proper (Qeq ==> Qeq) (Rescale.scaled a b c d).
Proof. intros x y Hxy. unfold Rescale.scaled. cbv zeta. now rewrite Hxy. Qed.

#[global] Instance denormalized_proper a b c d :
  Proper (Qeq ==> Qeq) (Rescale.denormalized a b c d).
Proof. intros x y Hxy. unfold Rescale.denormalized. cbv zeta. now rewrite Hxy. Qed.

Lemma scaled_bounds min_val max_val out_min out_max value :
  min_val < max_val -> out_min <= out_max -> min_val <= value <= max_val ->
  out_min <= Rescale.scaled min_val max_val out_min out_max value <= out_max.
Proof.
  intros H1 H2 [Hlo Hhi]. unfold Rescale.scaled. cbv zeta.
  set (u := (value - min_val) / (max_val - min_val)).
  assert (Hu : u * (max_val - min_val) == value - min_val).
  { unfold u. field. intros Hz. lra. }
  assert (Hu0 : 0 <= u).
  { apply Qnot_lt_le. intros Hc. assert (u * (max_val - min_val) < 0) by nra. lra. }
  assert (Hu1 : u <= 1).
  { apply Qnot_lt_le. intros Hc. assert ((u - 1) * (max_val - min_val) > 0) by nra. lra. }
  split; nra.
Qed.

Section Loop.
Variable self : RoarmJointNormalizer.t.
Variable f : Q -> Q -> Q -> Q -> Q -> Q.

Lemma rewrite_joints_lookup names (action : gmap string Q) :
  Forall (fun j => is_Some (RoarmJointNormalizer.joint_ranges self !! j)) names ->
  (RoarmJointNormalizer.rewrite_joints f self names action).1 = Return tt
  /\ forall key,
      (RoarmJointNormalizer.rewrite_joints f self names action).2 !! key
      = rewrite_value f self names key <$> (action !! key).
Proof.
  intros Hall. revert action.
  induction Hall as [| j names [[mn mx] Hr] _ IH]; intros action.
  - split; [reflexivity |]. intros key. cbn. now destruct (action !! key).
  - cbn [RoarmJointNormalizer.rewrite_joints]. cbv zeta.
    destruct (action !! pos_key j) as [value |] eqn:Hact.
    + rewrite Hr. destruct (RoarmJointNormalizer.output_range self) as [om oM] eqn:Hout.
      destruct (IH (<[pos_key j := f mn mx om oM value]> action)) as [R L].
      split; [exact R |]. intros key. rewrite L.
      unfold rewrite_value. cbn [foldl]. rewrite Hr, Hout. cbn [fst snd].
      destruct (decide (pos_key j = key)) as [<- | Hne].
      * rewrite lookup_insert_eq, Hact. reflexivity.
      * rewrite lookup_insert_ne by exact Hne. reflexivity.
    + destruct (IH action) as [R L]. split; [exact R |]. intros key. rewrite L.
      unfold rewrite_value. cbn [foldl].
      destruct (decide (pos_key j = key)) as [<- | Hne]; [| reflexivity].
      rewrite Hact. reflexivity.
Qed.

(** With distinct joint names the value under a joint's key is
    rewritten once. *)
Lemma rewrite_value_once names j min_val max_val value :
  NoDup names -> j ∈ names ->
  RoarmJointNormalizer.joint_ranges self !! j = Some (min_val, max_val) ->
  rewrite_value f self names (pos_key j) value
  = f min_val max_val (RoarmJointNormalizer.output_range self).1
      (RoarmJointNormalizer.output_range self).2 value.
Proof.
  intros Hnd Hin Hr. unfold rewrite_value.
  assert (Hskip : forall names v, j ∉ names ->
             foldl (fun value joint_name =>
                      if decide (pos_key joint_name = pos_key j) then
                        match RoarmJointNormalizer.joint_ranges self !! joint_name with
                        | Some (min_val, max_val) =>
                            f min_val max_val (RoarmJointNormalizer.output_range self).1
                              (RoarmJointNormalizer.output_range self).2 value
                        | None => value
                        end
                      else value) v names = v).
  { clear. induction names as [| j' names IH]; intros v Hnot; [reflexivity |].
    apply not_elem_of_cons in Hnot as [Hne Hnot]. cbn [foldl].
    rewrite decide_False; [now apply IH |].
    intros Heq. apply pos_key_inj in Heq. congruence. }
  revert value. induction names as [| j' names IH]; intros value.
  - apply elem_of_nil in Hin. contradiction.
  - apply NoDup_cons in Hnd as [Hnot Hnd]. cbn [foldl].
    destruct (decide (j' = j)) as [-> | Hne].
    + rewrite decide_True by reflexivity. rewrite Hr. now apply Hskip.
    + rewrite decide_False by (intros Heq; apply pos_key_inj in Heq; congruence).
      apply IH; [exact Hnd |]. apply elem_of_cons in Hin as [Heq | Hin]; congruence.
Qed.
End Loop.

Section RoundTripLoop.
Variable self : RoarmJointNormalizer.t.
(** Two rewritings that undo each other on proper ranges. *)
Variables f g : Q -> Q -> Q -> Q -> Q -> Q.
Hypothesis f_proper : forall a b c d, Proper (Qeq ==> Qeq) (f a b c d).
Hypothesis g_proper : forall a b c d, Proper (Qeq ==> Qeq) (g a b c d).
Hypothesis g_f : forall a b c d v, a < b -> c < d -> g a b c d (f a b c d v) == v.
Hypothesis f_g : forall a b c d v, a < b -> c < d -> f a b c d (g a b c d v) == v.
Hypothesis output_proper :
  (RoarmJointNormalizer.output_range self).1 < (RoarmJointNormalizer.output_range self).2.

Lemma rewrite_value_fold h names key value :
  rewrite_value h self names key value = foldl (rewrite_step h self key) value names.
Proof. reflexivity. Qed.

Lemma rewrite_step_proper h key j :
  (forall a b c d, Proper (Qeq ==> Qeq) (h a b c d)) ->
  Proper (Qeq ==> Qeq) (fun v => rewrite_step h self key v j).
Proof.
  intros Hh x y Hxy. unfold rewrite_step.
  destruct (decide (pos_key j = key)); [| exact Hxy].
  destruct (RoarmJointNormalizer.joint_ranges self !! j) as [[mn mx] |]; [| exact Hxy].
  now apply Hh.
Qed.

Lemma rewrite_fold_proper h key names :
  (forall a b c d, Proper (Qeq ==> Qeq) (h a b c d)) ->
  forall x y, x == y ->
              foldl (rewrite_step h self key) x names
              == foldl (rewrite_step h self key) y names.
Proof.
  intros Hh. induction names as [| j names IH]; intros x y Hxy; [exact Hxy |].
  cbn [foldl]. apply IH. now apply (rewrite_step_proper h key j Hh).
Qed.

Lemma rewrite_step_cancel key j value :
  proper_ranges (RoarmJointNormalizer.joint_ranges self) [j] ->
  rewrite_step g self key (rewrite_step f self key value j) j == value.
Proof.
  intros Hp. apply Forall_cons in Hp as [(mn & mx & Hr & Hlt) _].
  unfold rewrite_step. destruct (decide (pos_key j = key)); [| reflexivity].
  rewrite Hr. now apply g_f.
Qed.

Lemma rewrite_step_commute key j j' value :
  proper_ranges (RoarmJointNormalizer.joint_ranges self) [j; j'] ->
  rewrite_step g self key (rewrite_step f self key value j') j
  == rewrite_step f self key (rewrite_step g self key value j) j'.
Proof.
  intros Hp. apply Forall_cons in Hp as [(mn & mx & Hr & Hlt) Hp].
  apply Forall_cons in Hp as [(mn' & mx' & Hr' & Hlt') _].
  unfold rewrite_step.
  destruct (decide (pos_key j = key)) as [Hj | Hj],
           (decide (pos_key j' = key)) as [Hj' | Hj']; try reflexivity.
  assert (j = j') by (apply pos_key_inj; congruence). subst j'.
  rewrite Hr. rewrite g_f, f_g by assumption. reflexivity.
Qed.

Lemma rewrite_fold_commute key j names value :
  proper_ranges (RoarmJointNormalizer.joint_ranges self) (j :: names) ->
  rewrite_step g self key (foldl (rewrite_step f self key) value names) j
  == foldl (rewrite_step f self key) (rewrite_step g self key value j) names.
Proof.
  intros Hp. apply Forall_cons in Hp as [Hj Hnames]. revert value.
  induction Hnames as [| j' names Hj' Hnames IH]; intros value; [reflexivity |].
  cbn [foldl]. rewrite IH.
  apply (rewrite_fold_proper f key names f_proper).
  apply rewrite_step_commute. repeat constructor; assumption.
Qed.

Lemma rewrite_value_round_trip key names value :
  proper_ranges (RoarmJointNormalizer.joint_ranges self) names ->
  rewrite_value g self names key (rewrite_value f self names key value) == value.
Proof.
  rewrite !rewrite_value_fold. intros Hp. revert value.
  induction Hp as [| j names Hj Hnames IH]; intros value; [reflexivity |].
  cbn [foldl].
  rewrite (rewrite_fold_proper g key names g_proper _ _
             (rewrite_fold_commute key j names (rewrite_step f self key value j)
                (Forall_cons_2 _ _ _ Hj Hnames))).
  rewrite IH. apply rewrite_step_cancel. repeat constructor. exact Hj.
Qed.

Lemma proper_ranges_present names :
  proper_ranges (RoarmJointNormalizer.joint_ranges self) names ->
  Forall (fun j => is_Some (RoarmJointNormalizer.joint_ranges self !! j)) names.
Proof.
  intros Hp. eapply Forall_impl; [exact Hp |].
  intros j (mn & mx & Hr & _). rewrite Hr. eexists. reflexivity.
Qed.

Lemma rewrite_joints_round_trip names (action : gmap string Q) :
  proper_ranges (RoarmJointNormalizer.joint_ranges self) names ->
  exists rewritten restored,
    RoarmJointNormalizer.rewrite_joints f self names action = (Return tt, rewritten)
    /\ RoarmJointNormalizer.rewrite_joints g self names rewritten = (Return tt, restored)
    /\ same_action restored action.
Proof.
  intros Hp. pose proof (proper_ranges_present names Hp) as Hpres.
  destruct (rewrite_joints_lookup self f names action Hpres) as [R1 L1].
  destruct (RoarmJointNormalizer.rewrite_joints f self names action)
    as [r1 rewritten] eqn:E1.
  cbn [fst snd] in R1, L1. subst r1.
  destruct (rewrite_joints_lookup self g names rewritten Hpres) as [R2 L2].
  destruct (RoarmJointNormalizer.rewrite_joints g self names rewritten)
    as [r2 restored] eqn:E2.
  cbn [fst snd] in R2, L2. subst r2.
  exists rewritten, restored. split; [reflexivity |]. split; [exact E2 |].
  intros key. rewrite L2, L1.
  destruct (action !! key) as [v |]; cbn; constructor.
  now apply rewrite_value_round_trip.
Qed.
End RoundTripLoop.

(** X21.  The joint normalizer round trip: when every joint has a
    range [min_val < max_val] and the output range is proper, [forward]
    returns, [inverse] of its result returns, and the action that
    comes back agrees with the original on every key; the same holds
    for [inverse] followed by [forward].  Joint names may repeat. *)
Theorem joint_normalizer_round_trip (self : RoarmJointNormalizer.t)
    (action : gmap string Q) :
  proper_ranges (RoarmJointNormalizer.joint_ranges self)
    (RoarmJointNormalizer.joint_names self) ->
  (RoarmJointNormalizer.output_range self).1 < (RoarmJointNormalizer.output_range self).2 ->
  (exists normalized restored,
      RoarmJointNormalizer.forward self action = (Return tt, normalized)
      /\ RoarmJointNormalizer.inverse self normalized = (Return tt, restored)
      /\ same_action restored action)
  /\ (exists denormalized restored,
        RoarmJointNormalizer.inverse self action = (Return tt, denormalized)
        /\ RoarmJointNormalizer.forward self denormalized = (Return tt, restored)
        /\ same_action restored action).
Proof.
  intros Hp Hout. split.
  - apply (rewrite_joints_round_trip self Rescale.scaled Rescale.denormalized);
      try assumption; try (intros; typeclasses eauto).
    + intros a b c d v Hab Hcd. now apply denormalized_scaled.
    + intros a b c d v Hab Hcd. now apply scaled_denormalized.
  - apply (rewrite_joints_round_trip self Rescale.denormalized Rescale.scaled);
      try assumption; try (intros; typeclasses eauto).
    + intros a b c d v Hab Hcd. now apply scaled_denormalized.
    + intros a b c d v Hab Hcd. now apply denormalized_scaled.
Qed.

(** X22.  With distinct joint names, each with a range
    [min_val < max_val], [forward] returns and puts the value of a
    joint where its output range says: the entry becomes the scaled
    value, and a value within the joint's range lands within the output
    range. *)
Theorem joint_normalizer_scales_into_range (self : RoarmJointNormalizer.t)
    (action : gmap string Q) joint_name min_val max_val value :
  proper_ranges (RoarmJointNormalizer.joint_ranges self)
    (RoarmJointNormalizer.joint_names self) ->
  NoDup (RoarmJointNormalizer.joint_names self) ->
  joint_name ∈ RoarmJointNormalizer.joint_names self ->
  RoarmJointNormalizer.joint_ranges self !! joint_name = Some (min_val, max_val) ->
  action !! pos_key joint_name = Some value ->
  (RoarmJointNormalizer.output_range self).1 <= (RoarmJointNormalizer.output_range self).2 ->
  (RoarmJointNormalizer.forward self action).1 = Return tt
  /\ (RoarmJointNormalizer.forward self action).2 !! pos_key joint_name
     = Some (Rescale.scaled min_val max_val (RoarmJointNormalizer.output_range self).1
               (RoarmJointNormalizer.output_range self).2 value)
  /\ (min_val <= value <= max_val ->
      (RoarmJointNormalizer.output_range self).1
      <= Rescale.scaled min_val max_val (RoarmJointNormalizer.output_range self).1
           (RoarmJointNormalizer.output_range self).2 value
      <= (RoarmJointNormalizer.output_range self).2).
Proof.
  intros Hp Hnd Hin Hr Hact Hout.
  pose proof (proper_ranges_present self _ Hp) as Hpres.
  assert (Hlt : min_val < max_val).
  { unfold proper_ranges in Hp. rewrite Forall_forall in Hp.
    destruct (Hp joint_name Hin) as (mn & mx & Hr' & Hlt).
    rewrite Hr in Hr'. injection Hr' as -> ->. exact Hlt. }
  destruct (rewrite_joints_lookup self Rescale.scaled _ action Hpres) as [R L].
  split; [exact R |]. split.
  - unfold RoarmJointNormalizer.forward. rewrite L, Hact. cbn.
    now rewrite (rewrite_value_once self Rescale.scaled _ joint_name min_val max_val value
                   Hnd Hin Hr).
  - intros Hv. now apply scaled_bounds.
Qed.

(** X23.  A joint that the action carries and that has no range makes
    the loop raise KeyError, in [forward] and in [inverse] alike: the
    call does not return.  The KeyError names a joint without a range,
    which need not be the given one.  The ranges that are there, and
    the output range, have a non-zero width. *)
Theorem joint_normalizer_missing_range (self : RoarmJointNormalizer.t)
    (action : gmap string Q) joint_name :
  map_Forall (fun _ r => nonzero_width r) (RoarmJointNormalizer.joint_ranges self) ->
  nonzero_width (RoarmJointNormalizer.output_range self) ->
  joint_name ∈ RoarmJointNormalizer.joint_names self ->
  is_Some (action !! pos_key joint_name) ->
  RoarmJointNormalizer.joint_ranges self !! joint_name = None ->
  (exists j action', RoarmJointNormalizer.forward self action = (Raise (KeyError j), action')
                     /\ RoarmJointNormalizer.joint_ranges self !! j = None)
  /\ (exists j action', RoarmJointNormalizer.inverse self action = (Raise (KeyError j), action')
                        /\ RoarmJointNormalizer.joint_ranges self !! j = None).
Proof.
  intros _ _ Hin Hact Hr.
  assert (Hloop : forall h names (a : gmap string Q),
             joint_name ∈ names -> is_Some (a !! pos_key joint_name) ->
             exists j a', RoarmJointNormalizer.rewrite_joints h self names a
                          = (Raise (KeyError j), a')
                          /\ RoarmJointNormalizer.joint_ranges self !! j = None).
  { intros h. induction names as [| j0 names IH]; intros a Hj Ha.
    - apply elem_of_nil in Hj. contradiction.
    - cbn [RoarmJointNormalizer.rewrite_joints]. cbv zeta.
      destruct (a !! pos_key j0) as [v |] eqn:Hv.
      + destruct (RoarmJointNormalizer.joint_ranges self !! j0) as [[mn mx] |] eqn:Hr0.
        * destruct (RoarmJointNormalizer.output_range self) as [om oM].
          apply IH.
          -- apply elem_of_cons in Hj as [-> | Hj]; [congruence | exact Hj].
          -- apply lookup_insert_is_Some.
             destruct (decide (pos_key j0 = pos_key joint_name)); [now left | now right].
        * exists j0, a. split; [reflexivity | exact Hr0].
      + apply IH; [| exact Ha].
        apply elem_of_cons in Hj as [-> | Hj]; [| exact Hj].
        rewrite Hv in Ha. destruct Ha as [? [=]]. }
  split; apply Hloop; assumption.
Qed.
End Normalizers.

Section GripperNormalizer.
Local Open Scope Q_scope.

Lemma same_action_refl (action : gmap string Q) : same_action action action.
Proof. intros key. destruct (action !! key); constructor. reflexivity. Qed.

(** X24.  The gripper normalizer round trip: with a gripper range and
    an output range of positive width, [inverse] undoes [forward] and
    [forward] undoes [inverse] on every key, and neither touches any
    key but the gripper's nor adds or removes a key. *)
Theorem gripper_normalizer_round_trip (self : RoarmGripperNormalizer.t)
    (action : gmap string Q) :
  (RoarmGripperNormalizer.gripper_range self).1 < (RoarmGripperNormalizer.gripper_range self).2 ->
  (RoarmGripperNormalizer.output_range self).1 < (RoarmGripperNormalizer.output_range self).2 ->
  same_action (RoarmGripperNormalizer.inverse self (RoarmGripperNormalizer.forward self action))
    action
  /\ same_action
       (RoarmGripperNormalizer.forward self (RoarmGripperNormalizer.inverse self action))
       action
  /\ (forall key, key <> pos_key (RoarmGripperNormalizer.gripper_name self) ->
                  RoarmGripperNormalizer.forward self action !! key = action !! key
                  /\ RoarmGripperNormalizer.inverse self action !! key = action !! key)
  /\ dom (RoarmGripperNormalizer.forward self action) = dom action
  /\ dom (RoarmGripperNormalizer.inverse self action) = dom action.
Proof.
  unfold RoarmGripperNormalizer.forward, RoarmGripperNormalizer.inverse. cbv zeta.
  destruct (RoarmGripperNormalizer.gripper_range self) as [min_val max_val].
  destruct (RoarmGripperNormalizer.output_range self) as [out_min out_max].
  cbn [fst snd]. intros Hr Ho.
  set (key := pos_key (RoarmGripperNormalizer.gripper_name self)).
  destruct (action !! key) as [value |] eqn:Hv.
  - rewrite !lookup_insert_eq. repeat split.
    + intros k. destruct (decide (k = key)) as [-> | Hk].
      * rewrite lookup_insert_eq, Hv. constructor. now apply denormalized_scaled.
      * rewrite !lookup_insert_ne by congruence. apply same_action_refl.
    + intros k. destruct (decide (k = key)) as [-> | Hk].
      * rewrite lookup_insert_eq, Hv. constructor. now apply scaled_denormalized.
      * rewrite !lookup_insert_ne by congruence. apply same_action_refl.
    + rewrite lookup_insert_ne by congruence. reflexivity.
    + rewrite lookup_insert_ne by congruence. reflexivity.
    + apply set_eq. intros k. rewrite !elem_of_dom.
      destruct (decide (k = key)) as [-> | Hk].
      * rewrite lookup_insert_eq, Hv. split; intros _; eexists; reflexivity.
      * rewrite lookup_insert_ne by congruence. reflexivity.
    + apply set_eq. intros k. rewrite !elem_of_dom.
      destruct (decide (k = key)) as [-> | Hk].
      * rewrite lookup_insert_eq, Hv. split; intros _; eexists; reflexivity.
      * rewrite lookup_insert_ne by congruence. reflexivity.
  - rewrite Hv. repeat split; apply same_action_refl.
Qed.
End GripperNormalizer.

Lemma joint_normalizer_round_trip_witness :
  exists normalized restored,
    RoarmJointNormalizer.forward
      (RoarmJointNormalizer.init Sim.pi ["shoulder_pan"; "elbow_flex"]%string None (-1, 1)%Q)
      {[ "elbow_flex.pos"%string := 1%Q ]} = (Return tt, normalized)
    /\ RoarmJointNormalizer.inverse
         (RoarmJointNormalizer.init Sim.pi ["shoulder_pan"; "elbow_flex"]%string None (-1, 1)%Q)
         normalized = (Return tt, restored)
    /\ same_action restored {[ "elbow_flex.pos"%string := 1%Q ]}.
Proof.
  refine (proj1 (joint_normalizer_round_trip
                   (RoarmJointNormalizer.init Sim.pi ["shoulder_pan"; "elbow_flex"]%string
                      None (-1, 1)%Q)
                   {[ "elbow_flex.pos"%string := 1%Q ]} _ _)).
  - unfold proper_ranges.
    repeat (apply Forall_cons_2;
            [exists (- Sim.pi)%Q, Sim.pi; split; reflexivity |]).
    apply Forall_nil_2.
  - reflexivity.
Defined.

Lemma joint_normalizer_scales_into_range_witness :
  (RoarmJointNormalizer.forward
     (RoarmJointNormalizer.init Sim.pi ["shoulder_pan"; "elbow_flex"]%string None (-1, 1)%Q)
     {[ "elbow_flex.pos"%string := 1%Q ]}).2 !! "elbow_flex.pos"%string
  = Some (Rescale.scaled (- Sim.pi) Sim.pi (-1) 1 1)%Q.
Proof.
  refine (proj1 (proj2 (joint_normalizer_scales_into_range
                          (RoarmJointNormalizer.init Sim.pi
                             ["shoulder_pan"; "elbow_flex"]%string None (-1, 1)%Q)
                          {[ "elbow_flex.pos"%string := 1%Q ]} "elbow_flex"
                          (- Sim.pi)%Q Sim.pi 1%Q _ _ _ _ _ _))).
  - unfold proper_ranges.
    repeat (apply Forall_cons_2;
            [exists (- Sim.pi)%Q, Sim.pi; split; reflexivity |]).
    apply Forall_nil_2.
  - apply (bool_decide_unpack _). vm_compute. exact I.
  - apply (bool_decide_unpack _). vm_compute. exact I.
  - reflexivity.
  - reflexivity.
  - unfold Qle; simpl; lia.
Defined.

Lemma joint_normalizer_missing_range_witness :
  exists j action',
    RoarmJointNormalizer.forward
      (RoarmJointNormalizer.init Sim.pi ["shoulder_pan"; "elbow_flex"]%string
         (Some {[ "shoulder_pan"%string := (-1, 1)%Q ]}) (-1, 1)%Q)
      {[ "elbow_flex.pos"%string := 1%Q ]} = (Raise (KeyError j), action')
    /\ RoarmJointNormalizer.joint_ranges
         (RoarmJointNormalizer.init Sim.pi ["shoulder_pan"; "elbow_flex"]%string
            (Some {[ "shoulder_pan"%string := (-1, 1)%Q ]}) (-1, 1)%Q) !! j = None.
Proof.
  refine (proj1 (joint_normalizer_missing_range
                   (RoarmJointNormalizer.init Sim.pi ["shoulder_pan"; "elbow_flex"]%string
                      (Some {[ "shoulder_pan"%string := (-1, 1)%Q ]}) (-1, 1)%Q)
                   {[ "elbow_flex.pos"%string := 1%Q ]} "elbow_flex" _ _ _ _ _)).
  - apply map_Forall_singleton. unfold nonzero_width. cbn. intros E. discriminate E.
  - unfold nonzero_width. cbn. intros E. discriminate E.
  - apply (bool_decide_unpack _). vm_compute. exact I.
  - eexists. reflexivity.
  - reflexivity.
Defined.

Lemma gripper_normalizer_round_trip_witness :
  same_action
    (RoarmGripperNormalizer.inverse (RoarmGripperNormalizer.init Sim.pi)
       (RoarmGripperNormalizer.forward (RoarmGripperNormalizer.init Sim.pi)
          {[ "gripper.pos"%string := 1%Q ]}))
    {[ "gripper.pos"%string := 1%Q ]}.
Proof.
  refine (proj1 (gripper_normalizer_round_trip (RoarmGripperNormalizer.init Sim.pi)
                   {[ "gripper.pos"%string := 1%Q ]} _ _)); reflexivity.
Defined.

(** ** The teleoperator's connection and observation *)

Section TeleoperatorSession.
Context {hw : Type} `{RoarmSDK hw}.
Variable pi : Q.
Variable float32 : Q -> Q.
Variable open_serial : string -> Z -> string -> result hw.
Variable open_wifi : string -> string -> result hw.

Local Abbreviation teleop_connect :=
  (RoarmTeleoperatorSession.connect open_serial open_wifi).
Local Abbreviation teleop_observation :=
  (RoarmTeleoperatorSession.get_observation pi float32).

(** X25.  [RoarmTeleoperator.connect]: it returns only with the
    teleoperator connected and raises only with it not connected; the
    one SDK call it can issue is a single [torque_set(cmd=0)]; on a
    connected teleoperator it does nothing, so connecting again after a
    connect that returned changes nothing; and with neither [port] nor
    [host] truthy it raises ValueError on a teleoperator it leaves as
    it was. *)
Theorem teleoperator_connect_outcomes (config : RoarmTeleoperatorConfig.t)
    (self : RoarmTeleoperator.t hw) :
  let out := teleop_connect config self in
  (out.1 = Return tt -> RoarmTeleoperator._connected out.2 = true
                        /\ teleop_connect config out.2 = (Return tt, out.2))
  /\ (forall e, out.1 = Raise e -> RoarmTeleoperator._connected out.2 = false)
  /\ (RoarmTeleoperator.calls out.2 = RoarmTeleoperator.calls self
      \/ RoarmTeleoperator.calls out.2 = RoarmTeleoperator.calls self ++ [TorqueSet 0])
  /\ (RoarmTeleoperator._connected self = true -> out = (Return tt, self))
  /\ (RoarmTeleoperator._connected self = false ->
      truthy (RoarmTeleoperatorConfig.port config) = false ->
      truthy (RoarmTeleoperatorConfig.host config) = false ->
      exists msg, out = (Raise (ValueError msg), self)).
Proof.
  cbv zeta. unfold RoarmTeleoperatorSession.connect, RoarmTeleoperatorSession.open_handle.
  destruct (RoarmTeleoperator._connected self) eqn:Hc.
  { cbn [fst snd]. rewrite Hc. repeat split; try congruence; try discriminate.
    now left. }
  destruct (truthy (RoarmTeleoperatorConfig.port config)) eqn:Hp.
  - destruct (open_serial _ _ _) as [handle | e0].
    + unfold RoarmTeleoperator.sdk, RoarmTeleoperatorSession.set_roarm. cbn.
      destruct (torque_set 0 handle) as [[u | e1] handle']; cbn;
        repeat split; try congruence; try discriminate; now right.
    + cbn. rewrite Hc. repeat split; try congruence; try discriminate. now left.
  - destruct (truthy (RoarmTeleoperatorConfig.host config)) eqn:Hh.
    + destruct (open_wifi _ _) as [handle | e0].
      * unfold RoarmTeleoperator.sdk, RoarmTeleoperatorSession.set_roarm. cbn.
        destruct (torque_set 0 handle) as [[u | e1] handle']; cbn;
          repeat split; try congruence; try discriminate; now right.
      * cbn. rewrite Hc. repeat split; try congruence; try discriminate. now left.
    + cbn. rewrite Hc. repeat split; try congruence; try discriminate.
      * now left.
      * intros _ _ _. eexists. reflexivity.
Qed.

(** X26.  With a truthy [port], [connect] takes the serial constructor
    whether or not [host] is set as well: the WiFi constructor plays no
    part in the result.  (The robot's own configuration refuses a port
    together with a host; the teleoperator's does not.) *)
Theorem teleoperator_connect_prefers_serial (config : RoarmTeleoperatorConfig.t)
    (self : RoarmTeleoperator.t hw) (other_wifi : string -> string -> result hw) :
  truthy (RoarmTeleoperatorConfig.port config) = true ->
  teleop_connect config self
  = RoarmTeleoperatorSession.connect open_serial other_wifi config self.
Proof.
  intros Hp. unfold RoarmTeleoperatorSession.connect, RoarmTeleoperatorSession.open_handle.
  rewrite Hp. reflexivity.
Qed.

(** X27.  [RoarmTeleoperator.disconnect] never raises and leaves the
    teleoperator not connected; it issues [torque_set(cmd=1)] exactly
    when the teleoperator was connected, whatever the SDK answers, and
    nothing else; a second [disconnect] changes nothing. *)
Theorem teleoperator_disconnect_outcomes (self : RoarmTeleoperator.t hw) :
  let out := RoarmTeleoperatorSession.disconnect self in
  out.1 = Return tt
  /\ RoarmTeleoperator._connected out.2 = false
  /\ RoarmTeleoperator.calls out.2
     = RoarmTeleoperator.calls self
         ++ (if RoarmTeleoperator._connected self then [TorqueSet 1] else [])
  /\ (RoarmTeleoperator._connected self = false -> out.2 = self)
  /\ RoarmTeleoperatorSession.disconnect out.2 = (Return tt, out.2).
Proof.
  cbv zeta. unfold RoarmTeleoperatorSession.disconnect.
  destruct (RoarmTeleoperator._connected self) eqn:Hc; cbn [negb].
  - unfold try_except, RoarmTeleoperator.sdk, ret.
    destruct (torque_set 1 (RoarmTeleoperator.roarm self)) as [[u | e] handle'];
      cbn; repeat split; congruence.
  - cbn. rewrite Hc, app_nil_r. cbn. repeat split; congruence.
Qed.

(** X28.  A session on a teleoperator that was not connected, whose
    constructor returns a handle that accepts the torque release:
    [connect] then [disconnect] issue exactly [torque_set(cmd=0)] and
    [torque_set(cmd=1)], in this order, on the new handle, and the
    teleoperator ends not connected. *)
Theorem teleoperator_session_torque (config : RoarmTeleoperatorConfig.t)
    (self : RoarmTeleoperator.t hw) (handle : hw) :
  RoarmTeleoperator._connected self = false ->
  RoarmTeleoperatorSession.open_handle open_serial open_wifi config = Some (Return handle) ->
  (torque_set 0 handle).1 = Return tt ->
  let connected := (teleop_connect config self).2 in
  let closed := (RoarmTeleoperatorSession.disconnect connected).2 in
  RoarmTeleoperator.roarm connected = (torque_set 0 handle).2
  /\ RoarmTeleoperator.roarm closed = (torque_set 1 (torque_set 0 handle).2).2
  /\ RoarmTeleoperator.calls closed
     = RoarmTeleoperator.calls self ++ [TorqueSet 0; TorqueSet 1]
  /\ RoarmTeleoperator._connected closed = false.
Proof.
  intros Hc Ho Ht. cbv zeta.
  unfold RoarmTeleoperatorSession.connect. rewrite Hc, Ho.
  unfold RoarmTeleoperator.sdk, RoarmTeleoperatorSession.set_roarm. cbn.
  destruct (torque_set 0 handle) as [r0 handle0]. cbn in Ht |- *. subst r0. cbn.
  unfold RoarmTeleoperatorSession.disconnect, try_except, RoarmTeleoperator.sdk, ret. cbn.
  destruct (torque_set 1 handle0) as [[u | e] handle1]; cbn;
    rewrite <- app_assoc; repeat split; reflexivity.
Qed.

(** X29.  [RoarmTeleoperator.get_observation]: not connected, it raises
    RuntimeError without an SDK call; connected, it issues exactly one
    joint read and returns exactly when that read returns at least six
    angles, with a vector of six values, the i-th computed from the
    i-th angle alone, so angles beyond the sixth play no part; a
    shorter read gives RuntimeError and a read that raises passes its
    exception on. *)
Theorem teleoperator_observation_outcomes (self : RoarmTeleoperator.t hw) :
  let out := teleop_observation self in
  (RoarmTeleoperator._connected self = false ->
   out = (Raise (RuntimeError "Roarm teleoperator not connected"), self))
  /\ (RoarmTeleoperator._connected self = true ->
      RoarmTeleoperator.calls out.2 = RoarmTeleoperator.calls self ++ [JointsAngleGet]
      /\ RoarmTeleoperator._connected out.2 = true
      /\ match (joints_angle_get (RoarmTeleoperator.roarm self)).1 with
         | Raise e => out.1 = Raise e
         | Return angles =>
             if (length angles <? 6)%nat
             then out.1 = Raise (RuntimeError "Failed to read joint angles from teleoperator")
             else exists joints,
                 out.1 = Return joints /\ length joints = 6%nat
                 /\ forall i a, (i < 6)%nat -> angles !! i = Some a ->
                                joints !! i = Some (float32 (Np.deg2rad pi (float32 a)))
         end).
Proof.
  cbv zeta. unfold RoarmTeleoperatorSession.get_observation, bind, get, raise, ret.
  split; intros Hc; rewrite Hc; cbn [negb]; [reflexivity |].
  unfold RoarmTeleoperator.sdk.
  destruct (joints_angle_get (RoarmTeleoperator.roarm self)) as [[angles | e] handle'];
    cbn [fst snd].
  - destruct (length angles <? 6)%nat eqn:Hlen; cbn [fst snd].
    + repeat split; assumption.
    + repeat split; try assumption.
      apply Nat.ltb_ge in Hlen.
      eexists. split; [reflexivity |]. split.
      * rewrite length_map, length_take. lia.
      * intros i a Hi Ha. rewrite list_lookup_fmap, lookup_take_lt by exact Hi.
        rewrite Ha. reflexivity.
  - repeat split; assumption.
Qed.
End TeleoperatorSession.

Lemma teleoperator_connect_prefers_serial_witness :
  RoarmTeleoperatorSession.connect
    (fun _ _ _ => Return {| Steady.angle := 30%Q; Steady.refuses := false |})
    (fun _ _ => Raise SdkError)
    (RoarmTeleoperatorConfig.defaults (Some "/dev/ttyUSB0"%string) (Some "192.168.4.1"%string))
    {| RoarmTeleoperator.roarm := {| Steady.angle := 0%Q; Steady.refuses := true |};
       RoarmTeleoperator._connected := false; RoarmTeleoperator.calls := [] |}
  = RoarmTeleoperatorSession.connect
      (fun _ _ _ => Return {| Steady.angle := 30%Q; Steady.refuses := false |})
      (fun _ _ => Return {| Steady.angle := 0%Q; Steady.refuses := true |})
      (RoarmTeleoperatorConfig.defaults (Some "/dev/ttyUSB0"%string)
         (Some "192.168.4.1"%string))
      {| RoarmTeleoperator.roarm := {| Steady.angle := 0%Q; Steady.refuses := true |};
         RoarmTeleoperator._connected := false; RoarmTeleoperator.calls := [] |}.
Proof.
  refine (teleoperator_connect_prefers_serial _ _ _ _ _ _). reflexivity.
Defined.

Lemma teleoperator_session_torque_witness :
  RoarmTeleoperator.calls
    (RoarmTeleoperatorSession.disconnect
       (RoarmTeleoperatorSession.connect
          (fun _ _ _ => Return {| Steady.angle := 30%Q; Steady.refuses := false |})
          (fun _ _ => Raise SdkError)
          (RoarmTeleoperatorConfig.defaults (Some "/dev/ttyUSB0"%string) None)
          {| RoarmTeleoperator.roarm := {| Steady.angle := 0%Q; Steady.refuses := true |};
             RoarmTeleoperator._connected := false; RoarmTeleoperator.calls := [] |}).2).2
  = [TorqueSet 0; TorqueSet 1].
Proof.
  refine (proj1 (proj2 (proj2 (teleoperator_session_torque
                                 (fun _ _ _ => Return {| Steady.angle := 30%Q;
                                                         Steady.refuses := false |})
                                 (fun _ _ => Raise SdkError)
                                 (RoarmTeleoperatorConfig.defaults
                                    (Some "/dev/ttyUSB0"%string) None)
                                 {| RoarmTeleoperator.roarm :=
                                      {| Steady.angle := 0%Q; Steady.refuses := true |};
                                    RoarmTeleoperator._connected := false;
                                    RoarmTeleoperator.calls := [] |}
                                 {| Steady.angle := 30%Q; Steady.refuses := false |}
                                 _ _ _)))); reflexivity.
Defined.
